(** * state-mirror: patch-based state synchronisation

    A shallow embedding of the synchronisation core of the repository
    (diff engine, conflict engine, broadcaster, offline queue and the
    watcher that coordinates them), of the plugins and of the throttling
    functions that it ships, together with the properties that its
    specification states about it and further properties that the code
    has.

    Conventions of the embedding.
    - JavaScript values are trees ([JValue]).  Numbers are the integers
      ([JNum]) and [JNaN]; timestamps ([Date.now()]) and versions
      (counters) are integers, exact in the doubles the code uses below
      2^53.  Two container arguments of a function denote separately
      allocated objects, so [===] between containers is [false]; the
      aliased call [f(a, a)] is discussed where it matters.
    - Property keys are strings; the keys of an array are the decimal
      numerals of its indices.
    - Exceptions are explicit results; [async] methods are run to
      completion, one at a time, except for the offline queue's [flush],
      whose suspension points are modelled by a step relation. *)

From Stdlib Require Import ZArith List Bool Ascii String Lia Permutation Sorted.
From stdpp Require Import base decidable option list strings pretty gmap.

Import ListNotations.
#[local] Set Warnings "-register-all".
Local Open Scope Z_scope.
Local Open Scope string_scope.
Local Open Scope list_scope.

(* ===================================================================== *)
(** * JavaScript values *)
(* ===================================================================== *)

Module Js.

Inductive JValue : Type :=
| JUndefined
| JNull
| JBool (b : bool)
| JNum (n : Z)
| JNaN
| JStr (s : string)
| JDate (time : Z)
| JArr (items : list JValue)
| JObj (fields : list (string * JValue)).

(** [typeof v] *)
Definition typeof (v : JValue) : string :=
  match v with
  | JUndefined => "undefined"
  | JNull => "object"
  | JBool _ => "boolean"
  | JNum _ | JNaN => "number"
  | JStr _ => "string"
  | JDate _ | JArr _ | JObj _ => "object"
  end.

(** [a === b]: primitives by value ([NaN] is not equal to itself),
    containers by reference, hence never between two separate objects. *)
Definition strict_eq (a b : JValue) : bool :=
  match a, b with
  | JUndefined, JUndefined => true
  | JNull, JNull => true
  | JBool x, JBool y => Bool.eqb x y
  | JNum x, JNum y => Z.eqb x y
  | JStr x, JStr y => String.eqb x y
  | _, _ => false
  end.

(** [v == null] *)
Definition is_nullish (v : JValue) : bool :=
  match v with
  | JUndefined | JNull => true
  | _ => false
  end.

(** The boolean a value converts to in a condition. *)
Definition truthy (v : JValue) : bool :=
  match v with
  | JUndefined | JNull | JNaN => false
  | JBool b => b
  | JNum n => negb (Z.eqb n 0)
  | JStr s => negb (String.eqb s EmptyString)
  | JDate _ | JArr _ | JObj _ => true
  end.

Definition is_array (v : JValue) : bool :=
  match v with JArr _ => true | _ => false end.

(** The key of index [i] of an array. *)
Definition index_key (i : nat) : string := pretty i.

(** The first field named [k] of a field list. *)
Fixpoint assoc (k : string) (l : list (string * JValue)) : option JValue :=
  match l with
  | [] => None
  | (k', v) :: r => if String.eqb k' k then Some v else assoc k r
  end.

(** The items of an array with their keys, from index [i] on. *)
Fixpoint indexed (i : nat) (l : list JValue) : list (string * JValue) :=
  match l with
  | [] => []
  | v :: r => (index_key i, v) :: indexed (S i) r
  end.

Definition chars (s : string) : list JValue :=
  map (fun c => JStr (String c EmptyString)) (list_ascii_of_string s).

(** The own enumerable properties of a value, in enumeration order:
    what [Object.keys] lists and [hasOwnProperty] accepts. *)
Definition entries (v : JValue) : list (string * JValue) :=
  match v with
  | JObj fields => fields
  | JArr items => indexed 0 items
  | JStr s => indexed 0 (chars s)
  | _ => []
  end.

(** [Object.keys(v)] *)
Definition keys (v : JValue) : list string := map fst (entries v).

(** [keys.includes(k)] *)
Definition includes (l : list string) (k : string) : bool :=
  existsb (String.eqb k) l.

(** [hasOwnProperty(v, k)] for the enumerable properties. *)
Definition has_own (v : JValue) (k : string) : bool := includes (keys v) k.

(** [v[k]] for a value that is neither [null] nor [undefined]: own
    properties and the [length] of arrays and strings.  Properties
    inherited from prototypes (methods) are functions, which are not
    data and are not modelled. *)
Definition get (v : JValue) (k : string) : JValue :=
  match assoc k (entries v) with
  | Some x => x
  | None =>
      match v with
      | JArr items =>
          if String.eqb k "length" then JNum (Z.of_nat (length items)) else JUndefined
      | JStr s =>
          if String.eqb k "length" then JNum (Z.of_nat (String.length s)) else JUndefined
      | _ => JUndefined
      end
  end.

(** [s.split(c)] for a one-character separator. *)
Fixpoint split_on (c : ascii) (s : string) : list string :=
  match s with
  | EmptyString => [EmptyString]
  | String a r =>
      if Ascii.eqb a c then EmptyString :: split_on c r
      else match split_on c r with
           | [] => [String a EmptyString]
           | w :: ws => String a w :: ws
           end
  end.

(** Every object of a value has pairwise distinct keys, as every
    JavaScript object has. *)
Fixpoint wf (v : JValue) : Prop :=
  match v with
  | JArr items =>
      (fix all (l : list JValue) : Prop :=
         match l with [] => True | x :: r => wf x /\ all r end) items
  | JObj fields =>
      List.NoDup (map fst fields) /\
      (fix all (l : list (string * JValue)) : Prop :=
         match l with [] => True | (_, x) :: r => wf x /\ all r end) fields
  | _ => True
  end.

(** No [NaN] anywhere in a value. *)
Fixpoint nan_free (v : JValue) : bool :=
  match v with
  | JNaN => false
  | JArr items =>
      (fix all (l : list JValue) : bool :=
         match l with [] => true | x :: r => nan_free x && all r end) items
  | JObj fields =>
      (fix all (l : list (string * JValue)) : bool :=
         match l with [] => true | (_, x) :: r => nan_free x && all r end) fields
  | _ => true
  end.

End Js.

Export Js.

(** A call either returns or throws. *)
Inductive Outcome (A : Type) : Type :=
| Returns (a : A)
| Throws.

Arguments Returns {A} a.
Arguments Throws {A}.

(* ===================================================================== *)
(** * Operations and patches (types.ts) *)
(* ===================================================================== *)

(** [Operation = { op; path; value?; from? }] *)
Record Operation : Type := mkOp {
  op : string;
  path : string;
  value : option JValue;
  from : option string
}.

(** [Patch] *)
Record Patch : Type := mkPatch {
  id : string;
  timestamp : Z;
  source : string;
  target : string;
  operations : list Operation;
  version : Z;
  metadata : option (gmap string JValue)
}.

(** [DiffResult] *)
Record DiffResult : Type := mkDiff {
  diff_operations : list Operation;
  hasChanges : bool
}.

(* ===================================================================== *)
(** * The diff engine (core/diffEngine.ts) *)
(* ===================================================================== *)

Module DiffEngine.

(** [deepClone]: a copy that shares nothing with its argument. *)
Fixpoint deepClone (obj : JValue) : JValue :=
  match obj with
  | JDate t => JDate t
  | JArr items => JArr (map deepClone items)
  | JObj fields =>
      JObj ((fix clone (l : list (string * JValue)) : list (string * JValue) :=
               match l with
               | [] => []
               | (key, x) :: r => (key, deepClone x) :: clone r
               end) fields)
  | _ => obj
  end.

(** [getPathValue(obj, path)]:
    [path.split('.').reduce((current, key) =>
       current && current[key] !== undefined ? current[key] : undefined, obj)] *)
Definition getPathValue (obj : JValue) (path : string) : JValue :=
  fold_left
    (fun current key =>
       if truthy current && negb (strict_eq (get current key) JUndefined)
       then get current key else JUndefined)
    (split_on "." path) obj.

(** [isEqual(a, b)].  The loop runs over the keys of [a]; [a[key]] is the
    value listed with the key. *)
Fixpoint isEqual (a b : JValue) {struct a} : bool :=
  if strict_eq a b then true
  else if is_nullish a || is_nullish b then false
  else if negb (String.eqb (typeof a) (typeof b)) then false
  else if negb (String.eqb (typeof a) "object") then false
  else
    let keysB := keys b in
    match a with
    | JObj fields =>
        if negb (Nat.eqb (length fields) (length keysB)) then false
        else
          (fix loop (l : list (string * JValue)) : bool :=
             match l with
             | [] => true
             | (key, x) :: r =>
                 if negb (includes keysB key) then false
                 else if negb (isEqual x (get b key)) then false
                 else loop r
             end) fields
    | JArr items =>
        if negb (Nat.eqb (length items) (length keysB)) then false
        else
          (fix loop (i : nat) (l : list JValue) : bool :=
             match l with
             | [] => true
             | x :: r =>
                 if negb (includes keysB (index_key i)) then false
                 else if negb (isEqual x (get b (index_key i))) then false
                 else loop (S i) r
             end) 0%nat items
    | _ =>
        (* a Date: no own enumerable property *)
        if negb (Nat.eqb 0 (length keysB)) then false else true
    end.

(** The engine owns one field, [previousState], initially [null]. *)
Record Engine : Type := mkEngine { previousState : JValue }.

Definition initial : Engine := mkEngine JNull.

(** [reset()] *)
Definition reset (e : Engine) : Engine := mkEngine JNull.

(** [setInitialState(state)] *)
Definition setInitialState (e : Engine) (state : JValue) : Engine :=
  mkEngine (deepClone state).

(** [hasPath(state, path)] *)
Definition hasPath (state : JValue) (path : string) : bool :=
  negb (strict_eq (getPathValue state path) JUndefined).

Section Generate.

(** [jsonpatch.compare] of the fast-json-patch package, which the
    engine calls and which may throw. *)
Variable compare : JValue -> JValue -> Outcome (list Operation).

(** The body of the [map] in [generatePathPatch]:
    [{...op, path: op.path === '' ? `/${path}` : `/${path}${op.path}`}] *)
Definition adjust (p : string) (o : Operation) : Operation :=
  mkOp (op o)
       (if String.eqb (path o) EmptyString then "/" +:+ p else "/" +:+ p +:+ path o)
       (value o) (from o).

(** [generatePathPatch(previousState, currentState, paths)] *)
Fixpoint generatePathPatch (previous current : JValue) (paths : list string)
  : Outcome (list Operation) :=
  match paths with
  | [] => Returns []
  | p :: rest =>
      let previousValue := getPathValue previous p in
      let currentValue := getPathValue current p in
      if negb (isEqual previousValue currentValue) then
        match compare (JObj [(p, previousValue)]) (JObj [(p, currentValue)]) with
        | Throws => Throws
        | Returns pathOperations =>
            match generatePathPatch previous current rest with
            | Throws => Throws
            | Returns ops => Returns (map (adjust p) pathOperations ++ ops)
            end
        end
      else generatePathPatch previous current rest
  end.

(** The operations that [generatePatch] computes against a snapshot:
    [generatePathPatch] when [paths && paths.length > 0], the diff of
    the whole object otherwise. *)
Definition changed_operations (previous current : JValue)
           (paths : option (list string)) : Outcome (list Operation) :=
  match paths with
  | Some (p :: ps) => generatePathPatch previous current (p :: ps)
  | _ => compare previous current
  end.

(** [generatePatch(currentState, paths?)]: the new engine and the
    result; when [compare] throws the engine is left as it was. *)
Definition generatePatch (e : Engine) (currentState : JValue)
           (paths : option (list string)) : Engine * Outcome DiffResult :=
  if strict_eq (previousState e) JNull then
    (mkEngine (deepClone currentState), Returns (mkDiff [] false))
  else
    match changed_operations (previousState e) currentState paths with
    | Throws => (e, Throws)
    | Returns ops =>
        (mkEngine (deepClone currentState),
         Returns (mkDiff ops (Nat.ltb 0 (length ops))))
    end.

End Generate.

(** [getAllPaths(obj, prefix)]: the loop [for (const key in obj)] over
    the own keys, with [currentPath] being [key] under an empty prefix
    and [`${prefix}.${key}`] otherwise. *)
Fixpoint getAllPaths (obj : JValue) (prefix : string) {struct obj} : list string :=
  match obj with
  | JObj fields =>
      (fix loop (l : list (string * JValue)) : list string :=
         match l with
         | [] => []
         | (key, x) :: r =>
             let currentPath :=
               if String.eqb prefix EmptyString then key else prefix +:+ "." +:+ key in
             (currentPath ::
                (if String.eqb (typeof x) "object" && negb (strict_eq x JNull)
                 then getAllPaths x currentPath else []))
             ++ loop r
         end) fields
  | JArr items =>
      (fix loop (i : nat) (l : list JValue) : list string :=
         match l with
         | [] => []
         | x :: r =>
             let currentPath :=
               if String.eqb prefix EmptyString then index_key i
               else prefix +:+ "." +:+ index_key i in
             (currentPath ::
                (if String.eqb (typeof x) "object" && negb (strict_eq x JNull)
                 then getAllPaths x currentPath else []))
             ++ loop (S i) r
         end) 0%nat items
  | _ => []
  end.

End DiffEngine.

(* ===================================================================== *)
(** * The fast-json-patch package *)
(* ===================================================================== *)

(** The diff engine and the watcher call [compare] and [applyPatch] of the
    fast-json-patch package, which is a dependency and not part of the
    repository.  Properties that hold whatever the package does are stated
    with the two functions as parameters.  Where a concrete run is needed,
    this module supplies them: a model of the package's documented
    behaviour (RFC 6902, operations applied in order to the document they
    are given, which is mutated in place) on documents built from objects,
    arrays and primitive values.  Outside that fragment the model is an
    approximation: a Date is left as it is where the package would
    serialise it, an array is addressed by index or ["-"] only, an
    operation below anything but an object or an array is a failure, and
    so is a [move] from the root, which would make a document contain
    itself. *)
Module FastJsonPatch.

(** [escapePathComponent] *)
Fixpoint escapePathComponent (s : string) : string :=
  match s with
  | EmptyString => EmptyString
  | String c r =>
      if Ascii.eqb c "~"%char then String "~"%char (String "0"%char (escapePathComponent r))
      else if Ascii.eqb c "/"%char then String "~"%char (String "1"%char (escapePathComponent r))
      else String c (escapePathComponent r)
  end.

(** [s.replace(/ab/g, r)] for two characters [a], [b]. *)
Fixpoint replace_pair (a b r : ascii) (s : string) : string :=
  match s with
  | String c tl =>
      match tl with
      | String d rest =>
          if Ascii.eqb c a && Ascii.eqb d b then String r (replace_pair a b r rest)
          else String c (replace_pair a b r tl)
      | EmptyString => s
      end
  | EmptyString => s
  end.

(** [unescapePathComponent] *)
Definition unescapePathComponent (s : string) : string :=
  replace_pair "~"%char "0"%char "~"%char (replace_pair "~"%char "1"%char "/"%char s).

(** What [JSON.parse(JSON.stringify(v))] makes of the content of a
    container. *)
Fixpoint jsonRound (v : JValue) : JValue :=
  match v with
  | JUndefined | JNaN => JNull
  | JArr items => JArr (map jsonRound items)
  | JObj fields =>
      JObj ((fix round (l : list (string * JValue)) : list (string * JValue) :=
               match l with
               | [] => []
               | (k, x) :: r =>
                   if strict_eq x JUndefined then round r
                   else (k, jsonRound x) :: round r
               end) fields)
  | _ => v
  end.

(** [_deepClone] *)
Definition _deepClone (v : JValue) : JValue :=
  match v with
  | JUndefined => JNull
  | JNull | JDate _ | JArr _ | JObj _ => jsonRound v
  | _ => v
  end.

(** [typeof v == "object" && v != null] *)
Definition is_object (v : JValue) : bool :=
  String.eqb (typeof v) "object" && negb (is_nullish v).

(** [hasOwnProperty(v, k)] *)
Definition hasOwnProperty (v : JValue) (k : string) : bool :=
  has_own v k ||
  match v with
  | JArr _ | JStr _ => String.eqb k "length"
  | _ => false
  end.

(** [_areEquals] *)
Fixpoint _areEquals (a b : JValue) {struct a} : bool :=
  if strict_eq a b then true
  else if truthy a && truthy b && String.eqb (typeof a) "object"
          && String.eqb (typeof b) "object" then
    match a with
    | JArr items =>
        match b with
        | JArr items' =>
            Nat.eqb (length items) (length items') &&
            (fix all (l l' : list JValue) : bool :=
               match l, l' with
               | x :: r, y :: r' => _areEquals x y && all r r'
               | _, _ => true
               end) items items'
        | _ => false
        end
    | JObj fields =>
        negb (is_array b) &&
        Nat.eqb (length fields) (length (keys b)) &&
        forallb (fun k => includes (keys b) k) (map fst fields) &&
        (fix all (l : list (string * JValue)) : bool :=
           match l with
           | [] => true
           | (k, x) :: r => _areEquals x (get b k) && all r
           end) fields
    | _ => negb (is_array b) && Nat.eqb 0 (length (keys b))
    end
  else
    match a, b with
    | JNaN, JNaN => true
    | _, _ => false
    end.

(** ** [compare] *)

(** One round of the first loop of [_generate], for the key [key] of
    [mirror]: the operations pushed and whether a key was deleted. *)
Definition generate_key (rec : JValue -> string -> list Operation)
           (mirror obj : JValue) (path key : string) (oldVal : JValue)
  : list Operation * bool :=
  let here := path +:+ "/" +:+ escapePathComponent key in
  if hasOwnProperty obj key &&
     negb (strict_eq (get obj key) JUndefined
           && negb (strict_eq oldVal JUndefined) && negb (is_array obj))
  then
    let newVal := get obj key in
    if is_object oldVal && is_object newVal
       && Bool.eqb (is_array oldVal) (is_array newVal)
    then (rec newVal here, false)
    else if negb (strict_eq oldVal newVal)
         then ([mkOp "replace" here (Some (_deepClone newVal)) None], false)
         else ([], false)
  else if Bool.eqb (is_array mirror) (is_array obj)
       then ([mkOp "remove" here None None], true)
       else ([mkOp "replace" path (Some obj) None], false).

(** The second loop of [_generate]: the keys that [obj] has and
    [mirror] has not. *)
Definition generate_adds (mirror obj : JValue) (path : string) : list Operation :=
  flat_map
    (fun key =>
       if negb (hasOwnProperty mirror key) && negb (strict_eq (get obj key) JUndefined)
       then [mkOp "add" (path +:+ "/" +:+ escapePathComponent key)
                  (Some (_deepClone (get obj key))) None]
       else [])
    (keys obj).

(** [_generate(mirror, obj, patches, path)]: the operations it pushes.
    The first loop visits the keys of [mirror] from the last to the
    first. *)
Fixpoint generate (mirror obj : JValue) (path : string) {struct mirror}
  : list Operation :=
  if strict_eq obj mirror then []
  else
    let first_loop :=
      match mirror with
      | JObj fields =>
          (fix loop (l : list (string * JValue)) : list Operation * bool :=
             match l with
             | [] => ([], false)
             | (key, oldVal) :: r =>
                 let later := loop r in
                 let this := generate_key (generate oldVal) mirror obj path key oldVal in
                 (fst later ++ fst this, snd later || snd this)
             end) fields
      | JArr items =>
          (fix loop (i : nat) (l : list JValue) : list Operation * bool :=
             match l with
             | [] => ([], false)
             | oldVal :: r =>
                 let later := loop (S i) r in
                 let this :=
                   generate_key (generate oldVal) mirror obj path (index_key i) oldVal in
                 (fst later ++ fst this, snd later || snd this)
             end) 0%nat items
      | _ =>
          fold_right
            (fun kv later =>
               let this :=
                 generate_key (fun _ _ => []) mirror obj path (fst kv) (snd kv) in
               (fst later ++ fst this, snd later || snd this))
            ([], false) (entries mirror)
      end in
    if negb (snd first_loop) && Nat.eqb (length (keys obj)) (length (keys mirror))
    then fst first_loop
    else fst first_loop ++ generate_adds mirror obj path.

(** [compare(tree1, tree2)]; reading the keys of [null] or [undefined]
    throws. *)
Definition compare (tree1 tree2 : JValue) : Outcome (list Operation) :=
  if strict_eq tree2 tree1 then Returns []
  else if is_nullish tree1 || is_nullish tree2 then Throws
  else Returns (generate tree1 tree2 EmptyString).

(** ** [applyPatch] *)

(** The outcome of one operation: the document was changed in place, or
    the operation addressed the root and yields another document. *)
Inductive OpResult : Type :=
| InPlace
| Root (newDocument : JValue).

(** [isInteger(str)] and the number the string denotes. *)
Fixpoint digits (s : string) (acc : nat) : option nat :=
  match s with
  | EmptyString => Some acc
  | String c r =>
      let n := nat_of_ascii c in
      if Nat.leb 48 n && Nat.leb n 57 then digits r (10 * acc + (n - 48))%nat
      else None
  end.

(** The index that a key denotes in the array [items]. *)
Definition array_index (items : list JValue) (key : string) : option nat :=
  if String.eqb key "-" then Some (length items) else digits key 0%nat.

(** [obj[key] = v] on the fields of an object. *)
Fixpoint set_field (key : string) (v : JValue) (l : list (string * JValue))
  : list (string * JValue) :=
  match l with
  | [] => [(key, v)]
  | (k, x) :: r =>
      if String.eqb k key then (k, v) :: r else (k, x) :: set_field key v r
  end.

(** [delete obj[key]] *)
Fixpoint delete_field (key : string) (l : list (string * JValue))
  : list (string * JValue) :=
  match l with
  | [] => []
  | (k, x) :: r =>
      if String.eqb k key then r else (k, x) :: delete_field key r
  end.

(** [arr[i] = v]; beyond the end the array grows. *)
Definition set_item (i : nat) (v : JValue) (items : list JValue) : list JValue :=
  if Nat.ltb i (length items) then firstn i items ++ v :: skipn (S i) items
  else items ++ repeat JUndefined (i - length items) ++ [v].

Definition this_value (o : Operation) : JValue :=
  match value o with Some v => v | None => JUndefined end.

(** The primitive operations of [objOps] and [arrOps] on the container
    [obj] at [key].  An unknown operation name has no entry in the
    tables, and calling it throws. *)
Definition leaf (name : string) (v : JValue) (obj : JValue) (key : string)
  : Outcome JValue :=
  match obj with
  | JObj fields =>
      if String.eqb name "add" || String.eqb name "replace"
      then Returns (JObj (set_field key v fields))
      else if String.eqb name "remove" then Returns (JObj (delete_field key fields))
      else if String.eqb name "test"
           then if _areEquals (get obj key) v then Returns obj else Throws
      else if String.eqb name "_get" then Returns obj
      else Throws
  | JArr items =>
      match array_index items key with
      | None => Throws
      | Some i =>
          if String.eqb name "add"
          then Returns (JArr (firstn i items ++ v :: skipn i items))
          else if String.eqb name "replace" then Returns (JArr (set_item i v items))
          else if String.eqb name "remove"
               then Returns (JArr (firstn i items ++ skipn (S i) items))
          else if String.eqb name "test"
               then if _areEquals (nth i items JUndefined) v then Returns obj else Throws
          else if String.eqb name "_get" then Returns obj
          else Throws
      end
  | _ => Throws
  end.

(** The value that [leaf] addresses. *)
Definition leaf_value (obj : JValue) (key : string) : Outcome JValue :=
  match obj with
  | JObj _ => Returns (get obj key)
  | JArr items =>
      match array_index items key with
      | Some i => Returns (nth i items JUndefined)
      | None => Throws
      end
  | _ => Throws
  end.

(** [child] written back where the walk read it. *)
Definition put (obj : JValue) (key : string) (child : JValue) : JValue :=
  match obj with
  | JObj fields => JObj (set_field key child fields)
  | JArr items =>
      match array_index items key with
      | Some i => JArr (set_item i child items)
      | None => obj
      end
  | _ => obj
  end.

(** The loop of [applyOperation] that follows the keys of the pointer
    down from [obj] and applies [f] to the container of the last key. *)
Fixpoint walk {A : Type} (f : JValue -> string -> Outcome A)
         (back : JValue -> string -> A -> A) (obj : JValue) (ks : list string)
  : Outcome A :=
  match ks with
  | [] => Throws
  | k :: rest =>
      let key := unescapePathComponent k in
      if String.eqb key "__proto__" then Throws
      else
        match rest with
        | [] => f obj key
        | _ :: _ =>
            match leaf_value obj key with
            | Throws => Throws
            | Returns child =>
                match walk f back child rest with
                | Throws => Throws
                | Returns r => Returns (back obj key r)
                end
            end
        end
  end.

(** The keys of a pointer: [path.split('/')] without its first element;
    [None] for the root.  A pointer that is absent or has no slash
    addresses the key that [undefined] converts to. *)
Definition pointer_keys (p : option string) : option (list string) :=
  match p with
  | None => Some ["undefined"]
  | Some EmptyString => None
  | Some s =>
      match split_on "/"%char s with
      | _ :: (k :: ks) => Some (k :: ks)
      | _ => Some ["undefined"]
      end
  end.

(** [getValueByPointer(document, pointer)] *)
Definition getValueByPointer (document : JValue) (pointer : option string)
  : Outcome JValue :=
  match pointer_keys pointer with
  | None => Returns document
  | Some ks => walk leaf_value (fun _ _ r => r) document ks
  end.

(** A primitive operation applied in place at a pointer below the root. *)
Definition modify (name : string) (v : JValue) (document : JValue) (ks : list string)
  : Outcome JValue :=
  walk (leaf name v) put document ks.

(** [applyOperation(document, operation)]: the document after the call,
    which is changed in place, and the result, [None] when the call
    throws. *)
Definition applyOperation (document : JValue) (o : Operation)
  : JValue * option OpResult :=
  match pointer_keys (Some (path o)) with
  | None =>
      if String.eqb (op o) "add" || String.eqb (op o) "replace"
      then (document, Some (Root (this_value o)))
      else if String.eqb (op o) "move" || String.eqb (op o) "copy"
           then match getValueByPointer document (from o) with
                | Returns v => (document, Some (Root v))
                | Throws => (document, None)
                end
      else if String.eqb (op o) "test"
           then if _areEquals document (this_value o)
                then (document, Some InPlace) else (document, None)
      else if String.eqb (op o) "remove" then (document, Some (Root JNull))
      else (document, Some InPlace)
  | Some ks =>
      if String.eqb (op o) "move" then
        match getValueByPointer document (Some (path o)) with
        | Throws => (document, None)
        | Returns _ =>
            match pointer_keys (from o) with
            | None => (document, None)
            | Some fks =>
                match getValueByPointer document (from o) with
                | Throws => (document, None)
                | Returns originalValue =>
                    match modify "remove" JUndefined document fks with
                    | Throws => (document, None)
                    | Returns removed =>
                        match modify "add" originalValue removed ks with
                        | Throws => (removed, None)
                        | Returns moved => (moved, Some InPlace)
                        end
                    end
                end
            end
        end
      else if String.eqb (op o) "copy" then
        match getValueByPointer document (Some (path o)) with
        | Throws => (document, None)
        | Returns _ =>
            match getValueByPointer document (from o) with
            | Throws => (document, None)
            | Returns valueToCopy =>
                match modify "add" (_deepClone valueToCopy) document ks with
                | Throws => (document, None)
                | Returns copied => (copied, Some InPlace)
                end
            end
        end
      else
        match modify (op o) (this_value o) document ks with
        | Throws => (document, None)
        | Returns changed => (changed, Some InPlace)
        end
  end.

(** What a call of [applyPatch(document, patch)] leaves behind: the
    content of the object that was passed as [document], and the
    [newDocument] of the result or the exception. *)
Record ApplyResult : Type := mkApply {
  live : JValue;
  newDocument : Outcome JValue
}.

(** The loop of [applyPatch].  [detached] is the document that a root
    operation has put in the place of the one passed in; from then on the
    operations no longer reach the object passed in. *)
Fixpoint applyPatch_loop (document : JValue) (detached : option JValue)
         (patch : list Operation) : ApplyResult :=
  match patch with
  | [] => mkApply document (Returns (match detached with Some d => d | None => document end))
  | o :: rest =>
      match detached with
      | None =>
          match applyOperation document o with
          | (document', None) => mkApply document' Throws
          | (document', Some InPlace) => applyPatch_loop document' None rest
          | (document', Some (Root d)) => applyPatch_loop document' (Some d) rest
          end
      | Some d =>
          match applyOperation d o with
          | (_, None) => mkApply document Throws
          | (d', Some InPlace) => applyPatch_loop document (Some d') rest
          | (_, Some (Root d')) => applyPatch_loop document (Some d') rest
          end
      end
  end.

(** [applyPatch(document, patch)] with the default arguments: no
    validation, the document is mutated. *)
Definition applyPatch (document : JValue) (patch : list Operation) : ApplyResult :=
  applyPatch_loop document None patch.

End FastJsonPatch.

(* ===================================================================== *)
(** * The conflict engine (core/conflict.ts) *)
(* ===================================================================== *)

Module ConflictEngine.

(** What a resolver returns: one of its two arguments, the very object it
    was given, or a patch object that it has built. *)
Inductive Resolved : Type :=
| KeepLocal
| KeepIncoming
| NewPatch (p : Patch).

(** [ConflictResolver]: [(local, incoming, instance) => Patch].  A
    resolver supplied by the user may throw. *)
Definition ConflictResolver : Type := Patch -> Patch -> Outcome Resolved.

(** The patch that a result denotes. *)
Definition patch_of (local incoming : Patch) (r : Resolved) : Patch :=
  match r with
  | KeepLocal => local
  | KeepIncoming => incoming
  | NewPatch p => p
  end.

(** [lastWriteWinsResolver]:
    [local.timestamp >= incoming.timestamp ? local : incoming] *)
Definition lastWriteWinsResolver (local incoming : Patch) : Resolved :=
  if Z.geb (timestamp local) (timestamp incoming) then KeepLocal else KeepIncoming.

(** [timestampResolver(threshold)] *)
Definition timestampResolver (threshold : Z) (local incoming : Patch) : Resolved :=
  let timeDiff := Z.abs (timestamp local - timestamp incoming) in
  if Z.leb timeDiff threshold then
    if Nat.leb (length (operations incoming)) (length (operations local))
    then KeepLocal else KeepIncoming
  else if Z.geb (timestamp local) (timestamp incoming) then KeepLocal else KeepIncoming.

(** [...m] in an object literal; spreading [undefined] adds nothing. *)
Definition spread (m : option (gmap string JValue)) : gmap string JValue :=
  match m with Some fields => fields | None => ∅ end.

(** [mergeResolver] *)
Definition mergeResolver (local incoming : Patch) : Resolved :=
  NewPatch
    (mkPatch
       (id local +:+ "-" +:+ id incoming +:+ "-merged")
       (Z.max (timestamp local) (timestamp incoming))
       (source local)
       (target local)
       (operations local ++ operations incoming)
       (Z.max (version local) (version incoming) + 1)
       (Some (<["originalPatches" := JArr [JStr (id local); JStr (id incoming)]]>
                (<["merged" := JBool true]>
                   (spread (metadata incoming) ∪ spread (metadata local)))))).

(** [getOperationPath]: [operation.path || ''] *)
Definition getOperationPath (o : Operation) : string :=
  if String.eqb (path o) EmptyString then EmptyString else path o.

(** [extractPaths] *)
Definition extractPaths (ops : list Operation) : list string :=
  map getOperationPath ops.

(** [resolvedOperations[index] = incomingOp] for the first index whose
    operation has the path [p]; [None] when [findIndex] returns -1. *)
Fixpoint replace_first (p : string) (new : Operation) (l : list Operation)
  : option (list Operation) :=
  match l with
  | [] => None
  | o :: r =>
      if String.eqb (getOperationPath o) p then Some (new :: r)
      else match replace_first p new r with
           | Some r' => Some (o :: r')
           | None => None
           end
  end.

(** One round of the loop of [pathBasedResolver] over
    [incoming.operations]. *)
Definition path_step (local incoming : Patch) (conflictingPaths : list string)
           (resolvedOperations : list Operation) (incomingOp : Operation)
  : list Operation :=
  let incomingPath := getOperationPath incomingOp in
  if negb (includes conflictingPaths incomingPath)
  then resolvedOperations ++ [incomingOp]
  else
    let localOp :=
      List.find (fun o => String.eqb (getOperationPath o) incomingPath)
                (operations local) in
    if match localOp with None => true | Some _ => false end
       || Z.gtb (timestamp incoming) (timestamp local)
    then match replace_first incomingPath incomingOp resolvedOperations with
         | Some replaced => replaced
         | None => resolvedOperations ++ [incomingOp]
         end
    else resolvedOperations.

(** [getConflictingPaths] *)
Definition getConflictingPaths (local incoming : Patch) : list string :=
  List.filter (fun p => includes (extractPaths (operations incoming)) p)
              (extractPaths (operations local)).

(** [pathBasedResolver] *)
Definition pathBasedResolver (local incoming : Patch) : Resolved :=
  let conflictingPaths := getConflictingPaths local incoming in
  if Nat.eqb (length conflictingPaths) 0 then mergeResolver local incoming
  else
    NewPatch
      (mkPatch
         (id local +:+ "-" +:+ id incoming +:+ "-path-resolved")
         (Z.max (timestamp local) (timestamp incoming))
         (source local)
         (target local)
         (fold_left (path_step local incoming conflictingPaths)
                    (operations incoming) (operations local))
         (Z.max (version local) (version incoming) + 1)
         (Some (<["conflictingPaths" := JArr (map JStr conflictingPaths)]>
                  (<["pathResolved" := JBool true]> (spread (metadata local)))))).

(** [hasConflicts] *)
Definition hasConflicts (local incoming : Patch) : bool :=
  existsb (fun p => includes (extractPaths (operations incoming)) p)
          (extractPaths (operations local)).

(** [resolveConflict(local, incoming, instance, customResolver?)], given
    the [conflictResolver] of the instance's configuration:
    [customResolver || instance.config.conflictResolver
     || this.defaultConflictResolver], and last-write-wins again when the
    chosen resolver throws. *)
Definition resolveConflict (local incoming : Patch)
           (configured customResolver : option ConflictResolver) : Resolved :=
  let resolver : ConflictResolver :=
    match customResolver with
    | Some r => r
    | None =>
        match configured with
        | Some r => r
        | None => fun l i => Returns (lastWriteWinsResolver l i)
        end
    end in
  match resolver local incoming with
  | Returns r => r
  | Throws => lastWriteWinsResolver local incoming
  end.

(** [validatePatch(patch)] on the object that is handed to it, which
    need not have the fields of a patch: [isValid] and [errors].  Reading
    a property of [null] or [undefined] throws. *)
Definition validatePatch (patch : JValue) : Outcome (bool * list string) :=
  if is_nullish patch then Throws
  else
    let errors :=
      (if negb (truthy (get patch "id")) then ["Patch must have an id"] else [])
      ++ (if negb (truthy (get patch "timestamp"))
             || negb (String.eqb (typeof (get patch "timestamp")) "number")
          then ["Patch must have a valid timestamp"] else [])
      ++ (if negb (truthy (get patch "source")) then ["Patch must have a source"] else [])
      ++ (if negb (truthy (get patch "target")) then ["Patch must have a target"] else [])
      ++ (if negb (is_array (get patch "operations"))
          then ["Patch must have operations array"] else [])
      ++ (if strict_eq (get patch "version") JUndefined
             || negb (String.eqb (typeof (get patch "version")) "number")
          then ["Patch must have a version number"] else []) in
    Returns (Nat.eqb (length errors) 0, errors).

(** ** Patches as objects

    A patch is an object, and a resolver is handed two references.  The
    store maps the references in use to the objects they denote. *)



End ConflictEngine.

(* ===================================================================== *)
(** * The offline queue (core/queue.ts) *)
(* ===================================================================== *)

Module OfflineQueue.

(** The queue: the entries of the custom storage adapter when one was
    given to the constructor, the records of the object store [patches]
    of the database, whose key is the [id] of a patch, and the flag
    [flushInProgress].  The database is taken to be open.  [getAll]
    lists the records as the list has them; no property below depends on
    that order. *)
Record Queue : Type := mkQueue {
  storageAdapter : option (list (string * Patch));
  db : list Patch;
  flushInProgress : bool
}.

Definition set_flag (b : bool) (q : Queue) : Queue :=
  mkQueue (storageAdapter q) (db q) b.

(** [store.put(patch)]: the record of the same key is replaced. *)
Fixpoint put (p : Patch) (l : list Patch) : list Patch :=
  match l with
  | [] => [p]
  | x :: r => if String.eqb (id x) (id p) then p :: r else x :: put p r
  end.

(** [store.delete(id)] *)
Definition delete (key : string) (l : list Patch) : list Patch :=
  List.filter (fun x => negb (String.eqb (id x) key)) l.

(** [storageAdapter.set(key, value)] *)
Fixpoint adapter_set (key : string) (p : Patch) (l : list (string * Patch))
  : list (string * Patch) :=
  match l with
  | [] => [(key, p)]
  | (k, x) :: r =>
      if String.eqb k key then (k, p) :: r else (k, x) :: adapter_set key p r
  end.

(** [storageAdapter.remove(key)] *)
Definition adapter_remove (key : string) (l : list (string * Patch))
  : list (string * Patch) :=
  List.filter (fun kv => negb (String.eqb (fst kv) key)) l.

(** [enqueue(patch)] *)
Definition enqueue (q : Queue) (p : Patch) : Queue :=
  match storageAdapter q with
  | Some entries =>
      mkQueue (Some (adapter_set ("patch-" +:+ id p) p entries)) (db q) (flushInProgress q)
  | None => mkQueue None (put p (db q)) (flushInProgress q)
  end.

(** [getAll()]: with a storage adapter, the empty list. *)
Definition getAll (q : Queue) : list Patch :=
  match storageAdapter q with
  | Some _ => []
  | None => db q
  end.

(** [remove(patches)] *)
Definition remove (q : Queue) (patches : list Patch) : Queue :=
  match storageAdapter q with
  | Some entries =>
      mkQueue
        (Some (fold_left (fun l p => adapter_remove ("patch-" +:+ id p) l) patches entries))
        (db q) (flushInProgress q)
  | None =>
      mkQueue None (fold_left (fun l p => delete (id p) l) patches (db q))
              (flushInProgress q)
  end.

(** [clear()] *)
Definition clear (q : Queue) : Queue :=
  match storageAdapter q with
  | Some _ => mkQueue (Some []) (db q) (flushInProgress q)
  | None => mkQueue None [] (flushInProgress q)
  end.

(** [size()] *)
Definition size (q : Queue) : nat := length (getAll q).

(** [isEmpty()] *)
Definition isEmpty (q : Queue) : bool := Nat.eqb (length (getAll q)) 0.

(** [QueueStatus = { pending; processing; failed; lastFlush }] *)
Record QueueStatus : Type := mkStatus {
  pending : nat;
  processing : nat;
  status_failed : nat;
  lastFlush : Z
}.

(** [getStatus()]; [now] is what [Date.now()] returns. *)
Definition getStatus (q : Queue) (now : Z) : QueueStatus :=
  let patches := getAll q in
  mkStatus (length patches)
           (if flushInProgress q then length patches else 0%nat)
           0%nat
           now.

(** [patches.sort((a, b) => a.timestamp - b.timestamp)]; the sort of an
    array is stable. *)
Fixpoint insert_by_timestamp (p : Patch) (l : list Patch) : list Patch :=
  match l with
  | [] => [p]
  | x :: r =>
      if Z.leb (timestamp p) (timestamp x) then p :: l
      else x :: insert_by_timestamp p r
  end.

Definition sort_by_timestamp (l : list Patch) : list Patch :=
  fold_right insert_by_timestamp [] l.

(** What one call of [flush] did besides changing the queue. *)
Record FlushLog : Type := mkLog {
  sent : list Patch;        (* the calls of [sendFunction], in order *)
  successful : list Patch;  (* [successfulPatches] *)
  failed : list Patch;      (* [failedPatches] *)
  warned : bool             (* 'Flush already in progress' *)
}.

Section Flush.

(** [sendFunction] acts on the world outside the queue and, as the
    watcher's does, possibly on the queue; its promise resolves
    ([true]) or rejects ([false]). *)
Variable World : Type.
Variable sendFunction : Patch -> Queue * World -> bool * (Queue * World).

(** The loop [for (const patch of patches)]. *)
Fixpoint send_all (patches successfulPatches failedPatches : list Patch)
         (qw : Queue * World) : list Patch * list Patch * (Queue * World) :=
  match patches with
  | [] => (successfulPatches, failedPatches, qw)
  | patch :: rest =>
      match sendFunction patch qw with
      | (true, qw') => send_all rest (successfulPatches ++ [patch]) failedPatches qw'
      | (false, qw') => send_all rest successfulPatches (failedPatches ++ [patch]) qw'
      end
  end.

(** [flush(sendFunction)], run from its call to its end. *)
Definition flush (q : Queue) (w : World) : Queue * World * FlushLog :=
  if flushInProgress q then (q, w, mkLog [] [] [] true)
  else
    let patches := getAll (set_flag true q) in
    match patches with
    | [] => (set_flag false q, w, mkLog [] [] [] false)
    | _ :: _ =>
        let sorted := sort_by_timestamp patches in
        match send_all sorted [] [] (set_flag true q, w) with
        | (successfulPatches, failedPatches, (q1, w')) =>
            let q2 :=
              match successfulPatches with
              | [] => q1
              | _ :: _ => remove q1 successfulPatches
              end in
            (set_flag false q2, w', mkLog sorted successfulPatches failedPatches false)
        end
    end.

(** What [sendFunction] answers to each patch of a list, in order. *)
Fixpoint answers (patches : list Patch) (qw : Queue * World) : list (Patch * bool) :=
  match patches with
  | [] => []
  | patch :: rest =>
      (patch, fst (sendFunction patch qw)) :: answers rest (snd (sendFunction patch qw))
  end.

End Flush.

(** ** [flush] between its suspension points

    [flush] is an [async] method: a call runs until its first [await]
    and is resumed when the awaited promise settles, and other calls of
    [flush] and [enqueue] run in between.  A call that got past the
    test of [flushInProgress] is a task. *)

Inductive Task : Type :=
| AwaitGetAll
| AwaitSend (patch : Patch) (rest successfulPatches failedPatches : list Patch)
| AwaitRemove (successfulPatches : list Patch).

Record Machine : Type := mkMachine {
  queue : Queue;
  running : list Task;
  sends : list Patch;
  warnings : nat
}.

(** The task that continues after [sendFunction(patch)] settled with
    the given lists, or [None] at the end of [flush]. *)
Definition after_send (rest successfulPatches failedPatches : list Patch)
  : option Task :=
  match rest with
  | next :: rest' => Some (AwaitSend next rest' successfulPatches failedPatches)
  | [] =>
      match successfulPatches with
      | [] => None
      | _ :: _ => Some (AwaitRemove successfulPatches)
      end
  end.

(** The patch whose send a task has just started, if any. *)
Definition started (t : option Task) : list Patch :=
  match t with
  | Some (AwaitSend p _ _ _) => [p]
  | _ => []
  end.

(** A task replaced by its continuation, or removed at its end, where
    the [finally] block resets the flag. *)
Definition continue (m : Machine) (before after : list Task) (q : Queue)
           (t : option Task) : Machine :=
  match t with
  | Some t' => mkMachine q (before ++ t' :: after) (sends m ++ started t) (warnings m)
  | None => mkMachine (set_flag false q) (before ++ after) (sends m) (warnings m)
  end.

(** A call of [flush], up to its return or its first [await]: with
    the flag set it warns and returns, otherwise it sets the flag and
    waits for [getAll]. *)
Definition call_flush (m : Machine) : Machine :=
  if flushInProgress (queue m)
  then mkMachine (queue m) (running m) (sends m) (S (warnings m))
  else mkMachine (set_flag true (queue m)) (running m ++ [AwaitGetAll])
                 (sends m) (warnings m).

(** One step: a call of [flush], the resumption of a task whose awaited
    promise has settled one way or the other, or a call of [enqueue]. *)
Inductive step : Machine -> Machine -> Prop :=
| step_call m :
    step m (call_flush m)
| step_getAll m before after :
    running m = before ++ AwaitGetAll :: after ->
    step m (continue m before after (queue m)
              (match sort_by_timestamp (getAll (queue m)) with
               | [] => None
               | p :: rest => Some (AwaitSend p rest [] [])
               end))
| step_send_resolved m before after p rest ok ko :
    running m = before ++ AwaitSend p rest ok ko :: after ->
    step m (continue m before after (queue m) (after_send rest (ok ++ [p]) ko))
| step_send_rejected m before after p rest ok ko :
    running m = before ++ AwaitSend p rest ok ko :: after ->
    step m (continue m before after (queue m) (after_send rest ok (ko ++ [p])))
| step_remove_done m before after ok :
    running m = before ++ AwaitRemove ok :: after ->
    step m (continue m before after (remove (queue m) ok) None)
| step_remove_failed m before after ok :
    running m = before ++ AwaitRemove ok :: after ->
    step m (continue m before after (queue m) None)
| step_enqueue m p :
    step m (mkMachine (enqueue (queue m) p) (running m) (sends m) (warnings m)).

(** Any number of steps. *)
Inductive steps : Machine -> Machine -> Prop :=
| steps_none m : steps m m
| steps_more m m1 m' : step m m1 -> steps m1 m' -> steps m m'.

(** The states that calls of [flush] and [enqueue] reach from a queue
    on which no flush is running. *)
Inductive reachable : Machine -> Prop :=
| reachable_start q :
    flushInProgress q = false -> reachable (mkMachine q [] [] 0)
| reachable_step m m' : reachable m -> step m m' -> reachable m'.

End OfflineQueue.

(* ===================================================================== *)
(** * The broadcaster (core/broadcaster.ts) *)
(* ===================================================================== *)

Module Broadcaster.

(** [message.data] *)
Inductive MessageData : Type :=
| NoData                    (* [undefined] *)
| PatchData (p : Patch)
| OtherData (v : JValue).

(** [BroadcastMessage = { type; data; source; timestamp }] *)
Record BroadcastMessage : Type := mkMessage {
  msg_type : string;
  msg_data : MessageData;
  msg_source : string;
  msg_timestamp : Z
}.

(** [isValidMessage]: of its tests, the one that a message of the type
    above can fail. *)
Definition isValidMessage (m : BroadcastMessage) : bool :=
  match msg_data m with
  | NoData => false
  | _ => true
  end.

Section Handlers.

(** The handlers act on what they were registered for. *)
Variable World : Type.

Record Broadcaster : Type := mkBroadcaster {
  sourceId : string;
  _isConnected : bool;
  messageHandlers : list (BroadcastMessage -> World -> World)
}.

(** [onMessage(handler)] *)
Definition onMessage (b : Broadcaster) (handler : BroadcastMessage -> World -> World)
  : Broadcaster :=
  mkBroadcaster (sourceId b) (_isConnected b) (messageHandlers b ++ [handler]).

(** [handleMessage(message)] *)
Definition handleMessage (b : Broadcaster) (message : BroadcastMessage) (w : World)
  : World :=
  if String.eqb (msg_source message) (sourceId b) then w
  else if negb (isValidMessage message) then w
  else fold_left (fun w' handler => handler message w') (messageHandlers b) w.

(** [send(message)]: the message posted on the channel. *)
Definition send (b : Broadcaster) (message : BroadcastMessage) (now : Z)
  : Outcome BroadcastMessage :=
  if negb (_isConnected b) then Throws
  else
    Returns (mkMessage (msg_type message) (msg_data message)
               (if String.eqb (msg_source message) EmptyString then sourceId b
                else msg_source message)
               (if Z.eqb (msg_timestamp message) 0 then now
                else msg_timestamp message)).

End Handlers.

End Broadcaster.

(* ===================================================================== *)
(** * The watcher (core/watcher.ts) *)
(* ===================================================================== *)

Module Watcher.

Import ConflictEngine.
Import Broadcaster.

(** What a plugin hook does with the data it is called on ([null] is
    [None]): it throws, returns nothing, returns [null] or returns a
    patch. *)
Inductive HookResult : Type :=
| HookThrows
| HookUndefined
| HookNull
| HookPatch (p : Patch).

Inductive Hook : Type := OnSend | OnReceive | OnApply.

(** [Plugin], with its hooks on patches; [onInit] and [onDestroy] do not
    see a patch and are left out. *)
Record Plugin : Type := mkPlugin {
  plugin_id : string;
  onSend : option (option Patch -> HookResult);
  onReceive : option (option Patch -> HookResult);
  onApply : option (option Patch -> HookResult)
}.

(** [plugin[hook]] *)
Definition hook_of (hook : Hook) (plugin : Plugin) : option (option Patch -> HookResult) :=
  match hook with
  | OnSend => onSend plugin
  | OnReceive => onReceive plugin
  | OnApply => onApply plugin
  end.

(** [StateMirrorConfig], the options that the watcher reads. *)
Record StateMirrorConfig : Type := mkConfig {
  config_id : string;
  paths : option (list string);
  conflictResolver : option ConflictResolver;
  config_plugins : list Plugin
}.

(** The payloads of the events that the watcher emits. *)
Inductive Payload : Type :=
| NoPayload
| WatchStarted (state : JValue)
| WatchStopped
| StateUpdated (patch : Patch) (operations : list Operation)
| ApplyError (operations : list Operation)
| PatchApplied (patch : Patch) (result : JValue)
| PatchError (patch : Patch)
| Conflict (local incoming resolved : Patch)
| PluginLoaded (pluginId : string)
| PluginError (pluginId : string) (hook : Hook).

(** What the watcher does to the world around it, in order. *)
Inductive Effect : Type :=
| Emit (event : string) (payload : Payload)
| HookCall (pluginId : string) (hook : Hook) (data : option Patch)
| Posted (message : BroadcastMessage)
| Enqueued (patch : Patch)
| Warned (text : string).

(** The fields of [StateMirrorWatcher].  [state] is the content of the
    watched object, which the caller owns and changes; of the
    broadcaster the watcher holds, its connection and the number of
    times [handleMessage] was registered with it. *)
Record Watcher : Type := mkWatcher {
  instance_id : string;
  config : StateMirrorConfig;
  state : JValue;
  isConnected : bool;
  isWatching : bool;
  diffEngine : DiffEngine.Engine;
  broadcaster_connected : bool;
  broadcaster_handlers : nat;
  offlineQueue : OfflineQueue.Queue;
  plugins : list Plugin;
  sourceId : string;
  instance_version : Z;
  effects : list Effect
}.

(** [new StateMirrorWatcher()] with the identifier that [uuidv4()]
    returned. *)
Definition create (uuid : string) : Watcher :=
  mkWatcher EmptyString (mkConfig EmptyString None None []) JUndefined false false
            DiffEngine.initial
            false 0 (OfflineQueue.mkQueue None [] false) [] uuid 0 [].

Definition set_state (v : JValue) (w : Watcher) : Watcher :=
  mkWatcher (instance_id w) (config w) v (isConnected w) (isWatching w) (diffEngine w)
            (broadcaster_connected w) (broadcaster_handlers w) (offlineQueue w)
            (plugins w) (sourceId w) (instance_version w) (effects w).

Definition set_diffEngine (e : DiffEngine.Engine) (w : Watcher) : Watcher :=
  mkWatcher (instance_id w) (config w) (state w) (isConnected w) (isWatching w) e
            (broadcaster_connected w) (broadcaster_handlers w) (offlineQueue w)
            (plugins w) (sourceId w) (instance_version w) (effects w).

Definition set_offlineQueue (q : OfflineQueue.Queue) (w : Watcher) : Watcher :=
  mkWatcher (instance_id w) (config w) (state w) (isConnected w) (isWatching w)
            (diffEngine w) (broadcaster_connected w) (broadcaster_handlers w) q
            (plugins w) (sourceId w) (instance_version w) (effects w).

Definition set_plugins (l : list Plugin) (w : Watcher) : Watcher :=
  mkWatcher (instance_id w) (config w) (state w) (isConnected w) (isWatching w)
            (diffEngine w) (broadcaster_connected w) (broadcaster_handlers w)
            (offlineQueue w) l (sourceId w) (instance_version w) (effects w).

Definition set_version (v : Z) (w : Watcher) : Watcher :=
  mkWatcher (instance_id w) (config w) (state w) (isConnected w) (isWatching w)
            (diffEngine w) (broadcaster_connected w) (broadcaster_handlers w)
            (offlineQueue w) (plugins w) (sourceId w) v (effects w).

Definition set_connection (connected : bool) (broadcaster : bool) (handlers : nat)
           (w : Watcher) : Watcher :=
  mkWatcher (instance_id w) (config w) (state w) connected (isWatching w)
            (diffEngine w) broadcaster handlers (offlineQueue w)
            (plugins w) (sourceId w) (instance_version w) (effects w).

Definition set_isWatching (b : bool) (w : Watcher) : Watcher :=
  mkWatcher (instance_id w) (config w) (state w) (isConnected w) b
            (diffEngine w) (broadcaster_connected w) (broadcaster_handlers w)
            (offlineQueue w) (plugins w) (sourceId w) (instance_version w) (effects w).

(** The effects [l] after those that [w] has had. *)
Definition log (l : list Effect) (w : Watcher) : Watcher :=
  mkWatcher (instance_id w) (config w) (state w) (isConnected w) (isWatching w)
            (diffEngine w) (broadcaster_connected w) (broadcaster_handlers w)
            (offlineQueue w) (plugins w) (sourceId w) (instance_version w)
            (effects w ++ l).

(** [emit(event, data)]: the handlers registered for the event are
    called. *)
Definition emit (event : string) (payload : Payload) (w : Watcher) : Watcher :=
  log [Emit event payload] w.

(** The loop of [processPlugins(hook, data)] over the plugins, in the
    order of their registration. *)
Fixpoint run_hooks (hook : Hook) (l : list Plugin) (processedData : option Patch)
         (w : Watcher) : option Patch * Watcher :=
  match l with
  | [] => (processedData, w)
  | plugin :: rest =>
      match hook_of hook plugin with
      | None => run_hooks hook rest processedData w
      | Some hookFn =>
          let w1 := log [HookCall (plugin_id plugin) hook processedData] w in
          match hookFn processedData with
          | HookThrows =>
              run_hooks hook rest processedData
                        (emit "plugin-error" (PluginError (plugin_id plugin) hook) w1)
          | HookUndefined => run_hooks hook rest processedData w1
          | HookNull => run_hooks hook rest None w1
          | HookPatch p => run_hooks hook rest (Some p) w1
          end
      end
  end.

(** [processPlugins(hook, data)] *)
Definition processPlugins (hook : Hook) (data : option Patch) (w : Watcher)
  : option Patch * Watcher :=
  run_hooks hook (plugins w) data w.

(** [getCurrentPatch()]: "This would return the current patch being
    processed.  For now, return null". *)
Definition getCurrentPatch (w : Watcher) : option Patch := None.

(** [broadcastPatch(patch)]; [now] is what [Date.now()] returns. *)
Definition broadcastPatch (w : Watcher) (patch : Patch) (now : Z) : Watcher :=
  if negb (isConnected w) then
    log [Enqueued patch] (set_offlineQueue (OfflineQueue.enqueue (offlineQueue w) patch) w)
  else
    match send Watcher (mkBroadcaster Watcher (sourceId w) (broadcaster_connected w) [])
               (mkMessage "patch" (PatchData patch) (sourceId w) now) now with
    | Returns posted => log [Posted posted] w
    | Throws =>
        log [Enqueued patch]
            (set_offlineQueue (OfflineQueue.enqueue (offlineQueue w) patch) w)
    end.

(** [use(plugin)] *)
Definition use (w : Watcher) (plugin : Plugin) : Watcher :=
  if existsb (fun p => String.eqb (plugin_id p) (plugin_id plugin)) (plugins w)
  then log [Warned "already registered"] w
  else emit "plugin-loaded" (PluginLoaded (plugin_id plugin))
            (set_plugins (plugins w ++ [plugin]) w).

(** [removePlugin(pluginId)]: [this.plugins.delete(pluginId)]. *)
Definition removePlugin (w : Watcher) (pluginId : string) : Watcher :=
  set_plugins
    (List.filter (fun p => negb (String.eqb (plugin_id p) pluginId)) (plugins w)) w.

(** [unwatch()] *)
Definition unwatch (w : Watcher) : Watcher :=
  emit "update" WatchStopped
    (set_diffEngine (DiffEngine.reset (diffEngine w))
       (emit "disconnect" NoPayload
          (set_connection false false 0 (set_isWatching false w)))).

(** [watch(state, config)] up to its return.  [connect()] has by then
    connected the broadcaster and waits at its first [await]; what it
    does afterwards is [connected] below. *)
Definition watch (w : Watcher) (st : JValue) (cfg : StateMirrorConfig) : Watcher :=
  let w1 :=
    mkWatcher (config_id cfg) cfg st (isConnected w) (isWatching w)
              (DiffEngine.setInitialState (diffEngine w) st)
              (broadcaster_connected w) (broadcaster_handlers w) (offlineQueue w)
              (plugins w) (sourceId w) (instance_version w) (effects w) in
  let w2 := fold_left use (config_plugins cfg) w1 in
  let w3 := set_connection (isConnected w2) true (broadcaster_handlers w2) w2 in
  emit "update" (WatchStarted st) (set_isWatching true w3).

Section Library.

(** The two functions of fast-json-patch that the watcher and its
    diff engine call. *)
Variable compare : JValue -> JValue -> Outcome (list Operation).
Variable applyPatch : JValue -> list Operation -> FastJsonPatch.ApplyResult.

(** [update(operations)]; [uuid] and [now] are what [uuidv4()] and
    [Date.now()] return. *)
Definition update (w : Watcher) (uuid : string) (now : Z) (ops : list Operation)
  : Watcher :=
  if negb (isWatching w) then w
  else
    let applied := applyPatch (state w) ops in
    let w1 := set_state (FastJsonPatch.live applied) w in
    match FastJsonPatch.newDocument applied with
    | Throws => emit "error" (ApplyError ops) w1
    | Returns _ =>
        let patch :=
          mkPatch uuid now (sourceId w) (instance_id w) ops (instance_version w + 1)
                  (Some {["applied" := JBool true]}) in
        let w2 := set_version (instance_version w + 1) w1 in
        let (processedPatch, w3) := processPlugins OnSend (Some patch) w2 in
        let w4 :=
          match processedPatch with
          | Some p => broadcastPatch w3 p now
          | None => w3
          end in
        emit "update" (StateUpdated patch ops) w4
    end.

(** [sync()]; when the diff throws, the promise of [sync] rejects and
    nothing else has happened. *)
Definition sync (w : Watcher) (uuid : string) (now : Z) : Watcher :=
  if negb (isWatching w) then w
  else
    match DiffEngine.generatePatch compare (diffEngine w) (state w) (paths (config w)) with
    | (_, Throws) => w
    | (engine, Returns diffResult) =>
        let w1 := set_diffEngine engine w in
        if hasChanges diffResult then
          let patch :=
            mkPatch uuid now (sourceId w) (instance_id w) (diff_operations diffResult)
                    (instance_version w + 1) None in
          broadcastPatch (set_version (instance_version w + 1) w1) patch now
        else w1
    end.

(** [applyPatch(patch)] of the watcher *)
Definition applyPatch_ (w : Watcher) (patch : Patch) : Watcher :=
  let applied := applyPatch (state w) (operations patch) in
  let w1 := set_state (FastJsonPatch.live applied) w in
  match FastJsonPatch.newDocument applied with
  | Returns result =>
      emit "sync" (PatchApplied patch result)
           (snd (processPlugins OnApply (Some patch) w1))
  | Throws => emit "error" (PatchError patch) w1
  end.

(** [handlePatch(patch)] *)
Definition handlePatch (w : Watcher) (patch : Patch) : Watcher :=
  if String.eqb (source patch) (sourceId w) then w
  else
    let (processed, w1) := processPlugins OnReceive (Some patch) w in
    match processed with
    | None => w1
    | Some processedPatch =>
        match getCurrentPatch w1 with
        | Some currentPatch =>
            if hasConflicts currentPatch processedPatch then
              let resolved :=
                patch_of currentPatch processedPatch
                  (resolveConflict currentPatch processedPatch
                                   (conflictResolver (config w1)) None) in
              applyPatch_
                (emit "conflict" (Conflict currentPatch patch resolved) w1) resolved
            else applyPatch_ w1 processedPatch
        | None => applyPatch_ w1 processedPatch
        end
    end.

(** [handleMessage(message)] of the watcher *)
Definition handleMessage (message : BroadcastMessage) (w : Watcher) : Watcher :=
  if String.eqb (msg_type message) "patch" then
    match msg_data message with
    | PatchData patch => handlePatch w patch
    | _ => w
    end
  else w.

(** The broadcaster that the watcher holds. *)
Definition broadcaster (w : Watcher) : Broadcaster Watcher :=
  mkBroadcaster Watcher (sourceId w) (broadcaster_connected w)
                (repeat handleMessage (broadcaster_handlers w)).

(** A message arrives on the channel. *)
Definition receive (w : Watcher) (message : BroadcastMessage) : Watcher :=
  Broadcaster.handleMessage Watcher (broadcaster w) message w.

(** [flushQueue()] *)
Definition flushQueue (w : Watcher) (now : Z) : Watcher :=
  match OfflineQueue.flush Watcher
          (fun patch qw =>
             let w' := broadcastPatch (set_offlineQueue (fst qw) (snd qw)) patch now in
             (true, (offlineQueue w', w')))
          (offlineQueue w) w with
  | (q, w', l) =>
      set_offlineQueue q
        (if OfflineQueue.warned l then log [Warned "Flush already in progress"] w' else w')
  end.

(** What [connect()] does once the broadcaster has connected. *)
Definition connected (w : Watcher) (now : Z) : Watcher :=
  flushQueue
    (emit "connect" NoPayload
       (set_connection true (broadcaster_connected w) (S (broadcaster_handlers w)) w))
    now.

End Library.

End Watcher.

(* ===================================================================== *)
(** * The plugins that the package ships (plugins/logger.ts, plugins/encrypt.ts) *)
(* ===================================================================== *)

Module Plugins.

Import Watcher.

(** [pluginLogger(config)].  Each hook builds the record that it logs
    from [patch.id] and [patch.operations.length] before anything else,
    which throws on [null]; [onSend] and [onReceive] then return the
    patch, [onApply] returns nothing.  What reaches the console is not
    part of the watcher's effects, and no option of [config] changes what
    the hooks return. *)
Definition pluginLogger : Plugin :=
  mkPlugin "logger"
    (Some (fun data => match data with Some patch => HookPatch patch | None => HookThrows end))
    (Some (fun data => match data with Some patch => HookPatch patch | None => HookThrows end))
    (Some (fun data => match data with Some _ => HookUndefined | None => HookThrows end)).

(** [pluginEncrypt({ key, enabled: false })]: [onSend] returns [null]
    at its first line, [onReceive] returns what it was given and
    [onApply] returns nothing. *)
Definition pluginEncrypt_disabled : Plugin :=
  mkPlugin "encrypt"
    (Some (fun _ => HookNull))
    (Some (fun data => match data with Some patch => HookPatch patch | None => HookNull end))
    (Some (fun _ => HookUndefined)).

End Plugins.

(* ===================================================================== *)
(** * The event handlers of the watcher (core/watcher.ts) *)
(* ===================================================================== *)

Module Events.

(** [eventHandlers: Map<string, EventHandler[]>].  A handler is a
    function, which [indexOf] compares by reference: handlers are the
    references. *)
Definition EventHandlers : Type := gmap string (list positive).

(** [on(event, handler)] *)
Definition on (m : EventHandlers) (event : string) (handler : positive) : EventHandlers :=
  match m !! event with
  | Some handlers => <[event := handlers ++ [handler]]> m
  | None => <[event := [handler]]> m
  end.

(** [handlers.splice(handlers.indexOf(handler), 1)] when the index is
    not -1. *)
Fixpoint splice_first (handler : positive) (handlers : list positive) : list positive :=
  match handlers with
  | [] => []
  | h :: r => if Pos.eqb h handler then r else h :: splice_first handler r
  end.

(** [off(event, handler)] *)
Definition off (m : EventHandlers) (event : string) (handler : positive) : EventHandlers :=
  match m !! event with
  | Some handlers => <[event := splice_first handler handlers]> m
  | None => m
  end.

(** [emit(event, data)]: the handlers that are called, in order; one
    that throws does not stop the others. *)
Definition emit (m : EventHandlers) (event : string) : list positive :=
  match m !! event with
  | Some handlers => handlers
  | None => []
  end.

End Events.

(* ===================================================================== *)
(** * Throttling and debouncing (core/throttle.ts) *)
(* ===================================================================== *)

(** [throttle(func, delay, leading, trailing)] and
    [debounce(func, delay, leading, trailing)] return a function that
    closes over a few variables.  The state of such a function is the
    content of these variables together with what it has done so far:
    the arguments of its calls of [func], in order.  [timeoutId] is the
    time at which the pending timer is due, or [None] when none is
    pending: an identifier that [setTimeout] returned is truthy, and
    [clearTimeout] of a timer that has fired does nothing.  The methods
    [throttle] and [debounce] of [ThrottleManager] build the same
    functions from [config.leading] and [config.trailing]. *)

Module Throttle.

Section Arguments.

(** The arguments of a call, [...args]. *)
Variable Args : Type.

(** ** [throttle] *)

Record Throttled : Type := mkThrottled {
  lastCall : Z;
  timeoutId : option Z;
  lastArgs : option Args;
  calls : list Args
}.

(** [let lastCall = 0; let timeoutId = null; let lastArgs = null] *)
Definition throttle : Throttled := mkThrottled 0 None None [].

(** A call of the throttled function at the time [now]. *)
Definition throttled (delay : Z) (leading trailing : bool) (now : Z) (args : Args)
           (s : Throttled) : Throttled :=
  if Z.geb (now - lastCall s) delay then
    if leading then mkThrottled now (timeoutId s) (Some args) (calls s ++ [args])
    else mkThrottled (lastCall s) (timeoutId s) (Some args) (calls s)
  else if trailing then
    mkThrottled (lastCall s) (Some (now + (delay - (now - lastCall s)))) (Some args) (calls s)
  else mkThrottled (lastCall s) (timeoutId s) (Some args) (calls s).

(** The callback of the timer, run at the time [now]. *)
Definition throttled_timeout (now : Z) (s : Throttled) : Throttled :=
  match lastArgs s with
  | Some args => mkThrottled now None None (calls s ++ [args])
  | None => mkThrottled now None None (calls s)
  end.

(** ** [debounce] *)

Record Debounced : Type := mkDebounced {
  d_timeoutId : option Z;
  d_lastArgs : option Args;
  hasCalled : bool;
  d_calls : list Args
}.

(** [let timeoutId = null; let lastArgs = null; let hasCalled = false] *)
Definition debounce : Debounced := mkDebounced None None false [].

(** A call of the debounced function at the time [now]. *)
Definition debounced (delay : Z) (leading trailing : bool) (now : Z) (args : Args)
           (s : Debounced) : Debounced :=
  let invoke := leading && negb (hasCalled s) in
  mkDebounced (if trailing then Some (now + delay) else None)
              (Some args)
              (if invoke then true else hasCalled s)
              (if invoke then d_calls s ++ [args] else d_calls s).

(** The callback of the timer. *)
Definition debounced_timeout (leading : bool) (s : Debounced) : Debounced :=
  mkDebounced None None
              (if leading then false else hasCalled s)
              (match d_lastArgs s with
               | Some args => d_calls s ++ [args]
               | None => d_calls s
               end).

(** ** What happens to such a function *)

(** It is called, or the timer that it has set comes due. *)
Inductive Event : Type :=
| Call (now : Z) (args : Args)
| Timeout (now : Z).

(** A timer fires when it is pending and due. *)
Definition due (timer : option Z) (now : Z) : bool :=
  match timer with
  | Some t => Z.leb t now
  | None => false
  end.

Definition throttle_event (delay : Z) (leading trailing : bool) (s : Throttled) (e : Event)
  : Throttled :=
  match e with
  | Call now args => throttled delay leading trailing now args s
  | Timeout now => if due (timeoutId s) now then throttled_timeout now s else s
  end.

Definition debounce_event (delay : Z) (leading trailing : bool) (s : Debounced) (e : Event)
  : Debounced :=
  match e with
  | Call now args => debounced delay leading trailing now args s
  | Timeout now => if due (d_timeoutId s) now then debounced_timeout leading s else s
  end.

End Arguments.

Arguments lastCall {Args}.
Arguments timeoutId {Args}.
Arguments lastArgs {Args}.
Arguments calls {Args}.
Arguments d_timeoutId {Args}.
Arguments d_lastArgs {Args}.
Arguments hasCalled {Args}.
Arguments d_calls {Args}.
Arguments Call {Args}.
Arguments Timeout {Args}.

End Throttle.

(* ===================================================================== *)
(** * Notions and examples used in the statements *)
(* ===================================================================== *)

Section Vocabulary.

Import ConflictEngine.
Import OfflineQueue.
Import Broadcaster.
Import Watcher.

(** The values that [isEqual] compares key by key. *)
Definition container (v : JValue) : bool :=
  match v with
  | JDate _ | JArr _ | JObj _ => true
  | _ => false
  end.

(** [a] is not younger than [b]. *)
Definition older (a b : Patch) : Prop := timestamp a <= timestamp b.

(** Of the patches sent, with the answers they got, those whose send
    resolved and those whose send rejected. *)
Definition resolved (l : list (Patch * bool)) : list Patch :=
  map fst (List.filter snd l).

Definition rejected (l : list (Patch * bool)) : list Patch :=
  map fst (List.filter (fun a => negb (snd a)) l).

(** A send function that settles as [oracle] says and touches nothing. *)
Definition oracle_send (oracle : Patch -> bool) (p : Patch) (qw : Queue * unit)
  : bool * (Queue * unit) :=
  (oracle p, qw).

(** Either no task runs and the flag is down, or one task runs and the
    flag is up. *)
Definition one_flush (m : Machine) : Prop :=
  (running m = [] /\ flushInProgress (queue m) = false)
  \/ (exists t, running m = [t] /\ flushInProgress (queue m) = true).

(** The patch that an effect hands to the transport or to the queue. *)
Definition emitted_patch (e : Effect) : option Patch :=
  match e with
  | Posted message =>
      match msg_data message with
      | PatchData p => Some p
      | _ => None
      end
  | Enqueued p => Some p
  | _ => None
  end.


(** The patches of Scenario B, two writes of [/x]. *)
Definition write_x (name : string) (time : Z) (author : string) (n : Z) (v : Z) : Patch :=
  mkPatch name time author "doc" [mkOp "replace" "/x" (Some (JNum n)) None] v None.

(** The local patch, of timestamp 100, writes [/x = 1]. *)
Definition scenarioB_local : Patch := write_x "local-1" 100 "tab-A" 1 1.

(** The incoming patch, of timestamp 200, writes [/x = 2]. *)
Definition scenarioB_incoming : Patch := write_x "incoming-1" 200 "tab-B" 2 1.


(** A send function for the examples: it records the patch and
    resolves for the patches older than timestamp 150. *)
Definition send_older_than_150 (p : Patch) (qw : Queue * list Patch)
  : bool * (Queue * list Patch) :=
  (Z.ltb (timestamp p) 150, (fst qw, snd qw ++ [p])).

(** A queue that holds two patches, the younger one first. *)
Definition two_queued : Queue :=
  mkQueue None [mkPatch "b" 200 "me" "doc" [] 2 None;
                mkPatch "a" 100 "me" "doc" [] 1 None] false.

(** That queue after a call of [flush], which waits for [getAll]. *)
Definition flushing : Machine := call_flush (mkMachine two_queued [] [] 0).

(** The operation set that writes [/x = n]. *)
Definition set_x (n : Z) : list Operation :=
  [mkOp "replace" "/x" (Some (JNum n)) None].

(** An instance that watches [{x: 0}] under the default configuration
    and has not yet heard from its transport. *)
Definition tab_A : Watcher :=
  watch (create "tab-A") (JObj [("x", JNum 0)]) (mkConfig "doc" None None []).

(** The patch that [update(set_x 1)] stamps at time 200. *)
Definition pending_local : Patch :=
  mkPatch "local-1" 200 "tab-A" "doc" (set_x 1) 1 (Some {["applied" := JBool true]}).

(** An older patch of another instance for the same path. *)
Definition older_incoming : Patch :=
  mkPatch "incoming-1" 100 "tab-B" "doc" (set_x 2) 1 None.


(** Two states that differ in [secret] only, outside the filter
    [name]. *)
Definition profile (name : string) (secret : Z) : JValue :=
  JObj [("name", JStr name); ("secret", JNum secret)].

End Vocabulary.

(** ** Further notions *)

Section MoreVocabulary.

Import ConflictEngine.
Import OfflineQueue.
Import Broadcaster.
Import Watcher.

(** An operation and a patch as the objects that they are. *)
Definition operation_object (o : Operation) : JValue :=
  JObj ([("op", JStr (op o)); ("path", JStr (path o))]
        ++ match value o with Some v => [("value", v)] | None => [] end
        ++ match from o with Some f => [("from", JStr f)] | None => [] end).

Definition patch_object (p : Patch) : JValue :=
  JObj ([("id", JStr (id p));
         ("timestamp", JNum (timestamp p));
         ("source", JStr (source p));
         ("target", JStr (target p));
         ("operations", JArr (map operation_object (operations p)));
         ("version", JNum (version p))]
        ++ match metadata p with
           | Some m => [("metadata", JObj (map_to_list m))]
           | None => []
           end).

(** The step of the [reduce] in [getPathValue]. *)
Definition descend (current : JValue) (key : string) : JValue :=
  if truthy current && negb (strict_eq (get current key) JUndefined)
  then get current key else JUndefined.

(** A key that [path.split('.')] leaves in one piece and that is not
    the empty prefix. *)
Definition dot_free (s : string) : bool :=
  forallb (fun c => negb (Ascii.eqb c ".")) (list_ascii_of_string s).

Definition plain_key (k : string) : bool :=
  negb (String.eqb k EmptyString) && dot_free k.

(** What [getAllPaths] lists for one property: its path and, when its
    value is an object, the paths below. *)
Definition paths_of_entry (prefix : string) (kv : string * JValue) : list string :=
  let currentPath :=
    if String.eqb prefix EmptyString then fst kv else prefix +:+ "." +:+ fst kv in
  currentPath ::
    (if String.eqb (typeof (snd kv)) "object" && negb (strict_eq (snd kv) JNull)
     then DiffEngine.getAllPaths (snd kv) currentPath else []).

(** Every key of every object of a value is plain, and no property or
    item is [undefined]. *)
Fixpoint addressable (v : JValue) : bool :=
  match v with
  | JArr items =>
      (fix all (l : list JValue) : bool :=
         match l with
         | [] => true
         | x :: r => negb (strict_eq x JUndefined) && addressable x && all r
         end) items
  | JObj fields =>
      (fix all (l : list (string * JValue)) : bool :=
         match l with
         | [] => true
         | (k, x) :: r =>
             plain_key k && negb (strict_eq x JUndefined) && addressable x && all r
         end) fields
  | _ => true
  end.

(** The operations of the incoming patch whose path the local patch
    does not touch. *)
Definition unconflicting (local incoming : Patch) : list Operation :=
  List.filter
    (fun o => negb (includes (getConflictingPaths local incoming) (getOperationPath o)))
    (operations incoming).

(** The last operation of [ops] on the path of [o], or [o] itself when
    there is none. *)
Definition last_on_path (ops : list Operation) (o : Operation) : Operation :=
  match List.find (fun o' => String.eqb (getOperationPath o') (getOperationPath o))
                  (rev ops) with
  | Some o' => o'
  | None => o
  end.

(** An effect that is a call of a plugin hook. *)
Definition is_hook_call (e : Effect) : bool :=
  match e with HookCall _ _ _ => true | _ => false end.

(** The message that [broadcastPatch] posts for a patch. *)
Definition patch_message (w : Watcher) (p : Patch) (now : Z) : BroadcastMessage :=
  mkMessage "patch" (PatchData p) (sourceId w) now.

(** What [broadcastPatch] does with a patch: it posts it when the
    instance and its broadcaster are connected, and queues it otherwise. *)
Definition handed_over (w : Watcher) (now : Z) (p : Patch) : Effect :=
  if isConnected w && broadcaster_connected w
  then Posted (patch_message w p now) else Enqueued p.


(** The patch that [update(ops)] stamps. *)
Definition stamped (w : Watcher) (uuid : string) (now : Z) (ops : list Operation) : Patch :=
  mkPatch uuid now (sourceId w) (instance_id w) ops (instance_version w + 1)
          (Some {["applied" := JBool true]}).

(** The send function that [flushQueue] hands to [flush]:
    [this.broadcastPatch.bind(this)], whose promise resolves. *)
Definition send_patch (now : Z) (patch : Patch) (qw : Queue * Watcher)
  : bool * (Queue * Watcher) :=
  let w' := broadcastPatch (set_offlineQueue (fst qw) (snd qw)) patch now in
  (true, (offlineQueue w', w')).

(** The queue after [broadcastPatch] was called on the patches one
    after the other: as it was when they were posted, with each of them
    enqueued again when they were not. *)
Definition requeued (w : Watcher) (patches : list Patch) (q : Queue) : Queue :=
  if isConnected w && broadcaster_connected w then q else fold_left enqueue patches q.

(** A plugin whose [onSend] throws. *)
Definition failing_plugin : Plugin :=
  mkPlugin "failing" (Some (fun _ => HookThrows)) None None.

(** A call of a throttled or debounced function, given as its time and
    its arguments. *)
Definition call_of {Args : Type} (c : Z * Args) : Throttle.Event Args :=
  Throttle.Call (fst c) (snd c).

(** The calls of a timeline are made at the time [t] or later. *)
Definition called_from {Args : Type} (t : Z) (e : Throttle.Event Args) : Prop :=
  match e with
  | Throttle.Call now _ => t <= now
  | Throttle.Timeout _ => True
  end.

End MoreVocabulary.

(* ===================================================================== *)
(** * Properties *)
(* ===================================================================== *)

(** ** JavaScript values *)

Section Values.

(** Induction on a value with the hypothesis available for every item
    of an array and every field of an object. *)
Lemma JValue_nested_ind (P : JValue -> Prop) :
  (forall v,
      match v with
      | JArr items => Forall P items
      | JObj fields => Forall (fun kv => P (snd kv)) fields
      | _ => True
      end -> P v) ->
  forall v, P v.
Proof.
  intros step.
  fix IH 1.
  intros v. apply step. destruct v; try exact I.
  - induction items as [|x r IHr]; constructor; [apply IH | exact IHr].
  - induction fields as [|[k x] r IHr]; constructor; [apply IH | exact IHr].
Qed.

Lemma strict_eq_sym a b : strict_eq a b = strict_eq b a.
Proof.
  destruct a, b; simpl; try reflexivity.
  - now destruct b, b0.
  - apply Z.eqb_sym.
  - apply String.eqb_sym.
Qed.

Lemma strict_eq_true a b : strict_eq a b = true -> a = b.
Proof.
  destruct a, b; simpl; try discriminate; intros H; try reflexivity.
  - apply Bool.eqb_prop in H. now subst.
  - apply Z.eqb_eq in H. now subst.
  - apply String.eqb_eq in H. now subst.
Qed.

Lemma includes_In l k : includes l k = true <-> In k l.
Proof.
  unfold includes. rewrite existsb_exists. split.
  - intros [x [Hx He]]. apply String.eqb_eq in He. now subst.
  - intros H. exists k. split; [exact H | apply String.eqb_refl].
Qed.

Lemma wf_items items : wf (JArr items) <-> Forall wf items.
Proof.
  simpl. induction items as [|x r IH]; split; intros H.
  - constructor.
  - exact I.
  - destruct H as [Hx Hr]. constructor; [exact Hx | now apply IH].
  - inversion H; subst. split; [assumption | now apply IH].
Qed.

Lemma wf_fields fields :
  wf (JObj fields) <-> List.NoDup (map fst fields) /\ Forall (fun kv => wf (snd kv)) fields.
Proof.
  simpl. split; intros [Hn H]; split; try exact Hn; clear Hn.
  - induction fields as [|[k x] r IH]; constructor.
    + exact (proj1 H).
    + apply IH, (proj2 H).
  - induction fields as [|[k x] r IH]; [exact I|].
    inversion H; subst. split; [assumption | now apply IH].
Qed.

Lemma nan_free_items items :
  nan_free (JArr items) = forallb nan_free items.
Proof.
  simpl. induction items as [|x r IH]; [reflexivity|].
  simpl. now rewrite IH.
Qed.

Lemma nan_free_fields fields :
  nan_free (JObj fields) = forallb (fun kv => nan_free (snd kv)) fields.
Proof.
  simpl. induction fields as [|[k x] r IH]; [reflexivity|].
  simpl. now rewrite IH.
Qed.

Lemma keys_indexed i l : map fst (indexed i l) = map index_key (seq i (length l)).
Proof.
  revert i. induction l as [|x r IH]; intros i; [reflexivity|].
  simpl. now rewrite IH.
Qed.

Lemma length_indexed i l : length (indexed i l) = length l.
Proof.
  revert i. induction l as [|x r IH]; intros i; [reflexivity|].
  simpl. now rewrite IH.
Qed.

Lemma NoDup_keys_indexed i l : List.NoDup (map fst (indexed i l)).
Proof.
  rewrite keys_indexed.
  apply Finite.Injective_map_NoDup; [|apply seq_NoDup].
  intros x y H. unfold index_key in H. now apply (inj pretty) in H.
Qed.

(** The keys of a well-formed value are pairwise distinct. *)
Lemma NoDup_keys v : wf v -> List.NoDup (keys v).
Proof.
  destruct v; intros H; unfold keys; simpl; try constructor.
  - apply NoDup_keys_indexed.
  - apply NoDup_keys_indexed.
  - apply wf_fields in H. apply H.
Qed.

Lemma assoc_In k x l : List.NoDup (map fst l) -> In (k, x) l -> assoc k l = Some x.
Proof.
  induction l as [|[k' y] r IH]; intros Hn Hin; [destruct Hin|].
  simpl in *. inversion Hn as [|? ? Hnotin Hn']; subst.
  destruct Hin as [Heq | Hin].
  - inversion Heq; subst. now rewrite String.eqb_refl.
  - destruct (String.eqb k' k) eqn:E.
    + apply String.eqb_eq in E. subst. exfalso. apply Hnotin.
      change k with (fst (k, x)). now apply in_map.
    + now apply IH.
Qed.

(** Reading the key of an entry yields its value. *)
Lemma get_entry v k x : List.NoDup (keys v) -> In (k, x) (entries v) -> get v k = x.
Proof.
  intros Hn Hin. unfold get. now rewrite (assoc_In k x (entries v) Hn Hin).
Qed.

Lemma wf_entries v : wf v -> Forall (fun kv => wf (snd kv)) (entries v).
Proof.
  intros H. destruct v; simpl; try constructor.
  - unfold chars. generalize 0%nat. induction (list_ascii_of_string s) as [|c r IH];
      intros i; simpl; constructor; [exact I | apply IH].
  - apply wf_items in H. generalize 0%nat.
    induction H as [|x r Hx Hr IH]; intros i; simpl; constructor; [exact Hx | apply IH].
  - apply wf_fields in H. apply H.
Qed.

End Values.

(** ** The diff engine *)

Section DiffEngineFacts.

Import DiffEngine.

(** A deep copy has the content of its original. *)
Lemma deepClone_id v : deepClone v = v.
Proof.
  induction v as [v IHv] using JValue_nested_ind.
  destruct v; simpl; try reflexivity.
  - f_equal.
    induction IHv as [|x r Hx Hr IH]; [reflexivity|].
    simpl. now rewrite Hx, IH.
  - f_equal.
    induction IHv as [|[k x] r Hx Hr IH]; [reflexivity|].
    simpl in *. now rewrite Hx, IH.
Qed.

Lemma isEqual_not_container_l a b :
  container a = false -> isEqual a b = strict_eq a b.
Proof.
  destruct a; try discriminate; intros _; destruct b; simpl; try reflexivity;
    repeat match goal with |- context [if ?c then _ else _] => destruct c end;
    reflexivity.
Qed.

Lemma isEqual_not_container_r a b :
  container b = false -> isEqual a b = strict_eq a b.
Proof.
  intros Hb. destruct (container a) eqn:Ha.
  - destruct a; try discriminate; destruct b; try discriminate; reflexivity.
  - now apply isEqual_not_container_l.
Qed.

Lemma isEqual_fields_loop b l :
  (fix loop (l : list (string * JValue)) : bool :=
     match l with
     | [] => true
     | (key, x) :: r =>
         if negb (includes (keys b) key) then false
         else if negb (isEqual x (get b key)) then false
         else loop r
     end) l
  = forallb (fun kv => includes (keys b) (fst kv) && isEqual (snd kv) (get b (fst kv))) l.
Proof.
  induction l as [|[k x] r IH]; [reflexivity|].
  simpl. rewrite IH.
  destruct (includes (keys b) k); simpl; [|reflexivity].
  destruct (isEqual x (get b k)); reflexivity.
Qed.

Lemma isEqual_items_loop b i l :
  (fix loop (i : nat) (l : list JValue) : bool :=
     match l with
     | [] => true
     | x :: r =>
         if negb (includes (keys b) (index_key i)) then false
         else if negb (isEqual x (get b (index_key i))) then false
         else loop (S i) r
     end) i l
  = forallb (fun kv => includes (keys b) (fst kv) && isEqual (snd kv) (get b (fst kv)))
            (indexed i l).
Proof.
  revert i. induction l as [|x r IH]; intros i; [reflexivity|].
  simpl. rewrite IH.
  destruct (includes (keys b) (index_key i)); simpl; [|reflexivity].
  destruct (isEqual x (get b (index_key i))); reflexivity.
Qed.

(** [isEqual] on two containers: as many keys, and every entry of the
    first has its key in the second with an equal value. *)
Lemma isEqual_containers a b :
  container a = true -> container b = true ->
  isEqual a b =
  Nat.eqb (length (entries a)) (length (keys b)) &&
  forallb (fun kv => includes (keys b) (fst kv) && isEqual (snd kv) (get b (fst kv)))
          (entries a).
Proof.
  intros Ha Hb.
  destruct a; try discriminate; destruct b; try discriminate;
    cbn [isEqual strict_eq is_nullish typeof orb negb String.eqb Ascii.eqb Bool.eqb
         entries length];
    try rewrite isEqual_fields_loop; try rewrite isEqual_items_loop;
    try rewrite length_indexed;
    destruct (Nat.eqb _ _); reflexivity.
Qed.

Lemma Forall_indexed (P : JValue -> Prop) i l :
  Forall P l -> Forall (fun kv => P (snd kv)) (indexed i l).
Proof.
  intros H. revert i.
  induction H as [|x r Hx Hr IH]; intros i; simpl; constructor; [exact Hx | apply IH].
Qed.

(** The induction hypothesis of [JValue_nested_ind], on the entries. *)
Lemma Forall_entries (P : JValue -> Prop) v :
  container v = true ->
  match v with
  | JArr items => Forall P items
  | JObj fields => Forall (fun kv => P (snd kv)) fields
  | _ => True
  end ->
  Forall (fun kv => P (snd kv)) (entries v).
Proof.
  destruct v; try discriminate; intros _ H; simpl.
  - constructor.
  - now apply Forall_indexed.
  - exact H.
Qed.

(** Two containers with as many keys, the keys of the first among those
    of the second: then the keys of the second are among those of the
    first, and the values under a key correspond. *)
Lemma containers_swap (R : JValue -> JValue -> Prop) a b :
  List.NoDup (keys a) -> List.NoDup (keys b) ->
  length (entries a) = length (keys b) ->
  (forall k x, In (k, x) (entries a) -> In k (keys b) /\ R x (get b k)) ->
  forall k y, In (k, y) (entries b) -> In k (keys a) /\ R (get a k) y.
Proof.
  intros Na Nb Hlen H k y Hin.
  assert (Hincl : incl (keys a) (keys b)).
  { intros k' Hk'. unfold keys in Hk'. apply in_map_iff in Hk'.
    destruct Hk' as [[k'' x] [Heq Hx]]. simpl in Heq. subst k''.
    now apply (H k' x). }
  assert (Hback : incl (keys b) (keys a)).
  { apply NoDup_length_incl; [exact Na | | exact Hincl].
    unfold keys at 2. rewrite length_map. lia. }
  assert (Hk : In k (keys a)).
  { apply Hback. unfold keys. change k with (fst (k, y)). now apply in_map. }
  split; [exact Hk|].
  unfold keys in Hk. apply in_map_iff in Hk. destruct Hk as [[k' x] [Heq Hx]].
  simpl in Heq. subst k'.
  rewrite (get_entry a k x Na Hx).
  destruct (H k x Hx) as [_ HR].
  now rewrite (get_entry b k y Nb Hin) in HR.
Qed.

Lemma isEqual_containers_true a b :
  container a = true -> container b = true ->
  isEqual a b = true <->
  length (entries a) = length (keys b) /\
  (forall k x, In (k, x) (entries a) ->
               In k (keys b) /\ isEqual x (get b k) = true).
Proof.
  intros Ha Hb. rewrite (isEqual_containers a b Ha Hb).
  rewrite andb_true_iff, Nat.eqb_eq, forallb_forall.
  split; intros [Hlen H]; split; try exact Hlen.
  - intros k x Hin. specialize (H (k, x) Hin). simpl in H.
    apply andb_true_iff in H. destruct H as [Hk Hx].
    split; [now apply includes_In | exact Hx].
  - intros [k x] Hin. simpl. destruct (H k x Hin) as [Hk Hx].
    apply andb_true_iff. split; [now apply includes_In | exact Hx].
Qed.

(** [isEqual(a, b)] is [isEqual(b, a)], for all values. *)
Lemma isEqual_sym a : forall b, wf a -> wf b -> isEqual a b = isEqual b a.
Proof.
  induction a as [a IH] using JValue_nested_ind. intros b Wa Wb.
  destruct (container a) eqn:Ca.
  2: { rewrite (isEqual_not_container_l a b Ca), (isEqual_not_container_r b a Ca).
       apply strict_eq_sym. }
  destruct (container b) eqn:Cb.
  2: { rewrite (isEqual_not_container_r a b Cb), (isEqual_not_container_l b a Cb).
       apply strict_eq_sym. }
  pose proof (Forall_entries _ a Ca IH) as IHe. clear IH.
  rewrite List.Forall_forall in IHe.
  pose proof (NoDup_keys a Wa) as Na. pose proof (NoDup_keys b Wb) as Nb.
  pose proof (wf_entries a Wa) as Wea. rewrite List.Forall_forall in Wea.
  pose proof (wf_entries b Wb) as Web. rewrite List.Forall_forall in Web.
  assert (Hget : forall k, In k (keys a) -> In (k, get a k) (entries a)).
  { intros k Hk. unfold keys in Hk. apply in_map_iff in Hk.
    destruct Hk as [[k' x] [Heq Hx]]. simpl in Heq. subst k'.
    now rewrite (get_entry a k x Na Hx). }
  apply Bool.eq_true_iff_eq.
  rewrite (isEqual_containers_true a b Ca Cb), (isEqual_containers_true b a Cb Ca).
  split; intros [Hlen H].
  - split; [unfold keys in *; rewrite length_map in *; lia|].
    intros k y Hin.
    destruct (containers_swap (fun x y => isEqual x y = true) a b Na Nb Hlen H k y Hin)
      as [Hk HR].
    split; [exact Hk|].
    pose proof (IHe (k, get a k) (Hget k Hk) y) as E. simpl in E.
    rewrite <- E; [exact HR | |].
    + apply (Wea (k, get a k)), Hget, Hk.
    + apply (Web (k, y) Hin).
  - split; [unfold keys in *; rewrite length_map in *; lia|].
    intros k x Hin.
    destruct (containers_swap (fun y x => isEqual y x = true) b a Nb Na Hlen H k x Hin)
      as [Hk HR].
    split; [exact Hk|].
    pose proof (IHe (k, x) Hin (get b k)) as E. simpl in E.
    rewrite E; [exact HR | |].
    + apply (Wea (k, x) Hin).
    + unfold keys in Hk. apply in_map_iff in Hk.
      destruct Hk as [[k' y] [Heq Hy]]. simpl in Heq. subst k'.
      rewrite (get_entry b k y Nb Hy). apply (Web (k, y) Hy).
Qed.

Lemma nan_free_entries v :
  nan_free v = true -> Forall (fun kv => nan_free (snd kv) = true) (entries v).
Proof.
  intros H. destruct v; simpl; try constructor.
  - unfold chars. generalize 0%nat.
    induction (list_ascii_of_string s) as [|c r IH]; intros i; simpl; constructor;
      [reflexivity | apply IH].
  - rewrite nan_free_items in H. rewrite forallb_forall in H.
    apply (Forall_indexed (fun x => nan_free x = true)), List.Forall_forall. exact H.
  - rewrite nan_free_fields in H. rewrite forallb_forall in H.
    apply List.Forall_forall. exact H.
Qed.

(** [isEqual] of a value without [NaN] and a separate copy of it is
    [true], as for one and the same object, where [a === a] answers. *)
Lemma isEqual_refl v : wf v -> nan_free v = true -> isEqual v v = true.
Proof.
  induction v as [v IH] using JValue_nested_ind. intros W F.
  destruct (container v) eqn:C.
  2: { rewrite (isEqual_not_container_l v v C).
       destruct v; try discriminate; simpl; try reflexivity.
       - now destruct b.
       - apply Z.eqb_refl.
       - apply String.eqb_refl. }
  pose proof (Forall_entries _ v C IH) as IHe. clear IH.
  rewrite List.Forall_forall in IHe.
  pose proof (NoDup_keys v W) as N.
  pose proof (wf_entries v W) as We. rewrite List.Forall_forall in We.
  pose proof (nan_free_entries v F) as Fe. rewrite List.Forall_forall in Fe.
  apply (isEqual_containers_true v v C C). split.
  - unfold keys. now rewrite length_map.
  - intros k x Hin. split.
    + unfold keys. change k with (fst (k, x)). now apply in_map.
    + rewrite (get_entry v k x N Hin).
      apply (IHe (k, x) Hin); [apply (We (k, x) Hin) | apply (Fe (k, x) Hin)].
Qed.

(** [isEqual(NaN, NaN)] is [false]: [NaN === NaN] is, and a number is
    not compared further. *)
Lemma isEqual_NaN : isEqual JNaN JNaN = false.
Proof. reflexivity. Qed.

(** A Date has no enumerable property of its own, and [isEqual] looks
    at nothing else: any two dates are equal. *)
Lemma isEqual_dates t1 t2 : isEqual (JDate t1) (JDate t2) = true.
Proof. reflexivity. Qed.

End DiffEngineFacts.

Section DiffEngineClaims.

Import DiffEngine.

Variable compare : JValue -> JValue -> Outcome (list Operation).

Lemma append_cons c a b : String c a +:+ b = String c (a +:+ b).
Proof. reflexivity. Qed.

Lemma prefix_append a b : String.prefix a (a +:+ b) = true.
Proof.
  induction a as [|c a IH].
  - now destruct b.
  - rewrite append_cons. simpl.
    destruct (ascii_dec c c) as [_|N]; [exact IH | now destruct N].
Qed.

Lemma append_empty a : a +:+ EmptyString = a.
Proof.
  induction a as [|c a IH]; [reflexivity|].
  rewrite append_cons. now rewrite IH.
Qed.

(** The path of an adjusted operation starts with the filter path. *)
Lemma adjust_prefix p o : String.prefix ("/" +:+ p) (path (adjust p o)) = true.
Proof.
  unfold adjust. simpl path.
  destruct (String.eqb (path o) EmptyString).
  - rewrite <- (append_empty ("/" +:+ p)) at 2. apply prefix_append.
  - change ("/" +:+ p +:+ path o) with (("/" +:+ p) +:+ path o).
    apply prefix_append.
Qed.

(** [generatePathPatch] reads its two states through [getPathValue] at
    the filter paths only. *)
Lemma generatePathPatch_agree paths previous1 current1 previous2 current2 :
  (forall p, In p paths ->
             getPathValue previous1 p = getPathValue previous2 p /\
             getPathValue current1 p = getPathValue current2 p) ->
  generatePathPatch compare previous1 current1 paths
  = generatePathPatch compare previous2 current2 paths.
Proof.
  induction paths as [|p rest IH]; intros H; [reflexivity|].
  simpl. destruct (H p (or_introl eq_refl)) as [Hp Hc].
  rewrite Hp, Hc, IH; [reflexivity|].
  intros q Hq. apply H. now right.
Qed.

(** Every operation of [generatePathPatch] is addressed below one of the
    filter paths. *)
Lemma generatePathPatch_scope paths previous current ops :
  generatePathPatch compare previous current paths = Returns ops ->
  Forall (fun o => exists p, In p paths /\ String.prefix ("/" +:+ p) (path o) = true) ops.
Proof.
  revert ops. induction paths as [|p rest IH]; intros ops H; simpl in H.
  - inversion H. constructor.
  - assert (Hrest : forall ops', generatePathPatch compare previous current rest = Returns ops' ->
              Forall (fun o => exists q, In q (p :: rest)
                                         /\ String.prefix ("/" +:+ q) (path o) = true) ops').
    { intros ops' H'. eapply List.Forall_impl; [|apply (IH ops' H')].
      intros o [q [Hq Hpre]]. exists q. split; [now right | exact Hpre]. }
    destruct (negb (isEqual (getPathValue previous p) (getPathValue current p))).
    + destruct (compare _ _) as [pathOperations|]; [|discriminate].
      destruct (generatePathPatch compare previous current rest) as [ops'|];
        [|discriminate].
      inversion H; subst. apply List.Forall_app. split.
      * apply List.Forall_forall. intros o Ho. apply in_map_iff in Ho.
        destruct Ho as [o' [Heq _]]. subst o. exists p. split; [now left|].
        apply adjust_prefix.
      * now apply Hrest.
    + now apply Hrest.
Qed.

End DiffEngineClaims.

(** C10, at an input where the code departs from it.  Two dates a day
    apart are equal for [isEqual], in either order: a Date has no
    enumerable property, and [isEqual] compares nothing else of an
    object.  [deepClone], next to it, does treat a Date as a Date.  As a
    consequence a filtered diff does not see a date change. *)
Theorem isEqual_takes_any_two_dates_for_equal :
  DiffEngine.isEqual (JDate 0) (JDate 86400000) = true
  /\ DiffEngine.isEqual (JDate 86400000) (JDate 0) = true
  /\ DiffEngine.deepClone (JDate 86400000) = JDate 86400000
  /\ DiffEngine.generatePathPatch FastJsonPatch.compare
       (JObj [("updatedAt", JDate 0)]) (JObj [("updatedAt", JDate 86400000)])
       ["updatedAt"] = Returns [].
Proof. repeat split. Qed.

(** ** The conflict engine *)

Section ConflictEngineClaims.

Import ConflictEngine.

(** The default policy in one equation. *)
Lemma resolveConflict_default local incoming :
  resolveConflict local incoming None None
  = if Z.ltb (timestamp local) (timestamp incoming) then KeepIncoming else KeepLocal.
Proof.
  unfold resolveConflict, lastWriteWinsResolver.
  rewrite Z.geb_leb.
  destruct (Z.leb_spec (timestamp incoming) (timestamp local)) as [H|H];
    destruct (Z.ltb_spec (timestamp local) (timestamp incoming)) as [H'|H'];
    try reflexivity; lia.
Qed.

(** C1.  With no resolver configured and none passed, [resolveConflict]
    returns the patch with the later timestamp and returns [local] when
    the timestamps are equal; for a local patch of timestamp 100 that
    writes [/x = 1] and an incoming patch of timestamp 200 that writes
    [/x = 2], whatever their other fields, it returns the incoming one. *)
Theorem resolveConflict_default_last_write_wins :
  forall local incoming : Patch,
    resolveConflict local incoming None None
    = (if Z.ltb (timestamp local) (timestamp incoming) then KeepIncoming else KeepLocal)
    /\ patch_of local incoming (resolveConflict local incoming None None)
       = (if Z.ltb (timestamp local) (timestamp incoming) then incoming else local)
    /\ (forall lid lsrc ltgt lv lm iid isrc itgt iv im,
           let l := mkPatch lid 100 lsrc ltgt
                            [mkOp "replace" "/x" (Some (JNum 1)) None] lv lm in
           let i := mkPatch iid 200 isrc itgt
                            [mkOp "replace" "/x" (Some (JNum 2)) None] iv im in
           patch_of l i (resolveConflict l i None None) = i).
Proof.
  intros local incoming.
  split; [apply resolveConflict_default|]. split.
  - rewrite resolveConflict_default.
    now destruct (Z.ltb (timestamp local) (timestamp incoming)).
  - intros. reflexivity.
Qed.







End ConflictEngineClaims.

(** ** The offline queue *)

Section OfflineQueueClaims.

Import OfflineQueue.

(** *** Sorting *)

Lemma insert_by_timestamp_perm p l : Permutation (p :: l) (insert_by_timestamp p l).
Proof.
  induction l as [|x r IH]; simpl; [reflexivity|].
  destruct (Z.leb (timestamp p) (timestamp x)); [reflexivity|].
  rewrite perm_swap. now apply perm_skip.
Qed.

Lemma sort_by_timestamp_perm l : Permutation l (sort_by_timestamp l).
Proof.
  induction l as [|x r IH]; simpl; [reflexivity|].
  rewrite <- insert_by_timestamp_perm. now apply perm_skip.
Qed.

Lemma insert_by_timestamp_sorted p l :
  StronglySorted older l -> StronglySorted older (insert_by_timestamp p l).
Proof.
  induction l as [|x r IH]; intros H; simpl.
  - constructor; constructor.
  - destruct (Z.leb_spec (timestamp p) (timestamp x)) as [Hle|Hgt].
    + constructor; [exact H|].
      inversion H as [|? ? Hr Hx]; subst.
      constructor; [exact Hle|].
      eapply List.Forall_impl; [|exact Hx].
      intros y Hy. unfold older in *. lia.
    + inversion H as [|? ? Hr Hx]; subst.
      constructor; [now apply IH|].
      apply List.Forall_forall. intros y Hy.
      apply (Permutation_in _ (Permutation_sym (insert_by_timestamp_perm p r))) in Hy.
      destruct Hy as [<- | Hy].
      * unfold older. lia.
      * rewrite List.Forall_forall in Hx. now apply Hx.
Qed.

(** The patches come out of the sort oldest first. *)
Lemma sort_by_timestamp_sorted l : StronglySorted older (sort_by_timestamp l).
Proof.
  induction l as [|x r IH]; simpl; [constructor|].
  now apply insert_by_timestamp_sorted.
Qed.

(** *** Removing by key *)

Lemma delete_all_filter ok l :
  fold_left (fun l p => delete (id p) l) ok l
  = List.filter (fun x => negb (includes (map id ok) (id x))) l.
Proof.
  revert l. induction ok as [|p ok IH]; intros l; simpl.
  - induction l as [|x r IHr]; [reflexivity|]. simpl. now rewrite <- IHr.
  - rewrite IH. unfold delete.
    induction l as [|x r IHr]; [reflexivity|].
    simpl.
    destruct (String.eqb (id x) (id p)); simpl.
    + exact IHr.
    + destruct (includes (map id ok) (id x)); simpl; [exact IHr | now rewrite IHr].
Qed.

(** *** The loop over the patches *)

Section Loop.

Variable World : Type.
Variable sendFunction : Patch -> Queue * World -> bool * (Queue * World).

(** [successfulPatches] collects the patches whose send resolved and
    [failedPatches] those whose send rejected, in order. *)
Lemma send_all_answers patches ok ko qw :
  fst (send_all World sendFunction patches ok ko qw)
  = (ok ++ resolved (answers World sendFunction patches qw),
     ko ++ rejected (answers World sendFunction patches qw)).
Proof.
  revert ok ko qw. induction patches as [|p rest IH]; intros ok ko qw; simpl.
  - unfold resolved, rejected. simpl. now rewrite !app_nil_r.
  - destruct (sendFunction p qw) as [[|] qw'] eqn:E; simpl; rewrite IH;
      unfold resolved, rejected; simpl; now rewrite <- !app_assoc.
Qed.

Lemma send_all_queue patches ok ko qw :
  (forall p qw, fst (snd (sendFunction p qw)) = fst qw) ->
  fst (snd (send_all World sendFunction patches ok ko qw)) = fst qw.
Proof.
  intros Frame. revert ok ko qw.
  induction patches as [|p rest IH]; intros ok ko qw; simpl; [reflexivity|].
  pose proof (Frame p qw) as F.
  destruct (sendFunction p qw) as [[|] qw'] eqn:E; simpl in *; rewrite IH; exact F.
Qed.

Lemma answers_patches patches qw :
  map fst (answers World sendFunction patches qw) = patches.
Proof.
  revert qw. induction patches as [|p rest IH]; intros qw; simpl; [reflexivity|].
  now rewrite IH.
Qed.

Lemma resolved_rejected_perm (l : list (Patch * bool)) :
  Permutation (resolved l ++ rejected l) (map fst l).
Proof.
  unfold resolved, rejected.
  induction l as [|[p b] r IH]; simpl; [reflexivity|].
  destruct b; simpl.
  - now apply perm_skip.
  - rewrite <- Permutation_middle. now apply perm_skip.
Qed.

Lemma In_resolved p l : In p (resolved l) <-> In (p, true) l.
Proof.
  unfold resolved. rewrite in_map_iff. split.
  - intros [[p' b] [E H]]. simpl in E. subst p'.
    apply filter_In in H. destruct H as [H Hb]. simpl in Hb. now subst b.
  - intros H. exists (p, true). split; [reflexivity|].
    apply filter_In. now split.
Qed.

Lemma In_rejected p l : In p (rejected l) <-> In (p, false) l.
Proof.
  unfold rejected. rewrite in_map_iff. split.
  - intros [[p' b] [E H]]. simpl in E. subst p'.
    apply filter_In in H. destruct H as [H Hb]. simpl in Hb.
    destruct b; [discriminate | exact H].
  - intros H. exists (p, false). split; [reflexivity|].
    apply filter_In. now split.
Qed.

End Loop.

Lemma NoDup_app_disjoint {A : Type} (l1 l2 : list A) a :
  List.NoDup (l1 ++ l2) -> In a l1 -> In a l2 -> False.
Proof.
  induction l1 as [|x r IH]; intros N H1 H2; [destruct H1|].
  simpl in N. inversion N as [|? ? Hx Hr]; subst.
  destruct H1 as [-> | H1].
  - apply Hx. apply in_or_app. now right.
  - now apply IH.
Qed.

Lemma filter_all {A : Type} (l : list A) : List.filter (fun _ => true) l = l.
Proof. induction l as [|x r IH]; [reflexivity|]. simpl. now rewrite IH. Qed.

(** What is left in the store after the successful patches are removed
    from it, if any. *)
Lemma getAll_after_remove q ok :
  storageAdapter q = None ->
  getAll (set_flag false (match ok with
                          | [] => set_flag true q
                          | _ :: _ => remove (set_flag true q) ok
                          end))
  = List.filter (fun x => negb (includes (map id ok) (id x))) (getAll q).
Proof.
  intros A. unfold getAll, remove, set_flag. destruct ok as [|p ok]; simpl.
  - rewrite A. simpl. now rewrite filter_all.
  - rewrite A. simpl.
    apply (delete_all_filter (p :: ok)).
Qed.

(** C7.  A flush of a queue on which none is running calls the send
    function on the queued patches in the order of their timestamps,
    oldest first.  The patches whose send resolved are no longer in the
    queue afterwards, and the patches whose send rejected, and only
    they, still are.  The entries of the store have distinct keys, and
    the send function leaves the queue alone. *)
Theorem flush_sends_oldest_first_and_keeps_failures :
  forall (World : Type)
         (sendFunction : Patch -> Queue * World -> bool * (Queue * World))
         (q : Queue) (w : World),
    flushInProgress q = false ->
    List.NoDup (map id (getAll q)) ->
    (forall p qw, fst (snd (sendFunction p qw)) = fst qw) ->
    let result := flush World sendFunction q w in
    let l := snd result in
    let q' := fst (fst result) in
    let outcome := answers World sendFunction (sent l) (set_flag true q, w) in
    sent l = sort_by_timestamp (getAll q)
    /\ StronglySorted older (sent l)
    /\ Permutation (sent l) (getAll q)
    /\ (forall p, In (p, true) outcome -> ~ In p (getAll q'))
    /\ (forall p, In (p, false) outcome -> In p (getAll q'))
    /\ (forall p, In p (getAll q') -> In (p, false) outcome)
    /\ flushInProgress q' = false.
Proof.
  intros World sendFunction q w Hflag Hnodup Frame.
  unfold flush. rewrite Hflag.
  change (getAll (set_flag true q)) with (getAll q).
  destruct (getAll q) as [|p0 rest] eqn:G.
  - cbv zeta. cbn [fst snd sent answers].
    change (getAll (set_flag false q)) with (getAll q). rewrite G.
    repeat split; try constructor; intros p H; destruct H.
  - assert (A : storageAdapter q = None).
    { unfold getAll in G. destruct (storageAdapter q); [discriminate | reflexivity]. }
    set (sorted := sort_by_timestamp (p0 :: rest)).
    pose proof (send_all_answers World sendFunction sorted [] [] (set_flag true q, w)) as Ea.
    pose proof (send_all_queue World sendFunction sorted [] [] (set_flag true q, w) Frame)
      as Eq.
    destruct (send_all World sendFunction sorted [] [] (set_flag true q, w))
      as [[ok ko] [q1 w']] eqn:E.
    simpl in Ea, Eq. subst q1.
    pose proof (f_equal fst Ea) as Eok. pose proof (f_equal snd Ea) as Eko.
    simpl in Eok, Eko. clear Ea.
    cbn [snd fst sent].
    set (outcome := answers World sendFunction sorted (set_flag true q, w)) in *.
    assert (Hperm : Permutation sorted (p0 :: rest)).
    { symmetry. apply sort_by_timestamp_perm. }
    assert (Hparts : Permutation (ok ++ ko) (p0 :: rest)).
    { rewrite <- Hperm, Eok, Eko.
      rewrite resolved_rejected_perm. unfold outcome.
      now rewrite answers_patches. }
    assert (Hids : List.NoDup (map id (ok ++ ko))).
    { apply (Permutation_NoDup (l := map id (p0 :: rest))); [|exact Hnodup].
      symmetry. now apply Permutation_map. }
    assert (Hleft : forall p,
               In p (getAll (set_flag false
                               (match ok with
                                | [] => set_flag true q
                                | _ :: _ => remove (set_flag true q) ok
                                end)))
               <-> In p ko).
    { intros p. rewrite (getAll_after_remove q ok A), G, filter_In.
      rewrite negb_true_iff, <- not_true_iff_false, includes_In.
      split.
      - intros [Hin Hid].
        apply (Permutation_in _ (Permutation_sym Hparts)) in Hin.
        apply in_app_or in Hin. destruct Hin as [Hin | Hin]; [|exact Hin].
        exfalso. apply Hid. now apply in_map.
      - intros Hin. split.
        + apply (Permutation_in _ Hparts). apply in_or_app. now right.
        + intros Hid. rewrite map_app in Hids.
          apply (NoDup_app_disjoint _ _ (id p) Hids Hid). now apply in_map. }
    split; [reflexivity|].
    split; [apply sort_by_timestamp_sorted|].
    split; [exact Hperm|].
    split; [|split; [|split]].
    + intros p Hin Hq. apply Hleft in Hq.
      apply In_resolved in Hin. rewrite <- Eok in Hin.
      rewrite map_app in Hids.
      apply (NoDup_app_disjoint _ _ (id p) Hids); now apply in_map.
    + intros p Hin. apply Hleft. rewrite Eko. now apply In_rejected.
    + intros p Hin. apply Hleft in Hin. rewrite Eko in Hin. now apply In_rejected.
    + destruct ok; reflexivity.
Qed.

Lemma flush_sends_oldest_first_and_keeps_failures_witness :
  flushInProgress two_queued = false
  /\ sent (snd (flush (list Patch) send_older_than_150 two_queued []))
     = [mkPatch "a" 100 "me" "doc" [] 1 None; mkPatch "b" 200 "me" "doc" [] 2 None]
  /\ getAll (fst (fst (flush (list Patch) send_older_than_150 two_queued [])))
     = [mkPatch "b" 200 "me" "doc" [] 2 None]
  /\ StronglySorted older
       (sent (snd (flush (list Patch) send_older_than_150 two_queued []))).
Proof.
  split; [reflexivity|]. split; [reflexivity|]. split; [reflexivity|].
  refine (proj1 (proj2 (flush_sends_oldest_first_and_keeps_failures
                          (list Patch) send_older_than_150 two_queued [] _ _ _))).
  - reflexivity.
  - simpl. repeat constructor; simpl; intuition discriminate.
  - intros p qw. reflexivity.
Defined.

End OfflineQueueClaims.

(** ** Calls of [flush] that overlap *)

Section FlushTasks.

Import OfflineQueue.

Lemma flushInProgress_enqueue q p : flushInProgress (enqueue q p) = flushInProgress q.
Proof. unfold enqueue. now destruct (storageAdapter q). Qed.

Lemma flushInProgress_remove q ok : flushInProgress (remove q ok) = flushInProgress q.
Proof. unfold remove. now destruct (storageAdapter q). Qed.

Lemma single_task {A : Type} (before after : list A) t t' :
  [t'] = before ++ t :: after -> before = [] /\ after = [] /\ t' = t.
Proof.
  destruct before as [|b before]; simpl; intros E.
  - inversion E. auto.
  - inversion E as [[Eb Er]]. destruct before; discriminate.
Qed.

Lemma one_flush_continue m before after t q next :
  one_flush m ->
  running m = before ++ t :: after ->
  flushInProgress q = flushInProgress (queue m) ->
  one_flush (continue m before after q next).
Proof.
  intros [[Hr _] | [t' [Hr Hf]]] E Hq.
  - rewrite Hr in E. destruct before; discriminate.
  - rewrite Hr in E. destruct (single_task before after t t' E) as [-> [-> _]].
    destruct next as [t''|]; simpl.
    + right. exists t''. split; [reflexivity|]. simpl. now rewrite Hq.
    + left. split; reflexivity.
Qed.

Lemma one_flush_step m m' : one_flush m -> step m m' -> one_flush m'.
Proof.
  intros I S. destruct S.
  - unfold call_flush. destruct I as [[Hr Hf] | [t [Hr Hf]]]; rewrite Hf.
    + right. exists AwaitGetAll. simpl. rewrite Hr. split; reflexivity.
    + right. exists t. simpl. split; assumption.
  - eapply one_flush_continue; eauto.
  - eapply one_flush_continue; eauto.
  - eapply one_flush_continue; eauto.
  - eapply one_flush_continue; eauto. apply flushInProgress_remove.
  - eapply one_flush_continue; eauto.
  - destruct I as [[Hr Hf] | [t [Hr Hf]]]; [left | right; exists t]; simpl;
      rewrite flushInProgress_enqueue; split; assumption.
Qed.

Lemma one_flush_reachable m : reachable m -> one_flush m.
Proof.
  induction 1 as [q Hq | m m' _ IH S].
  - left. split; [reflexivity | exact Hq].
  - eapply one_flush_step; eauto.
Qed.

(** C8.  In every state that calls of [flush] and [enqueue] and the
    settling of their promises can reach, at most one flush is running,
    and it is running exactly when the flag is up; a call of [flush]
    made while one is running starts no task, sends nothing, leaves the
    queue as it is and only warns. *)
Theorem flush_is_not_reentrant :
  forall m : Machine,
    reachable m ->
    (length (running m) <= 1)%nat
    /\ (flushInProgress (queue m) = true <-> running m <> [])
    /\ (running m <> [] ->
        call_flush m = mkMachine (queue m) (running m) (sends m) (S (warnings m))).
Proof.
  intros m R. destruct (one_flush_reachable m R) as [[Hr Hf] | [t [Hr Hf]]].
  - rewrite Hr, Hf. split; [simpl; lia|]. split.
    + split; [discriminate | intros H; now destruct H].
    + intros H. now destruct H.
  - rewrite Hr, Hf. split; [simpl; lia|]. split.
    + split; [discriminate | reflexivity].
    + intros _. unfold call_flush. now rewrite Hf, Hr.
Qed.

Lemma flush_is_not_reentrant_witness :
  reachable flushing
  /\ call_flush flushing
     = mkMachine (set_flag true two_queued) [AwaitGetAll] [] 1.
Proof.
  assert (R : reachable flushing).
  { apply (reachable_step (mkMachine two_queued [] [] 0)).
    - now apply reachable_start.
    - apply step_call. }
  split; [exact R|].
  refine (proj2 (proj2 (flush_is_not_reentrant flushing R)) _).
  discriminate.
Defined.

(** *** A flush on its own

    Run without other calls in between, the task of a flush ends, and
    the steps do what [flush] as a function does. *)

Lemma flush_task_runs oracle :
  forall rest p ok ko m,
    running m = [AwaitSend p rest ok ko] ->
    exists m',
      steps m m'
      /\ running m' = []
      /\ sends m' = sends m ++ rest
      /\ warnings m' = warnings m
      /\ queue m'
         = set_flag false
             (match fst (fst (send_all unit (oracle_send oracle) (p :: rest) ok ko
                                       (queue m, tt))) with
              | [] => queue m
              | (_ :: _) as l => remove (queue m) l
              end).
Proof.
  induction rest as [|next rest IH]; intros p ok ko m Hr.
  - cbn [send_all oracle_send fst]. destruct (oracle p) eqn:O; cbn [fst].
    + destruct (ok ++ [p]) as [|x l] eqn:E; [now destruct ok|].
      eexists. split.
      * eapply steps_more.
        -- apply (step_send_resolved m [] [] p [] ok ko Hr).
        -- rewrite E. cbn [after_send continue started app].
           eapply steps_more; [|apply steps_none].
           apply (step_remove_done _ [] [] (x :: l)). reflexivity.
      * cbn [continue running sends warnings queue app].
        rewrite app_nil_r. repeat split; reflexivity.
    + destruct ok as [|x l].
      * eexists. split.
        -- eapply steps_more; [|apply steps_none].
           apply (step_send_rejected m [] [] p [] [] ko Hr).
        -- cbn [after_send continue running sends warnings queue app].
           rewrite app_nil_r. repeat split; reflexivity.
      * eexists. split.
        -- eapply steps_more.
           ++ apply (step_send_rejected m [] [] p [] (x :: l) ko Hr).
           ++ cbn [after_send continue started app].
              eapply steps_more; [|apply steps_none].
              apply (step_remove_done _ [] [] (x :: l)). reflexivity.
        -- cbn [continue running sends warnings queue app].
           rewrite app_nil_r. repeat split; reflexivity.
  - assert (Hnext : forall ok1 ko1,
               exists m',
                 steps (continue m [] [] (queue m) (after_send (next :: rest) ok1 ko1)) m'
                 /\ running m' = []
                 /\ sends m' = sends m ++ next :: rest
                 /\ warnings m' = warnings m
                 /\ queue m'
                    = set_flag false
                        (match fst (fst (send_all unit (oracle_send oracle) (next :: rest)
                                                  ok1 ko1 (queue m, tt))) with
                         | [] => queue m
                         | (_ :: _) as l => remove (queue m) l
                         end)).
    { intros ok1 ko1. cbn [after_send continue started].
      destruct (IH next ok1 ko1
                   (mkMachine (queue m) ([] ++ AwaitSend next rest ok1 ko1 :: [])
                              (sends m ++ [next]) (warnings m)) eq_refl)
        as [m' [S [R [Hs [Hw Hq]]]]].
      exists m'. cbn [sends warnings queue] in *.
      rewrite <- app_assoc in Hs. repeat split; assumption. }
    change (send_all unit (oracle_send oracle) (p :: next :: rest) ok ko (queue m, tt))
      with (if oracle p
            then send_all unit (oracle_send oracle) (next :: rest) (ok ++ [p]) ko (queue m, tt)
            else send_all unit (oracle_send oracle) (next :: rest) ok (ko ++ [p]) (queue m, tt)).
    destruct (oracle p).
    + destruct (Hnext (ok ++ [p]) ko) as [m' [S H]].
      exists m'. split; [|exact H].
      eapply steps_more; [apply (step_send_resolved m [] [] p _ ok ko Hr) | exact S].
    + destruct (Hnext ok (ko ++ [p])) as [m' [S H]].
      exists m'. split; [|exact H].
      eapply steps_more; [apply (step_send_rejected m [] [] p _ ok ko Hr) | exact S].
Qed.

(** A call of [flush] on an idle queue runs to its end, and the queue
    and the sends are then those of [flush]. *)
Lemma flush_runs_to_completion oracle q :
  flushInProgress q = false ->
  exists m',
    steps (call_flush (mkMachine q [] [] 0)) m'
    /\ running m' = []
    /\ queue m' = fst (fst (flush unit (oracle_send oracle) q tt))
    /\ sends m' = sent (snd (flush unit (oracle_send oracle) q tt))
    /\ warnings m' = 0%nat.
Proof.
  intros Hq. unfold call_flush, flush. cbn [queue]. rewrite Hq.
  change (getAll (set_flag true q)) with (getAll q).
  set (m1 := mkMachine (set_flag true q) ([] ++ [AwaitGetAll]) [] 0).
  pose proof (step_getAll m1 [] [] eq_refl) as S1.
  cbn [queue m1] in S1. change (getAll (set_flag true q)) with (getAll q) in S1.
  destruct (getAll q) as [|p0 rest0] eqn:G.
  - eexists. split; [eapply steps_more; [exact S1 | apply steps_none]|].
    cbn. repeat split; reflexivity.
  - destruct (sort_by_timestamp (p0 :: rest0)) as [|p rest] eqn:E.
    { pose proof (sort_by_timestamp_perm (p0 :: rest0)) as P. rewrite E in P.
      apply Permutation_sym, Permutation_nil in P. discriminate. }
    cbn [continue started app] in S1.
    destruct (flush_task_runs oracle rest p [] []
                (mkMachine (set_flag true q) [AwaitSend p rest [] []] ([] ++ [p]) 0) eq_refl)
      as [m' [S [R [Hs [Hw Hqueue]]]]].
    cbn [queue sends warnings] in Hs, Hw, Hqueue.
    exists m'. split; [eapply steps_more; [exact S1 | exact S]|].
    pose proof (send_all_queue unit (oracle_send oracle) (p :: rest) [] []
                               (set_flag true q, tt) (fun _ _ => eq_refl)) as F.
    destruct (send_all unit (oracle_send oracle) (p :: rest) [] [] (set_flag true q, tt))
      as [[ok ko] [q1 u]].
    cbn [fst snd] in F, Hqueue |- *. subst q1.
    repeat split; try assumption.
    rewrite Hqueue. now destruct ok.
Qed.

End FlushTasks.

(** ** The watcher *)

Section WatcherClaims.

Import ConflictEngine.
Import Broadcaster.
Import Watcher.

Variable compare : JValue -> JValue -> Outcome (list Operation).
Variable applyPatch : JValue -> list Operation -> FastJsonPatch.ApplyResult.

(** The watcher has no record of a pending local patch: an incoming
    patch that passed the receive hooks is applied as the hooks left
    it, whatever the instance has sent or queued. *)
Lemma handlePatch_applies_unresolved w patch :
  String.eqb (source patch) (sourceId w) = false ->
  handlePatch applyPatch w patch
  = match processPlugins OnReceive (Some patch) w with
    | (Some processedPatch, w1) => applyPatch_ applyPatch w1 processedPatch
    | (None, w1) => w1
    end.
Proof.
  intros H. unfold handlePatch, getCurrentPatch. rewrite H.
  destruct (processPlugins OnReceive (Some patch) w) as [[p|] w1]; reflexivity.
Qed.

Lemma handlePatch_self w patch :
  source patch = sourceId w -> handlePatch applyPatch w patch = w.
Proof.
  intros H. unfold handlePatch. rewrite H. now rewrite String.eqb_refl.
Qed.

Lemma deliver_all {World : Type} (handler : BroadcastMessage -> World -> World)
      message n world :
  handler message world = world ->
  fold_left (fun w' h => h message w') (repeat handler n) world = world.
Proof.
  intros H. induction n as [|n IH]; [reflexivity|].
  simpl. now rewrite H.
Qed.

(** C9.  A patch whose source is the identifier of the instance that
    receives it is discarded by [handlePatch] before any hook is called,
    any conflict looked for and anything applied: the instance is left
    exactly as it was, whatever message brought the patch.  The
    broadcaster, for its part, passes no message of its own source to
    its handlers. *)
Theorem self_echo_is_discarded :
  forall (w : Watcher) (patch : Patch),
    source patch = sourceId w ->
    handlePatch applyPatch w patch = w
    /\ (forall message,
           msg_data message = PatchData patch ->
           receive applyPatch w message = w)
    /\ (forall (World : Type) (b : Broadcaster World) message world,
           msg_source message = Broadcaster.sourceId World b ->
           Broadcaster.handleMessage World b message world = world).
Proof.
  intros w patch H. split; [now apply handlePatch_self|]. split.
  - intros message D. unfold receive, Broadcaster.handleMessage.
    destruct (String.eqb (msg_source message) _); [reflexivity|].
    destruct (negb (isValidMessage message)); [reflexivity|].
    simpl. apply deliver_all. unfold handleMessage. rewrite D.
    destruct (String.eqb (msg_type message) "patch"); [|reflexivity].
    now apply handlePatch_self.
  - intros World b message world E. unfold Broadcaster.handleMessage.
    rewrite E. now rewrite String.eqb_refl.
Qed.

(** *** What [sync] emits *)

Lemma broadcastPatch_emits w p now :
  exists e, effects (broadcastPatch w p now) = effects w ++ [e]
            /\ emitted_patch e = Some p
            /\ instance_version (broadcastPatch w p now) = instance_version w.
Proof.
  unfold broadcastPatch, send. destruct (isConnected w); simpl.
  - destruct (broadcaster_connected w); simpl; eexists; repeat split; reflexivity.
  - eexists. repeat split; reflexivity.
Qed.

Lemma use_keeps w plugin :
  instance_id (use w plugin) = instance_id w
  /\ config (use w plugin) = config w
  /\ state (use w plugin) = state w
  /\ isWatching (use w plugin) = isWatching w
  /\ diffEngine (use w plugin) = diffEngine w
  /\ sourceId (use w plugin) = sourceId w
  /\ instance_version (use w plugin) = instance_version w.
Proof.
  unfold use. destruct (existsb _ _); simpl; repeat split; reflexivity.
Qed.

Lemma uses_keep l : forall w,
  instance_id (fold_left use l w) = instance_id w
  /\ config (fold_left use l w) = config w
  /\ state (fold_left use l w) = state w
  /\ isWatching (fold_left use l w) = isWatching w
  /\ diffEngine (fold_left use l w) = diffEngine w
  /\ sourceId (fold_left use l w) = sourceId w
  /\ instance_version (fold_left use l w) = instance_version w.
Proof.
  induction l as [|plugin l IH]; intros w; simpl; [repeat split; reflexivity|].
  destruct (IH (use w plugin)) as [A [B [C [D [E [F G]]]]]].
  destruct (use_keeps w plugin) as [A' [B' [C' [D' [E' [F' G']]]]]].
  repeat split; congruence.
Qed.

(** What [watch] leaves in the fields that [sync] reads. *)
Lemma watch_fields w st cfg :
  instance_id (watch w st cfg) = config_id cfg
  /\ config (watch w st cfg) = cfg
  /\ isWatching (watch w st cfg) = true
  /\ diffEngine (watch w st cfg) = DiffEngine.mkEngine (DiffEngine.deepClone st)
  /\ sourceId (watch w st cfg) = sourceId w
  /\ instance_version (watch w st cfg) = instance_version w.
Proof.
  unfold watch. simpl.
  match goal with
  | |- context [fold_left use ?l ?w0] =>
      destruct (uses_keep l w0) as [A [B [C [D [E [F G]]]]]]
  end.
  simpl in *. repeat split; try assumption; reflexivity.
Qed.

Lemma strict_eq_null v : v <> JNull -> strict_eq v JNull = false.
Proof. destruct v; intros H; try reflexivity. now destruct H. Qed.

(** C5, as the code has it.  While the diff engine holds no snapshot,
    [generatePatch] takes the current value as the baseline and reports
    no operations and no changes, and a [sync] emits nothing.  [watch]
    itself takes the snapshot, so that the first [sync] after [watch]
    of an object compares the object with what it was at [watch]: it
    emits nothing when that diff is empty, and one patch carrying the
    diff when it is not. *)
Theorem cold_start_and_first_sync :
  (forall e current filter,
      DiffEngine.previousState e = JNull ->
      DiffEngine.generatePatch compare e current filter
      = (DiffEngine.mkEngine (DiffEngine.deepClone current), Returns (mkDiff [] false)))
  /\ (forall w uuid now,
         DiffEngine.previousState (diffEngine w) = JNull ->
         effects (sync compare w uuid now) = effects w
         /\ offlineQueue (sync compare w uuid now) = offlineQueue w
         /\ instance_version (sync compare w uuid now) = instance_version w)
  /\ (forall w st cfg current uuid now ops,
         st <> JNull ->
         DiffEngine.changed_operations compare st current (paths cfg) = Returns ops ->
         let w1 := set_state current (watch w st cfg) in
         let w2 := sync compare w1 uuid now in
         (ops = [] -> effects w2 = effects w1)
         /\ (ops <> [] ->
             exists e,
               effects w2 = effects w1 ++ [e]
               /\ emitted_patch e
                  = Some (mkPatch uuid now (sourceId w) (config_id cfg) ops
                                  (instance_version w + 1) None))).
Proof.
  split; [|split].
  - intros e current filter H. unfold DiffEngine.generatePatch. now rewrite H.
  - intros w uuid now H. unfold sync, DiffEngine.generatePatch. rewrite H. simpl.
    destruct (isWatching w); simpl; repeat split; reflexivity.
  - intros w st cfg current uuid now ops Hst Hops w1 w2.
    destruct (watch_fields w st cfg) as [Hid [Hcfg [Hw [Hde [Hsrc Hv]]]]].
    assert (E : w2 =
                let w1' := set_diffEngine
                             (DiffEngine.mkEngine (DiffEngine.deepClone current)) w1 in
                if Nat.ltb 0 (length ops)
                then broadcastPatch
                       (set_version (instance_version w + 1) w1')
                       (mkPatch uuid now (sourceId w) (config_id cfg) ops
                                (instance_version w + 1) None) now
                else w1').
    { unfold w2, sync, w1. cbn [isWatching set_state diffEngine state config
                                sourceId instance_id instance_version].
      rewrite Hw, Hde, Hcfg, Hsrc, Hid, Hv. cbn [negb].
      unfold DiffEngine.generatePatch. cbn [DiffEngine.previousState].
      rewrite deepClone_id, (strict_eq_null st Hst), Hops.
      cbn [hasChanges diff_operations]. reflexivity. }
    split.
    + intros ->. rewrite E. reflexivity.
    + intros Hne. rewrite E. cbv zeta.
      destruct ops as [|o ops']; [now destruct Hne|]. cbn [length Nat.ltb Nat.leb].
      match goal with
      | |- context [broadcastPatch ?w0 ?p ?t] =>
          destruct (broadcastPatch_emits w0 p t) as [e [He [Hp _]]]
      end.
      exists e. split; [exact He | exact Hp].
Qed.

(** C6.  Under a path filter that lists at least one path, take two
    runs of the diff whose snapshots agree at every path of the filter
    and whose current states do too, with a snapshot present in both or
    in neither: they yield the same result, every operation is
    addressed below a path of the filter, and [sync] has the same
    effects in both.  What lies outside the filter is not read. *)
Theorem path_filter_is_a_boundary :
  forall (filter : list string) (previous1 current1 previous2 current2 : JValue),
    filter <> [] ->
    (forall p, In p filter ->
               DiffEngine.getPathValue previous1 p = DiffEngine.getPathValue previous2 p
               /\ DiffEngine.getPathValue current1 p = DiffEngine.getPathValue current2 p) ->
    strict_eq previous1 JNull = strict_eq previous2 JNull ->
    snd (DiffEngine.generatePatch compare (DiffEngine.mkEngine previous1) current1
                                  (Some filter))
    = snd (DiffEngine.generatePatch compare (DiffEngine.mkEngine previous2) current2
                                    (Some filter))
    /\ (forall ops,
           DiffEngine.generatePathPatch compare previous1 current1 filter = Returns ops ->
           Forall (fun o => exists p, In p filter
                                      /\ String.prefix ("/" +:+ p) (path o) = true) ops)
    /\ (forall w uuid now,
           paths (config w) = Some filter ->
           let w1 := set_state current1 (set_diffEngine (DiffEngine.mkEngine previous1) w) in
           let w2 := set_state current2 (set_diffEngine (DiffEngine.mkEngine previous2) w) in
           effects (sync compare w1 uuid now) = effects (sync compare w2 uuid now)
           /\ offlineQueue (sync compare w1 uuid now) = offlineQueue (sync compare w2 uuid now)
           /\ instance_version (sync compare w1 uuid now)
              = instance_version (sync compare w2 uuid now)).
Proof.
  intros filter previous1 current1 previous2 current2 Hne Hagree Hnull.
  assert (Hsame : snd (DiffEngine.generatePatch compare (DiffEngine.mkEngine previous1)
                                                current1 (Some filter))
                  = snd (DiffEngine.generatePatch compare (DiffEngine.mkEngine previous2)
                                                  current2 (Some filter))).
  { unfold DiffEngine.generatePatch. cbn [DiffEngine.previousState].
    rewrite <- Hnull. destruct (strict_eq previous1 JNull); [reflexivity|].
    destruct filter as [|p ps]; [now destruct Hne|].
    unfold DiffEngine.changed_operations.
    rewrite (generatePathPatch_agree compare (p :: ps) previous1 current1
                                     previous2 current2 Hagree).
    destruct (DiffEngine.generatePathPatch compare previous2 current2 (p :: ps));
      reflexivity. }
  split; [exact Hsame|]. split.
  - intros ops. apply generatePathPatch_scope.
  - intros w uuid now Hp w1 w2. unfold w1, w2, sync.
    cbn [isWatching set_state set_diffEngine diffEngine state config
         sourceId instance_id instance_version].
    rewrite Hp.
    destruct (isWatching w); cbn [negb]; [|repeat split; reflexivity].
    destruct (DiffEngine.generatePatch compare (DiffEngine.mkEngine previous1)
                                       current1 (Some filter)) as [e1 r1].
    destruct (DiffEngine.generatePatch compare (DiffEngine.mkEngine previous2)
                                       current2 (Some filter)) as [e2 r2].
    simpl in Hsame. subst r2.
    destruct r1 as [d|]; [|repeat split; reflexivity].
    destruct (hasChanges d); [|repeat split; reflexivity].
    unfold broadcastPatch, send.
    cbn [isConnected set_version set_state set_diffEngine broadcaster_connected
         Broadcaster._isConnected sourceId].
    destruct (isConnected w); cbn [negb];
      [destruct (broadcaster_connected w); cbn [negb]|]; repeat split; reflexivity.
Qed.

End WatcherClaims.

Section WatcherRuns.

Import ConflictEngine.
Import Broadcaster.
Import Watcher.

Lemma self_echo_is_discarded_witness :
  source (mkPatch "p" 5 "tab-A" "doc" (set_x 7) 1 None) = sourceId tab_A
  /\ handlePatch FastJsonPatch.applyPatch tab_A
                 (mkPatch "p" 5 "tab-A" "doc" (set_x 7) 1 None) = tab_A.
Proof.
  split; [reflexivity|].
  refine (proj1 (self_echo_is_discarded FastJsonPatch.applyPatch tab_A
                   (mkPatch "p" 5 "tab-A" "doc" (set_x 7) 1 None) _)).
  reflexivity.
Defined.




(** *** Operation sets that fail *)








(** *** The first [sync] after [watch] *)

(** The claim C5 fails here: the caller assigns [x = 5] after [watch]
    and calls [sync] for the first time; the patch of the assignment is
    emitted, to the queue before the transport has connected and to the
    channel after. *)
Lemma first_sync_after_watch_emits :
  effects (sync FastJsonPatch.compare (set_state (JObj [("x", JNum 5)]) tab_A) "p" 300)
  = effects tab_A
    ++ [Enqueued (mkPatch "p" 300 "tab-A" "doc"
                          [mkOp "replace" "/x" (Some (JNum 5)) None] 1 None)]
  /\ effects (sync FastJsonPatch.compare
                   (set_state (JObj [("x", JNum 5)]) (connected tab_A 250)) "p" 300)
     = effects (connected tab_A 250)
       ++ [Posted (mkMessage "patch"
                     (PatchData (mkPatch "p" 300 "tab-A" "doc"
                                   [mkOp "replace" "/x" (Some (JNum 5)) None] 1 None))
                     "tab-A" 300)].
Proof. split; vm_compute; reflexivity. Qed.

Lemma cold_start_and_first_sync_witness :
  JObj [("x", JNum 0)] <> JNull
  /\ exists e,
       effects (sync FastJsonPatch.compare (set_state (JObj [("x", JNum 5)]) tab_A) "p" 300)
       = effects (set_state (JObj [("x", JNum 5)]) tab_A) ++ [e]
       /\ emitted_patch e
          = Some (mkPatch "p" 300 "tab-A" "doc"
                          [mkOp "replace" "/x" (Some (JNum 5)) None] 1 None).
Proof.
  split; [discriminate|].
  refine (proj2 (proj2 (proj2 (cold_start_and_first_sync FastJsonPatch.compare))
                   (create "tab-A") (JObj [("x", JNum 0)]) (mkConfig "doc" None None [])
                   (JObj [("x", JNum 5)]) "p" 300
                   [mkOp "replace" "/x" (Some (JNum 5)) None] _ _) _);
    [discriminate | reflexivity | discriminate].
Defined.

(** *** The path filter *)

Lemma path_filter_is_a_boundary_witness :
  ["name"] <> []
  /\ snd (DiffEngine.generatePatch FastJsonPatch.compare
            (DiffEngine.mkEngine (profile "John" 1)) (profile "Jane" 2) (Some ["name"]))
     = snd (DiffEngine.generatePatch FastJsonPatch.compare
              (DiffEngine.mkEngine (profile "John" 3)) (profile "Jane" 4) (Some ["name"])).
Proof.
  split; [discriminate|].
  refine (proj1 (path_filter_is_a_boundary FastJsonPatch.compare ["name"]
                   (profile "John" 1) (profile "Jane" 2)
                   (profile "John" 3) (profile "Jane" 4) _ _ _)).
  - discriminate.
  - intros p [<- | []]. split; reflexivity.
  - reflexivity.
Defined.

(** *** Conflicts *)

(** C2, at an input where the code departs from it.  The instance is
    connected, writes [/x = 1] at time 200 and posts the patch.  A
    message then brings a patch of another instance that wrote [/x = 2]
    at time 100, before it could see the local one.  The two patches
    conflict, and the default policy keeps the local one; yet the inbound
    handler applies the incoming patch as it is and emits no [conflict]
    event: the watched object holds [x = 2]. *)
Theorem pending_local_patch_is_not_consulted :
  let w := update FastJsonPatch.applyPatch (connected tab_A 150) "local-1" 200 (set_x 1) in
  let w' := receive FastJsonPatch.applyPatch w
                    (mkMessage "patch" (PatchData older_incoming) "tab-B" 210) in
  state w = JObj [("x", JNum 1)]
  /\ In (Posted (mkMessage "patch" (PatchData pending_local) "tab-A" 200)) (effects w)
  /\ hasConflicts pending_local older_incoming = true
  /\ patch_of pending_local older_incoming
              (resolveConflict pending_local older_incoming
                               (conflictResolver (config w)) None) = pending_local
  /\ state w' = JObj [("x", JNum 2)]
  /\ effects w'
     = effects w ++ [Emit "sync" (PatchApplied older_incoming (JObj [("x", JNum 2)]))].
Proof.
  cbv zeta. repeat split; try (vm_compute; reflexivity).
  vm_compute. repeat (first [left; reflexivity | right]).
Qed.

End WatcherRuns.

(** ** Runs of the scenarios *)

Section Scenarios.

Import ConflictEngine.
Import Broadcaster.
Import Watcher.

Example isEqual_nested :
  DiffEngine.isEqual (JObj [("a", JArr [JNum 1; JStr "x"]); ("b", JNull)])
                     (JObj [("b", JNull); ("a", JArr [JNum 1; JStr "x"])]) = true.
Proof. vm_compute. reflexivity. Qed.

Example isEqual_array_length :
  DiffEngine.isEqual (JArr [JNum 1; JNum 2]) (JArr [JNum 1]) = false.
Proof. vm_compute. reflexivity. Qed.

Example getPathValue_nested :
  DiffEngine.getPathValue (JObj [("user", JObj [("name", JStr "John")])]) "user.name"
  = JStr "John".
Proof. vm_compute. reflexivity. Qed.

Example getPathValue_missing :
  DiffEngine.getPathValue (JObj [("user", JNull)]) "user.name" = JUndefined.
Proof. vm_compute. reflexivity. Qed.

Example compare_replace :
  FastJsonPatch.compare (JObj [("name", JStr "John")]) (JObj [("name", JStr "Jane")])
  = Returns [mkOp "replace" "/name" (Some (JStr "Jane")) None].
Proof. vm_compute. reflexivity. Qed.

Example compare_nested :
  FastJsonPatch.compare
    (JObj [("a", JObj [("b", JNum 1); ("c", JNum 2)]); ("l", JArr [JNum 1; JNum 2])])
    (JObj [("a", JObj [("b", JNum 1); ("d", JNum 3)]); ("l", JArr [JNum 1])])
  = Returns [mkOp "remove" "/l/1" None None;
             mkOp "remove" "/a/c" None None;
             mkOp "add" "/a/d" (Some (JNum 3)) None].
Proof. vm_compute. reflexivity. Qed.

Example applyPatch_array :
  FastJsonPatch.applyPatch
    (JObj [("l", JArr [JNum 1; JNum 2])])
    [mkOp "add" "/l/-" (Some (JNum 3)) None; mkOp "remove" "/l/0" None None]
  = FastJsonPatch.mkApply (JObj [("l", JArr [JNum 2; JNum 3])])
                          (Returns (JObj [("l", JArr [JNum 2; JNum 3])])).
Proof. vm_compute. reflexivity. Qed.

(** Scenario A: [update] of [{name: "John"}] with one replace emits a
    patch with that operation and the version after the instance's. *)
Example scenario_A :
  let w := watch (create "tab-A") (JObj [("name", JStr "John")])
                 (mkConfig "user" None None []) in
  let ops := [mkOp "replace" "/name" (Some (JStr "Jane")) None] in
  let w' := update FastJsonPatch.applyPatch w "p" 10 ops in
  state w' = JObj [("name", JStr "Jane")]
  /\ instance_version w' = instance_version w + 1
  /\ map operations (OfflineQueue.getAll (offlineQueue w')) = [ops]
  /\ map version (OfflineQueue.getAll (offlineQueue w')) = [1].
Proof. cbv zeta. repeat split; vm_compute; reflexivity. Qed.

(** Scenario C: a patch made while the transport had not connected is
    queued, and posted when the connection completes; the queue is then
    empty. *)
Example scenario_C :
  let w := update FastJsonPatch.applyPatch tab_A "local-1" 200 (set_x 1) in
  let w' := connected w 250 in
  OfflineQueue.getAll (offlineQueue w) = [pending_local]
  /\ OfflineQueue.getAll (offlineQueue w') = []
  /\ map emitted_patch (skipn (length (effects w) + 1) (effects w')) = [Some pending_local].
Proof. cbv zeta. repeat split; vm_compute; reflexivity. Qed.

(** Scenario D: two patches for different paths under the path-based
    policy. *)
Example scenario_D :
  let a := mkPatch "a" 1 "A" "doc" [mkOp "replace" "/a" (Some (JNum 1)) None] 1 None in
  let b := mkPatch "b" 2 "B" "doc" [mkOp "replace" "/b" (Some (JNum 2)) None] 4 None in
  let r := patch_of a b (pathBasedResolver a b) in
  operations r = operations a ++ operations b
  /\ id r = "a-b-merged"
  /\ version r = 5.
Proof. cbv zeta. repeat split. Qed.

(** A filtered diff of a changed field: the operation is addressed below
    the filter path. *)
Example filtered_diff :
  DiffEngine.generatePathPatch FastJsonPatch.compare
    (profile "John" 1) (profile "Jane" 2) ["name"]
  = Returns [mkOp "replace" "/name/name" (Some (JStr "Jane")) None].
Proof. vm_compute. reflexivity. Qed.

End Scenarios.

(* ===================================================================== *)
(** * Further properties of the code *)
(* ===================================================================== *)

(** ** More of the diff engine *)

Section DiffEngineMore.

Import DiffEngine.

(** *** Paths *)

Lemma split_on_nonempty c s : split_on c s <> [].
Proof.
  destruct s as [|a r]; simpl; [discriminate|].
  destruct (Ascii.eqb a c); [discriminate|].
  destruct (split_on c r); discriminate.
Qed.

(** [(p + c + q).split(c)] is [p.split(c)] followed by [q.split(c)]. *)
Lemma split_on_append c p q :
  split_on c (p +:+ String c q) = split_on c p ++ split_on c q.
Proof.
  induction p as [|a r IH].
  - change (EmptyString +:+ String c q) with (String c q).
    simpl. now rewrite Ascii.eqb_refl.
  - rewrite append_cons. simpl. rewrite IH.
    destruct (Ascii.eqb a c); [reflexivity|].
    destruct (split_on c r) as [|w ws] eqn:E; [now destruct (split_on_nonempty c r)|].
    reflexivity.
Qed.

Lemma getPathValue_fold obj path :
  getPathValue obj path = fold_left descend (split_on "." path) obj.
Proof. reflexivity. Qed.

Lemma getPathValue_append obj p q :
  getPathValue obj (p +:+ "." +:+ q) = getPathValue (getPathValue obj p) q.
Proof.
  rewrite !getPathValue_fold.
  change ("." +:+ q) with (String "." q).
  now rewrite split_on_append, fold_left_app.
Qed.

Lemma descend_undefined l : fold_left descend l JUndefined = JUndefined.
Proof. induction l as [|k r IH]; [reflexivity | exact IH]. Qed.

(** X1.  Reading a dotted path is reading its first part and then the
    rest from what was found there:
    [getPathValue(obj, p + '.' + q)] is
    [getPathValue(getPathValue(obj, p), q)].  Hence a path exists, for
    [hasPath], only where the paths that lead to it exist. *)
Theorem getPathValue_descends :
  forall (obj : JValue) (p q : string),
    getPathValue obj (p +:+ "." +:+ q) = getPathValue (getPathValue obj p) q
    /\ (hasPath obj (p +:+ "." +:+ q) = true -> hasPath obj p = true).
Proof.
  intros obj p q. split; [apply getPathValue_append|].
  unfold hasPath. rewrite getPathValue_append.
  destruct (strict_eq (getPathValue obj p) JUndefined) eqn:E; [|reflexivity].
  apply strict_eq_true in E. rewrite E.
  rewrite getPathValue_fold, descend_undefined. discriminate.
Qed.

(** *** Equality *)

Lemma get_wf v k : wf v -> wf (get v k).
Proof.
  intros W. unfold get. destruct (assoc k (entries v)) as [x|] eqn:E.
  - pose proof (wf_entries v W) as We. rewrite List.Forall_forall in We.
    assert (Hin : In (k, x) (entries v)).
    { clear We. induction (entries v) as [|[k' y] r IH]; [discriminate|].
      simpl in E. destruct (String.eqb k' k) eqn:Ek.
      - apply String.eqb_eq in Ek. inversion E; subst. now left.
      - right. now apply IH. }
    apply (We (k, x) Hin).
  - destruct v; try exact I; destruct (String.eqb k "length"); exact I.
Qed.

Lemma get_nan_free v k : nan_free v = true -> nan_free (get v k) = true.
Proof.
  intros F. unfold get. destruct (assoc k (entries v)) as [x|] eqn:E.
  - pose proof (nan_free_entries v F) as Fe. rewrite List.Forall_forall in Fe.
    assert (Hin : In (k, x) (entries v)).
    { clear Fe. induction (entries v) as [|[k' y] r IH]; [discriminate|].
      simpl in E. destruct (String.eqb k' k) eqn:Ek.
      - apply String.eqb_eq in Ek. inversion E; subst. now left.
      - right. now apply IH. }
    apply (Fe (k, x) Hin).
  - destruct v; try reflexivity; destruct (String.eqb k "length"); reflexivity.
Qed.

Lemma getPathValue_wf obj path : wf obj -> wf (getPathValue obj path).
Proof.
  rewrite getPathValue_fold. generalize (split_on "." path). intros l. revert obj.
  induction l as [|k r IH]; intros obj W; [exact W|].
  simpl. apply IH. unfold descend.
  destruct (truthy obj && negb (strict_eq (get obj k) JUndefined)); [|exact I].
  now apply get_wf.
Qed.

Lemma getPathValue_nan_free obj path :
  nan_free obj = true -> nan_free (getPathValue obj path) = true.
Proof.
  rewrite getPathValue_fold. generalize (split_on "." path). intros l. revert obj.
  induction l as [|k r IH]; intros obj F; [exact F|].
  simpl. apply IH. unfold descend.
  destruct (truthy obj && negb (strict_eq (get obj k) JUndefined)); [|reflexivity].
  now apply get_nan_free.
Qed.

(** A container with [NaN] somewhere differs from its copy. *)
Lemma isEqual_copy v : wf v -> isEqual v v = nan_free v.
Proof.
  induction v as [v IH] using JValue_nested_ind. intros W.
  destruct (container v) eqn:C.
  2: { rewrite (isEqual_not_container_l v v C).
       destruct v; try discriminate; simpl; try reflexivity.
       - now destruct b.
       - apply Z.eqb_refl.
       - apply String.eqb_refl. }
  destruct (nan_free v) eqn:F; [now apply isEqual_refl|].
  pose proof (Forall_entries _ v C IH) as IHe. clear IH.
  rewrite List.Forall_forall in IHe.
  pose proof (NoDup_keys v W) as N.
  pose proof (wf_entries v W) as We. rewrite List.Forall_forall in We.
  apply not_true_is_false. intros E.
  apply (isEqual_containers_true v v C C) in E. destruct E as [_ E].
  assert (Hall : forall kv, In kv (entries v) -> nan_free (snd kv) = true).
  { intros [k x] Hin. simpl. destruct (E k x Hin) as [_ Ex].
    rewrite (get_entry v k x N Hin) in Ex.
    pose proof (IHe (k, x) Hin (We (k, x) Hin)) as Ek. simpl in Ek.
    now rewrite <- Ek. }
  assert (Hv : nan_free v = true).
  { destruct v; try discriminate; try reflexivity.
    - rewrite nan_free_items. apply forallb_forall. intros x Hx.
      simpl in Hall.
      assert (Hk : exists k, In (k, x) (indexed 0 items)).
      { clear -Hx. generalize 0%nat. induction items as [|y r IHr]; [destruct Hx|].
        intros i. destruct Hx as [-> | Hx].
        - exists (index_key i). now left.
        - destruct (IHr Hx (S i)) as [k Hk]. exists k. now right. }
      destruct Hk as [k Hk]. apply (Hall (k, x) Hk).
    - rewrite nan_free_fields. apply forallb_forall. exact Hall. }
  congruence.
Qed.

(** X2.  A value and its deep copy, which is what [generatePatch] keeps
    as the previous state, are equal for [isEqual] exactly when the value
    holds no [NaN]. *)
Theorem isEqual_of_a_copy :
  forall v : JValue, wf v -> isEqual v (deepClone v) = nan_free v.
Proof. intros v W. rewrite deepClone_id. now apply isEqual_copy. Qed.

Lemma isEqual_of_a_copy_witness :
  isEqual (JObj [("n", JArr [JNum 1; JNaN])]) (deepClone (JObj [("n", JArr [JNum 1; JNaN])]))
  = false.
Proof.
  apply (isEqual_of_a_copy (JObj [("n", JArr [JNum 1; JNaN])])).
  simpl. repeat split. repeat constructor. simpl. intuition.
Defined.

(** X3.  [isEqual] looks at keys and values only: an array and the
    object that has its indices for keys and its items for values are
    equal. *)
Theorem isEqual_array_and_object_of_its_items :
  forall items : list JValue,
    wf (JArr items) -> nan_free (JArr items) = true ->
    isEqual (JArr items) (JObj (indexed 0 items)) = true.
Proof.
  intros items W F.
  pose proof (wf_entries _ W) as We. rewrite List.Forall_forall in We.
  pose proof (nan_free_entries _ F) as Fe. rewrite List.Forall_forall in Fe.
  apply (isEqual_containers_true (JArr items) (JObj (indexed 0 items)) eq_refl eq_refl).
  split.
  - unfold keys. simpl. now rewrite length_map.
  - intros k x Hin. simpl in Hin. split.
    + unfold keys. simpl. change k with (fst (k, x)). now apply in_map.
    + rewrite (get_entry (JObj (indexed 0 items)) k x).
      * apply isEqual_refl; [apply (We (k, x) Hin) | apply (Fe (k, x) Hin)].
      * unfold keys. simpl. apply NoDup_keys_indexed.
      * exact Hin.
Qed.

Lemma isEqual_array_and_object_of_its_items_witness :
  isEqual (JArr [JStr "a"; JStr "b"]) (JObj [("0", JStr "a"); ("1", JStr "b")]) = true.
Proof.
  apply (isEqual_array_and_object_of_its_items [JStr "a"; JStr "b"]).
  - simpl. tauto.
  - reflexivity.
Defined.

(** *** Diffs under a filter *)

Lemma generatePathPatch_same compare s paths :
  wf s -> nan_free s = true -> generatePathPatch compare s s paths = Returns [].
Proof.
  intros W F. induction paths as [|p rest IH]; [reflexivity|].
  simpl. rewrite isEqual_refl; [exact IH | now apply getPathValue_wf |
                                 now apply getPathValue_nan_free].
Qed.

(** X4.  With a filter, the diff of a state without [NaN] against its
    own snapshot is empty, and [jsonpatch.compare] is not consulted for
    it: whatever [compare] would answer, were it to throw, the result is
    no operation and no change. *)
Theorem filtered_diff_of_unchanged_state :
  forall (compare : JValue -> JValue -> Outcome (list Operation))
         (e : Engine) (s : JValue) (p : string) (ps : list string),
    wf s -> nan_free s = true ->
    generatePatch compare (setInitialState e s) s (Some (p :: ps))
    = (setInitialState e s, Returns (mkDiff [] false)).
Proof.
  intros compare e s p ps W F.
  unfold generatePatch, setInitialState. cbn [previousState].
  rewrite deepClone_id.
  destruct (strict_eq s JNull) eqn:N; [reflexivity|].
  unfold changed_operations.
  now rewrite (generatePathPatch_same compare s (p :: ps) W F).
Qed.

Lemma filtered_diff_of_unchanged_state_witness :
  generatePatch (fun _ _ => Throws) (setInitialState initial (profile "Ada" 7))
                (profile "Ada" 7) (Some ["name"; "secret"])
  = (setInitialState initial (profile "Ada" 7), Returns (mkDiff [] false)).
Proof.
  apply filtered_diff_of_unchanged_state.
  - simpl. repeat split. repeat constructor; simpl; intuition discriminate.
  - reflexivity.
Defined.

End DiffEngineMore.

Section AllPaths.

Import DiffEngine.

(** *** The keys of an array are plain *)

Lemma pretty_N_char_dot_free x : Ascii.eqb (pretty_N_char x) "." = false.
Proof. unfold pretty_N_char. repeat case_match; reflexivity. Qed.

Lemma pretty_N_go_dot_free x :
  forall s, dot_free s = true -> dot_free (pretty_N_go x s) = true.
Proof.
  induction (N.lt_wf_0 x) as [x _ IH]. intros s Hs.
  destruct (N.eq_dec x 0%N) as [-> | Hx]; [now rewrite pretty_N_go_0|].
  rewrite pretty_N_go_step by lia.
  apply IH; [apply N.div_lt; lia|].
  unfold dot_free. simpl. now rewrite pretty_N_char_dot_free.
Qed.

Lemma pretty_N_go_nonempty x :
  forall s, s <> EmptyString -> pretty_N_go x s <> EmptyString.
Proof.
  induction (N.lt_wf_0 x) as [x _ IH]. intros s Hs.
  destruct (N.eq_dec x 0%N) as [-> | Hx]; [now rewrite pretty_N_go_0|].
  rewrite pretty_N_go_step by lia.
  apply IH; [apply N.div_lt; lia | discriminate].
Qed.

Lemma plain_key_index i : plain_key (index_key i) = true.
Proof.
  unfold index_key, pretty, pretty_nat, pretty, pretty_N.
  destruct (decide (N.of_nat i = 0%N)) as [_ | Hx]; [reflexivity|].
  unfold plain_key. apply andb_true_iff. split.
  - apply negb_true_iff, String.eqb_neq.
    rewrite pretty_N_go_step by lia.
    apply pretty_N_go_nonempty. discriminate.
  - now apply pretty_N_go_dot_free.
Qed.

(** A plain key is one component of a path. *)
Lemma split_on_plain k : dot_free k = true -> split_on "." k = [k].
Proof.
  unfold dot_free. induction k as [|a r IH]; intros H; [reflexivity|].
  simpl in H. apply andb_true_iff in H. destruct H as [Ha Hr].
  simpl. apply negb_true_iff in Ha. rewrite Ha, (IH Hr). reflexivity.
Qed.

(** *** [getAllPaths] over the entries *)

Lemma getAllPaths_entries obj prefix :
  container obj = true ->
  getAllPaths obj prefix = flat_map (paths_of_entry prefix) (entries obj).
Proof.
  destruct obj; try discriminate; intros _; simpl.
  - reflexivity.
  - generalize 0%nat. induction items as [|x r IH]; intros i; [reflexivity|].
    cbn [indexed flat_map]. rewrite <- IH. reflexivity.
  - induction fields as [|[k x] r IH]; [reflexivity|].
    cbn [flat_map]. rewrite <- IH. reflexivity.
Qed.

Lemma getAllPaths_not_container obj prefix :
  container obj = false -> getAllPaths obj prefix = [].
Proof. destruct obj; try discriminate; reflexivity. Qed.

Lemma addressable_entries v :
  container v = true -> addressable v = true ->
  Forall (fun kv => plain_key (fst kv) = true
                    /\ strict_eq (snd kv) JUndefined = false
                    /\ addressable (snd kv) = true) (entries v).
Proof.
  destruct v; try discriminate; intros _ H; simpl.
  - constructor.
  - revert H. generalize 0%nat.
    induction items as [|x r IH]; intros i H; [constructor|].
    simpl in H. apply andb_true_iff in H. destruct H as [H Hr].
    apply andb_true_iff in H. destruct H as [Hu Hx].
    constructor.
    + simpl. split; [apply plain_key_index|]. split; [now apply negb_true_iff | exact Hx].
    + apply IH. exact Hr.
  - induction fields as [|[k x] r IH]; [constructor|].
    simpl in H. apply andb_true_iff in H. destruct H as [H Hr].
    apply andb_true_iff in H. destruct H as [H Hx].
    apply andb_true_iff in H. destruct H as [Hk Hu].
    constructor.
    + simpl. split; [exact Hk|]. split; [now apply negb_true_iff | exact Hx].
    + apply IH. exact Hr.
Qed.

Lemma append_nonempty a b : b <> EmptyString -> a +:+ b <> EmptyString.
Proof. destruct a; [intros H; exact H | discriminate]. Qed.

(** The paths listed below [obj], which is what the path [prefix]
    reads from [root] (the root itself under the empty prefix), exist in
    [root]. *)
Lemma getAllPaths_sound root obj :
  forall prefix,
    wf obj -> addressable obj = true ->
    (if String.eqb prefix EmptyString then root else getPathValue root prefix) = obj ->
    Forall (fun p => hasPath root p = true) (getAllPaths obj prefix).
Proof.
  induction obj as [obj IH] using JValue_nested_ind. intros prefix W A R.
  destruct (container obj) eqn:C.
  2: { rewrite (getAllPaths_not_container obj prefix C). constructor. }
  pose proof (Forall_entries _ obj C IH) as IHe. clear IH.
  rewrite List.Forall_forall in IHe.
  pose proof (NoDup_keys obj W) as N.
  pose proof (wf_entries obj W) as We. rewrite List.Forall_forall in We.
  pose proof (addressable_entries obj C A) as Ae. rewrite List.Forall_forall in Ae.
  rewrite (getAllPaths_entries obj prefix C).
  apply List.Forall_forall. intros p Hp. apply in_flat_map in Hp.
  destruct Hp as [[k x] [Hin Hp]].
  destruct (Ae (k, x) Hin) as [Hk [Hu Hx]]. simpl in Hk, Hu, Hx.
  unfold plain_key in Hk. apply andb_true_iff in Hk. destruct Hk as [Hne Hdots].
  set (currentPath := if String.eqb prefix EmptyString then k else prefix +:+ "." +:+ k).
  assert (Hread : getPathValue root currentPath = x).
  { assert (Hstep : getPathValue obj k = x).
    { rewrite getPathValue_fold, (split_on_plain k Hdots). simpl. unfold descend.
      rewrite (get_entry obj k x N Hin), Hu.
      destruct obj; try discriminate; reflexivity. }
    unfold currentPath. destruct (String.eqb prefix EmptyString).
    - now rewrite R.
    - now rewrite getPathValue_append, R. }
  assert (Hcur : String.eqb currentPath EmptyString = false).
  { apply String.eqb_neq. unfold currentPath.
    apply negb_true_iff, String.eqb_neq in Hne.
    destruct (String.eqb prefix EmptyString); [exact Hne|].
    apply append_nonempty. discriminate. }
  unfold paths_of_entry in Hp. cbn [fst snd] in Hp. fold currentPath in Hp.
  destruct Hp as [<- | Hp].
  - unfold hasPath. now rewrite Hread, Hu.
  - destruct (String.eqb (typeof x) "object" && negb (strict_eq x JNull)); [|destruct Hp].
    pose proof (IHe (k, x) Hin currentPath (We (k, x) Hin) Hx) as Hbelow.
    simpl in Hbelow. rewrite Hcur in Hbelow. specialize (Hbelow Hread).
    rewrite List.Forall_forall in Hbelow. now apply Hbelow.
Qed.

(** X5.  Every path that [getAllPaths] lists for an object exists in
    it for [hasPath], provided that no key of the object or of an object
    inside it is empty or contains a dot, and that no property is
    [undefined]. *)
Theorem getAllPaths_lists_existing_paths :
  forall obj : JValue,
    wf obj -> addressable obj = true ->
    Forall (fun p => hasPath obj p = true) (getAllPaths obj EmptyString).
Proof.
  intros obj W A. now apply (getAllPaths_sound obj obj EmptyString).
Qed.

Lemma getAllPaths_lists_existing_paths_witness :
  getAllPaths (JObj [("user", JObj [("name", JStr "Ada"); ("tags", JArr [JStr "x"])])])
              EmptyString
  = ["user"; "user.name"; "user.tags"; "user.tags.0"]
  /\ Forall (fun p => hasPath (JObj [("user", JObj [("name", JStr "Ada");
                                                    ("tags", JArr [JStr "x"])])]) p = true)
            (getAllPaths (JObj [("user", JObj [("name", JStr "Ada");
                                               ("tags", JArr [JStr "x"])])])
                         EmptyString).
Proof.
  split; [reflexivity|].
  apply getAllPaths_lists_existing_paths.
  - simpl. repeat split; repeat constructor; simpl; intuition discriminate.
  - reflexivity.
Defined.

End AllPaths.

(** ** More of the conflict engine *)

Section ConflictEngineMore.

Import ConflictEngine.

Lemma hasConflicts_common local incoming :
  hasConflicts local incoming = true <->
  exists p, In p (extractPaths (operations local))
            /\ In p (extractPaths (operations incoming)).
Proof.
  unfold hasConflicts. rewrite existsb_exists.
  split; intros [p [H1 H2]]; exists p; (split; [exact H1|]); now apply includes_In.
Qed.

Lemma getConflictingPaths_In local incoming p :
  In p (getConflictingPaths local incoming) <->
  In p (extractPaths (operations local)) /\ In p (extractPaths (operations incoming)).
Proof.
  unfold getConflictingPaths. rewrite filter_In. now rewrite includes_In.
Qed.

(** X6.  [hasConflicts] answers [true] exactly when
    [getConflictingPaths] lists a path, the paths listed are those that
    an operation of each patch has, and the answer does not depend on
    which of the two patches is the local one. *)
Theorem hasConflicts_agrees_with_getConflictingPaths :
  forall local incoming : Patch,
    (hasConflicts local incoming = true <-> getConflictingPaths local incoming <> [])
    /\ (forall p,
           In p (getConflictingPaths local incoming) <->
           In p (extractPaths (operations local))
           /\ In p (extractPaths (operations incoming)))
    /\ hasConflicts local incoming = hasConflicts incoming local.
Proof.
  intros local incoming. split; [|split; [apply getConflictingPaths_In|]].
  - rewrite hasConflicts_common. split.
    + intros [p Hp] E. apply getConflictingPaths_In in Hp. rewrite E in Hp. destruct Hp.
    + intros H. destruct (getConflictingPaths local incoming) as [|p r] eqn:E;
        [now destruct H|].
      exists p. apply getConflictingPaths_In. rewrite E. now left.
  - apply Bool.eq_true_iff_eq. rewrite !hasConflicts_common.
    split; intros [p [H1 H2]]; exists p; split; assumption.
Qed.

(** *** The path-based resolver *)

Lemma path_steps_no_conflict local incoming ops :
  forall l, fold_left (path_step local incoming []) ops l = l ++ ops.
Proof.
  induction ops as [|o r IH]; intros l; simpl.
  - now rewrite app_nil_r.
  - rewrite IH. unfold path_step. simpl. now rewrite <- app_assoc.
Qed.

Lemma pathBasedResolver_operations local incoming :
  operations (patch_of local incoming (pathBasedResolver local incoming))
  = fold_left (path_step local incoming (getConflictingPaths local incoming))
              (operations incoming) (operations local).
Proof.
  unfold pathBasedResolver.
  destruct (Nat.eqb (length (getConflictingPaths local incoming)) 0) eqn:E;
    [|reflexivity].
  apply Nat.eqb_eq in E. apply length_zero_iff_nil in E. rewrite E.
  now rewrite path_steps_no_conflict.
Qed.

Lemma replace_first_paths p new l :
  getOperationPath new = p ->
  In p (extractPaths l) ->
  exists l', replace_first p new l = Some l' /\ extractPaths l' = extractPaths l.
Proof.
  intros Hnew. induction l as [|o r IH]; intros Hin; [destruct Hin|].
  simpl. destruct (String.eqb (getOperationPath o) p) eqn:E.
  - exists (new :: r). split; [reflexivity|]. simpl.
    apply String.eqb_eq in E. now rewrite Hnew, E.
  - destruct Hin as [Hin | Hin]; [apply String.eqb_neq in E; now destruct E|].
    destruct (IH Hin) as [l' [Hl' Hp]]. rewrite Hl'.
    exists (o :: l'). split; [reflexivity|]. simpl. now rewrite Hp.
Qed.

Lemma path_steps_paths local incoming ops :
  forall resolvedOperations,
    incl (getConflictingPaths local incoming) (extractPaths resolvedOperations) ->
    extractPaths (fold_left (path_step local incoming (getConflictingPaths local incoming))
                            ops resolvedOperations)
    = extractPaths resolvedOperations
      ++ extractPaths
           (List.filter
              (fun o => negb (includes (getConflictingPaths local incoming)
                                       (getOperationPath o))) ops).
Proof.
  induction ops as [|o r IH]; intros resolvedOperations Hincl; simpl.
  - now rewrite app_nil_r.
  - unfold path_step at 2.
    destruct (includes (getConflictingPaths local incoming) (getOperationPath o)) eqn:E;
      simpl.
    + assert (Hsame : forall l, extractPaths l = extractPaths resolvedOperations ->
                extractPaths
                  (fold_left (path_step local incoming (getConflictingPaths local incoming))
                             r l)
                = extractPaths resolvedOperations
                  ++ extractPaths
                       (List.filter
                          (fun o => negb (includes (getConflictingPaths local incoming)
                                                   (getOperationPath o))) r)).
      { intros l Hl. rewrite IH; [now rewrite Hl | now rewrite Hl]. }
      destruct (_ || _).
      * apply includes_In in E. apply Hincl in E.
        destruct (replace_first_paths (getOperationPath o) o resolvedOperations eq_refl E)
          as [l' [Hl' Hp]].
        rewrite Hl'. now apply Hsame.
      * now apply Hsame.
    + rewrite IH.
      * unfold extractPaths. rewrite !map_app. simpl. now rewrite <- app_assoc.
      * intros p Hp. unfold extractPaths. rewrite map_app. apply in_or_app. left.
        now apply Hincl.
Qed.

Lemma conflicting_incl_local local incoming :
  incl (getConflictingPaths local incoming) (extractPaths (operations local)).
Proof. intros p Hp. now apply getConflictingPaths_In in Hp. Qed.

(** X7.  The patch of the path-based resolver addresses the paths of
    the local operations, in their order, followed by the paths of those
    incoming operations that conflict with none: no local path is
    dropped, and no conflicting path is added a second time. *)
Theorem pathBasedResolver_paths :
  forall local incoming : Patch,
    extractPaths (operations (patch_of local incoming (pathBasedResolver local incoming)))
    = extractPaths (operations local) ++ extractPaths (unconflicting local incoming).
Proof.
  intros local incoming. rewrite pathBasedResolver_operations.
  apply path_steps_paths, conflicting_incl_local.
Qed.

Lemma path_steps_local_wins local incoming ops :
  Z.gtb (timestamp incoming) (timestamp local) = false ->
  forall resolvedOperations,
    fold_left (path_step local incoming (getConflictingPaths local incoming))
              ops resolvedOperations
    = resolvedOperations
      ++ List.filter
           (fun o => negb (includes (getConflictingPaths local incoming)
                                    (getOperationPath o))) ops.
Proof.
  intros Hts. induction ops as [|o r IH]; intros resolvedOperations; simpl.
  - now rewrite app_nil_r.
  - unfold path_step at 2. rewrite Hts.
    destruct (includes (getConflictingPaths local incoming) (getOperationPath o)) eqn:E;
      simpl.
    + destruct (List.find _ (operations local)) as [localOp|] eqn:F; simpl; [apply IH|].
      exfalso. apply includes_In, conflicting_incl_local in E.
      unfold extractPaths in E. apply in_map_iff in E. destruct E as [o' [Hp Hin]].
      apply (find_none _ _ F) in Hin. rewrite Hp, String.eqb_refl in Hin. discriminate.
    + rewrite IH. now rewrite <- app_assoc.
Qed.

(** X8.  When the incoming patch is not the newer one, the path-based
    resolver keeps every local operation and adds the incoming
    operations that conflict with none; the incoming operations on a path
    that the local patch touches are dropped. *)
Theorem pathBasedResolver_local_wins :
  forall local incoming : Patch,
    timestamp incoming <= timestamp local ->
    operations (patch_of local incoming (pathBasedResolver local incoming))
    = operations local ++ unconflicting local incoming.
Proof.
  intros local incoming Hts. rewrite pathBasedResolver_operations.
  apply path_steps_local_wins. rewrite Z.gtb_ltb. apply Z.ltb_ge. exact Hts.
Qed.

Lemma pathBasedResolver_local_wins_witness :
  timestamp scenarioB_local <= timestamp scenarioB_incoming
  /\ operations (patch_of scenarioB_incoming scenarioB_local
                          (pathBasedResolver scenarioB_incoming scenarioB_local))
     = operations scenarioB_incoming.
Proof.
  split; [unfold scenarioB_local, scenarioB_incoming; simpl; lia|].
  apply (pathBasedResolver_local_wins scenarioB_incoming scenarioB_local).
  unfold scenarioB_local, scenarioB_incoming. simpl. lia.
Defined.

Lemma last_on_path_path ops o :
  getOperationPath (last_on_path ops o) = getOperationPath o.
Proof.
  unfold last_on_path. destruct (List.find _ (rev ops)) as [o'|] eqn:F; [|reflexivity].
  apply find_some in F. destruct F as [_ F]. now apply String.eqb_eq in F.
Qed.

Lemma last_on_path_snoc ins io o :
  last_on_path (ins ++ [io]) o
  = if String.eqb (getOperationPath io) (getOperationPath o) then io
    else last_on_path ins o.
Proof.
  unfold last_on_path. rewrite rev_app_distr. simpl.
  now destruct (String.eqb (getOperationPath io) (getOperationPath o)).
Qed.

Lemma replace_first_last ins io rest l :
  List.NoDup (extractPaths l) ->
  In (getOperationPath io) (extractPaths l) ->
  replace_first (getOperationPath io) io (map (last_on_path ins) l ++ rest)
  = Some (map (last_on_path (ins ++ [io])) l ++ rest).
Proof.
  induction l as [|o r IH]; intros N Hin; [destruct Hin|].
  simpl in N. inversion N as [|? ? Hnot N']; subst.
  cbn [map app replace_first]. rewrite last_on_path_path, last_on_path_snoc.
  rewrite (String.eqb_sym (getOperationPath io) (getOperationPath o)).
  destruct (String.eqb (getOperationPath o) (getOperationPath io)) eqn:E.
  - apply String.eqb_eq in E. do 3 f_equal.
    apply map_ext_in. intros o' Ho'. rewrite last_on_path_snoc.
    destruct (String.eqb (getOperationPath io) (getOperationPath o')) eqn:E';
      [|reflexivity].
    apply String.eqb_eq in E'. exfalso. apply Hnot. rewrite E, E'.
    unfold extractPaths. now apply in_map.
  - destruct Hin as [Hin | Hin]; [apply String.eqb_neq in E; now destruct E|].
    now rewrite (IH N' Hin).
Qed.

Lemma path_steps_incoming_wins local incoming :
  Z.gtb (timestamp incoming) (timestamp local) = true ->
  List.NoDup (extractPaths (operations local)) ->
  forall r ins,
    incl (ins ++ r) (operations incoming) ->
    fold_left (path_step local incoming (getConflictingPaths local incoming)) r
              (map (last_on_path ins) (operations local)
               ++ List.filter
                    (fun o => negb (includes (getConflictingPaths local incoming)
                                             (getOperationPath o))) ins)
    = map (last_on_path (ins ++ r)) (operations local)
      ++ List.filter
           (fun o => negb (includes (getConflictingPaths local incoming)
                                    (getOperationPath o))) (ins ++ r).
Proof.
  intros Hts N. induction r as [|io r IH]; intros ins Hincl.
  - now rewrite app_nil_r.
  - cbn [fold_left].
    replace (ins ++ io :: r) with ((ins ++ [io]) ++ r) in * by now rewrite <- app_assoc.
    rewrite <- (IH (ins ++ [io]) Hincl). f_equal.
    unfold path_step. rewrite Hts, List.filter_app. cbn [List.filter].
    destruct (includes (getConflictingPaths local incoming) (getOperationPath io)) eqn:E;
      cbn [negb].
    + rewrite orb_true_r, app_nil_r.
      apply includes_In, conflicting_incl_local in E.
      now rewrite (replace_first_last ins io _ (operations local) N E).
    + rewrite app_assoc. f_equal. f_equal.
      apply map_ext_in. intros o Ho. rewrite last_on_path_snoc.
      destruct (String.eqb (getOperationPath io) (getOperationPath o)) eqn:E';
        [|reflexivity].
      apply String.eqb_eq in E'. exfalso.
      apply not_true_iff_false in E. apply E. apply includes_In, getConflictingPaths_In.
      split.
      * rewrite E'. unfold extractPaths. now apply in_map.
      * unfold extractPaths. apply in_map. apply Hincl.
        apply in_or_app. left. apply in_or_app. right. now left.
Qed.

Lemma last_on_path_none o : last_on_path [] o = o.
Proof. reflexivity. Qed.

(** X9.  When the incoming patch is the newer one and the local
    operations have distinct paths, the path-based resolver puts, in the
    place of each local operation, the last incoming operation on its
    path if there is one, and adds the incoming operations that conflict
    with none. *)
Theorem pathBasedResolver_incoming_wins :
  forall local incoming : Patch,
    timestamp local < timestamp incoming ->
    List.NoDup (extractPaths (operations local)) ->
    operations (patch_of local incoming (pathBasedResolver local incoming))
    = map (last_on_path (operations incoming)) (operations local)
      ++ unconflicting local incoming.
Proof.
  intros local incoming Hts N. rewrite pathBasedResolver_operations.
  assert (G : Z.gtb (timestamp incoming) (timestamp local) = true).
  { rewrite Z.gtb_ltb. now apply Z.ltb_lt. }
  pose proof (path_steps_incoming_wins local incoming G N (operations incoming) []
                (fun o H => H)) as H.
  cbn [app List.filter] in H. rewrite app_nil_r in H.
  rewrite (map_ext _ (fun o => o) last_on_path_none), map_id in H.
  exact H.
Qed.

Lemma pathBasedResolver_incoming_wins_witness :
  timestamp scenarioB_local < timestamp scenarioB_incoming
  /\ operations (patch_of scenarioB_local scenarioB_incoming
                          (pathBasedResolver scenarioB_local scenarioB_incoming))
     = operations scenarioB_incoming.
Proof.
  split; [unfold scenarioB_local, scenarioB_incoming; simpl; lia|].
  apply (pathBasedResolver_incoming_wins scenarioB_local scenarioB_incoming).
  - unfold scenarioB_local, scenarioB_incoming. simpl. lia.
  - repeat constructor. intros [].
Defined.

(** *** Validation *)

(** X10.  [validatePatch] accepts a patch exactly when its id, its
    source and its target are not empty and its timestamp is not 0; a
    patch always has its operations and its version, of which 0 is as
    good as any.  It reads the properties of what it is given, which
    throws on [null] and [undefined]. *)
Theorem validatePatch_accepts :
  forall p : Patch,
    (validatePatch (patch_object p) = Returns (true, [])
     <-> id p <> EmptyString /\ timestamp p <> 0
         /\ source p <> EmptyString /\ target p <> EmptyString)
    /\ validatePatch JNull = Throws
    /\ validatePatch JUndefined = Throws.
Proof.
  intros p. split; [|split; reflexivity].
  unfold validatePatch, patch_object.
    cbn [is_nullish get entries assoc app String.eqb Ascii.eqb Bool.eqb truthy typeof
         is_array strict_eq negb orb].
    destruct (String.eqb_spec (id p) EmptyString) as [Ei|Ei];
      destruct (Z.eqb_spec (timestamp p) 0) as [Et|Et];
      destruct (String.eqb_spec (source p) EmptyString) as [Es|Es];
      destruct (String.eqb_spec (target p) EmptyString) as [Eg|Eg];
      cbn [negb orb app length Nat.eqb];
      (split; [intros H; try discriminate; tauto
              | intros [H1 [H2 [H3 H4]]]; try reflexivity; tauto]).
Qed.

End ConflictEngineMore.

(** ** More of the offline queue *)

Section OfflineQueueMore.

Import OfflineQueue.

Lemma put_ids p l :
  map id (put p l)
  = if includes (map id l) (id p) then map id l else map id l ++ [id p].
Proof.
  induction l as [|x r IH]; [reflexivity|].
  simpl. rewrite (String.eqb_sym (id p) (id x)).
  destruct (String.eqb (id x) (id p)) eqn:E; simpl.
  - apply String.eqb_eq in E. now rewrite E.
  - rewrite IH. now destruct (includes (map id r) (id p)).
Qed.

Lemma put_In p l x :
  List.NoDup (map id l) ->
  In x (put p l) <-> x = p \/ (In x l /\ id x <> id p).
Proof.
  induction l as [|y r IH]; intros N; simpl.
  - split; [intros [H | []]; now left | intros [H | [[] _]]; now left].
  - inversion N as [|? ? Hnot N']; subst.
    destruct (String.eqb_spec (id y) (id p)) as [E | E]; simpl.
    + split.
      * intros [H | H]; [now left|]. right. split; [now right|].
        intros Hx. apply Hnot. rewrite E, <- Hx. now apply in_map.
      * intros [H | [[H | H] Hx]]; [now left | subst; now destruct Hx | now right].
    + rewrite (IH N'). split.
      * intros [H | [H | [H Hx]]]; [right; subst; split; [now left | exact E] | now left |].
        right. split; [now right | exact Hx].
      * intros [H | [[H | H] Hx]]; [right; now left | now left |].
        right. right. split; assumption.
Qed.

(** X11.  The store keeps one patch per id: after [enqueue(patch)] the
    ids in the queue are still distinct, the patch is in the queue, and
    so are the patches that were there under another id, and no other. *)
Theorem enqueue_keeps_one_patch_per_id :
  forall (q : Queue) (p : Patch),
    storageAdapter q = None ->
    List.NoDup (map id (getAll q)) ->
    List.NoDup (map id (getAll (enqueue q p)))
    /\ (forall x, In x (getAll (enqueue q p))
                  <-> x = p \/ (In x (getAll q) /\ id x <> id p)).
Proof.
  intros q p A N. unfold enqueue, getAll in *. rewrite A in *. simpl. split.
  - rewrite put_ids. destruct (includes (map id (db q)) (id p)) eqn:E; [exact N|].
    apply List.NoDup_app; [exact N | repeat constructor; intros [] |].
    intros x Hx [<- | []]. apply includes_In in Hx. congruence.
  - intros x. now apply put_In.
Qed.

Lemma enqueue_keeps_one_patch_per_id_witness :
  List.NoDup (map id (getAll (enqueue two_queued (mkPatch "a" 300 "me" "doc" [] 3 None))))
  /\ getAll (enqueue two_queued (mkPatch "a" 300 "me" "doc" [] 3 None))
     = [mkPatch "b" 200 "me" "doc" [] 2 None; mkPatch "a" 300 "me" "doc" [] 3 None].
Proof.
  split; [|reflexivity].
  refine (proj1 (enqueue_keeps_one_patch_per_id two_queued _ eq_refl _)).
  simpl. repeat constructor; simpl; intuition discriminate.
Defined.

Lemma put_put p p' l : id p = id p' -> put p' (put p l) = put p' l.
Proof.
  intros E. induction l as [|x r IH]; simpl.
  - now rewrite E, String.eqb_refl.
  - rewrite <- E. destruct (String.eqb (id x) (id p)) eqn:Ex; simpl.
    + now rewrite <- E, String.eqb_refl.
    + rewrite <- E, Ex. now rewrite IH.
Qed.

Lemma adapter_set_set key p p' l :
  adapter_set key p' (adapter_set key p l) = adapter_set key p' l.
Proof.
  induction l as [|[k x] r IH]; simpl.
  - now rewrite String.eqb_refl.
  - destruct (String.eqb k key) eqn:Ek; simpl; rewrite Ek; [reflexivity|].
    now rewrite IH.
Qed.

(** X12.  A patch enqueued under the id of one that is already queued
    takes its place: enqueueing [p] and then [p'] of the same id leaves
    the queue that enqueueing [p'] alone leaves.  In particular a patch
    enqueued twice is queued once. *)
Theorem enqueue_replaces_same_id :
  forall (q : Queue) (p p' : Patch),
    id p = id p' ->
    enqueue (enqueue q p) p' = enqueue q p'.
Proof.
  intros q p p' E. unfold enqueue.
  destruct (storageAdapter q) as [entries|]; simpl.
  - now rewrite E, adapter_set_set.
  - now rewrite put_put.
Qed.

Lemma enqueue_replaces_same_id_witness :
  enqueue (enqueue two_queued (mkPatch "c" 300 "me" "doc" [] 3 None))
          (mkPatch "c" 400 "me" "doc" [] 4 None)
  = enqueue two_queued (mkPatch "c" 400 "me" "doc" [] 4 None).
Proof.
  apply enqueue_replaces_same_id. reflexivity.
Defined.

Lemma delete_put p l :
  ~ In (id p) (map id l) -> delete (id p) (put p l) = l.
Proof.
  unfold delete. induction l as [|x r IH]; intros H; simpl.
  - now rewrite String.eqb_refl.
  - destruct (String.eqb_spec (id x) (id p)) as [E | E].
    + exfalso. apply H. now left.
    + simpl. destruct (String.eqb_spec (id x) (id p)) as [E' | _]; [now destruct E|].
      simpl. f_equal. apply IH. intros Hin. apply H. now right.
Qed.

(** X13.  Removing a patch that was just enqueued under a new id gives
    the queue back. *)
Theorem enqueue_then_remove :
  forall (q : Queue) (p : Patch),
    storageAdapter q = None ->
    ~ In (id p) (map id (getAll q)) ->
    remove (enqueue q p) [p] = q.
Proof.
  intros q p A H. unfold enqueue, remove, getAll in *. rewrite A in *. simpl.
  rewrite (delete_put p (db q) H). destruct q; simpl in *. now subst.
Qed.

Lemma enqueue_then_remove_witness :
  remove (enqueue two_queued (mkPatch "c" 300 "me" "doc" [] 3 None))
         [mkPatch "c" 300 "me" "doc" [] 3 None]
  = two_queued.
Proof.
  apply enqueue_then_remove; [reflexivity|].
  simpl. intuition discriminate.
Defined.

Lemma adapter_set_In key p l : In (key, p) (adapter_set key p l).
Proof.
  induction l as [|[k x] r IH]; simpl; [now left|].
  destruct (String.eqb_spec k key) as [-> | E]; [now left | now right].
Qed.

(** X14.  With a custom storage adapter, a patch that is enqueued is
    handed to the adapter, and the queue then still lists nothing
    ([getAll] answers the empty list): its size is 0, it is empty, its
    status reports nothing pending, and a flush sends nothing and leaves
    the stored patch where it is. *)
Theorem adapter_queue_is_never_replayed :
  forall (World : Type)
         (sendFunction : Patch -> Queue * World -> bool * (Queue * World))
         (q : Queue) (entries : list (string * Patch)) (p : Patch) (w : World),
    storageAdapter q = Some entries ->
    flushInProgress q = false ->
    (exists entries', storageAdapter (enqueue q p) = Some entries'
                      /\ In ("patch-" +:+ id p, p) entries')
    /\ size (enqueue q p) = 0%nat
    /\ isEmpty (enqueue q p) = true
    /\ (forall now, pending (getStatus (enqueue q p) now) = 0%nat)
    /\ flush World sendFunction (enqueue q p) w = (enqueue q p, w, mkLog [] [] [] false).
Proof.
  intros World sendFunction q entries p w A F.
  unfold size, isEmpty, getStatus, flush, getAll, enqueue, set_flag. rewrite A. simpl.
  rewrite F. repeat split.
  eexists. split; [reflexivity | apply adapter_set_In].
Qed.

Lemma adapter_queue_is_never_replayed_witness :
  size (enqueue (mkQueue (Some []) [] false) scenarioB_local) = 0%nat
  /\ flush (list Patch) send_older_than_150
           (enqueue (mkQueue (Some []) [] false) scenarioB_local) []
     = (mkQueue (Some [("patch-local-1", scenarioB_local)]) [] false, [],
        mkLog [] [] [] false).
Proof.
  pose proof (adapter_queue_is_never_replayed (list Patch) send_older_than_150
                (mkQueue (Some []) [] false) [] scenarioB_local [] eq_refl eq_refl) as H.
  split; [exact (proj1 (proj2 H)) | exact (proj2 (proj2 (proj2 (proj2 H))))].
Defined.

(** X15.  The flag does not stay up: from every state that calls of
    [flush] and [enqueue] can reach, the flush that is running, if any,
    can run to its end, and no task is then left and [flushInProgress]
    is [false] again. *)
Theorem flush_in_progress_ends :
  forall m : Machine,
    reachable m ->
    exists m', steps m m' /\ running m' = [] /\ flushInProgress (queue m') = false.
Proof.
  intros m R.
  assert (Hsend : forall m1 p rest ok ko,
             running m1 = [AwaitSend p rest ok ko] ->
             exists m', steps m1 m' /\ running m' = []
                        /\ flushInProgress (queue m') = false).
  { intros m1 p rest ok ko Hr.
    destruct (flush_task_runs (fun _ => true) rest p ok ko m1 Hr)
      as [m' [S [Hr' [_ [_ Hq]]]]].
    exists m'. split; [exact S|]. split; [exact Hr'|]. now rewrite Hq. }
  destruct (one_flush_reachable m R) as [[Hr Hf] | [t [Hr Hf]]].
  - exists m. split; [apply steps_none|]. now split.
  - destruct t as [|p rest ok ko|ok].
    + pose proof (step_getAll m [] [] Hr) as S1.
      destruct (sort_by_timestamp (getAll (queue m))) as [|p rest].
      * eexists. split; [eapply steps_more; [exact S1 | apply steps_none]|].
        simpl. now split.
      * destruct (Hsend (continue m [] [] (queue m) (Some (AwaitSend p rest [] [])))
                        p rest [] [] eq_refl) as [m' [S H]].
        exists m'. split; [eapply steps_more; [exact S1 | exact S] | exact H].
    + now apply (Hsend m p rest ok ko).
    + pose proof (step_remove_done m [] [] ok Hr) as S1.
      eexists. split; [eapply steps_more; [exact S1 | apply steps_none]|].
      simpl. now split.
Qed.

Lemma flush_in_progress_ends_witness :
  exists m', steps flushing m' /\ running m' = [] /\ flushInProgress (queue m') = false.
Proof.
  apply flush_in_progress_ends.
  apply (reachable_step (mkMachine two_queued [] [] 0)).
  - now apply reachable_start.
  - apply step_call.
Defined.

End OfflineQueueMore.

(** ** More of the watcher *)

Section WatcherMore.

Import ConflictEngine.
Import OfflineQueue.
Import Broadcaster.
Import Watcher.
Import Plugins.

(** *** The effects of the hooks *)

Lemma log_log l1 l2 w : log l2 (log l1 w) = log (l1 ++ l2) w.
Proof. unfold log. simpl. now rewrite app_assoc. Qed.

Lemma log_nil w : log [] w = w.
Proof. destruct w. unfold log. simpl. now rewrite app_nil_r. Qed.

Lemma run_hooks_logs hook l :
  forall d w,
    exists effs,
      snd (run_hooks hook l d w) = log effs w
      /\ Forall (fun e => emitted_patch e = None) effs.
Proof.
  induction l as [|plugin rest IH]; intros d w; simpl.
  - exists []. split; [now rewrite log_nil | constructor].
  - destruct (hook_of hook plugin) as [hookFn|]; [|apply IH].
    destruct (hookFn d) as [| | |p];
      match goal with
      | |- context [run_hooks hook rest ?d' ?w'] =>
          destruct (IH d' w') as [effs [E F]]; rewrite E
      end; unfold emit; rewrite !log_log; eexists; (split; [reflexivity|]);
      simpl; repeat (constructor; [reflexivity|]); exact F.
Qed.

Lemma run_hooks_result hook l :
  forall d w w', fst (run_hooks hook l d w) = fst (run_hooks hook l d w').
Proof.
  induction l as [|plugin rest IH]; intros d w w'; simpl; [reflexivity|].
  destruct (hook_of hook plugin) as [hookFn|]; [|apply IH].
  destruct (hookFn d); apply IH.
Qed.

(** A hook that throws, returns nothing or returns what it was given
    leaves the data of the pipeline as it is. *)
Lemma run_hooks_skip hook plugin hookFn l2 :
  hook_of hook plugin = Some hookFn ->
  (forall d, match hookFn d with
             | HookThrows | HookUndefined => True
             | HookNull => d = None
             | HookPatch p => d = Some p
             end) ->
  forall l1 d w w',
    fst (run_hooks hook (l1 ++ plugin :: l2) d w) = fst (run_hooks hook (l1 ++ l2) d w').
Proof.
  intros Hh Hf. induction l1 as [|q l1 IH]; intros d w w'; simpl.
  - rewrite Hh. pose proof (Hf d) as Hd.
    destruct (hookFn d); try rewrite <- Hd; apply run_hooks_result.
  - destruct (hook_of hook q) as [g|]; [|apply IH].
    destruct (g d); apply IH.
Qed.

Lemma run_hooks_error hook plugin hookFn l2 :
  hook_of hook plugin = Some hookFn ->
  (forall d, hookFn d = HookThrows) ->
  forall l1 d w,
    In (Emit "plugin-error" (PluginError (plugin_id plugin) hook))
       (effects (snd (run_hooks hook (l1 ++ plugin :: l2) d w))).
Proof.
  intros Hh Hf. induction l1 as [|q l1 IH]; intros d w; simpl.
  - rewrite Hh, Hf.
    match goal with
    | |- context [run_hooks hook l2 ?d' ?w'] =>
        destruct (run_hooks_logs hook l2 d' w') as [effs [E _]]; rewrite E
    end.
    unfold emit. rewrite !log_log. simpl. apply in_or_app. right.
    right. now left.
  - destruct (hook_of hook q) as [g|]; [|apply IH].
    destruct (g d); apply IH.
Qed.

(** X16.  A plugin whose hook throws is passed over: the patch that
    the pipeline yields is the one it would yield without the plugin,
    and a [plugin-error] event names the plugin and the hook. *)
Theorem throwing_plugin_is_passed_over :
  forall (hook : Hook) (plugin : Plugin) (hookFn : option Patch -> HookResult)
         (l1 l2 : list Plugin) (data : option Patch) (w : Watcher),
    plugins w = l1 ++ plugin :: l2 ->
    hook_of hook plugin = Some hookFn ->
    (forall d, hookFn d = HookThrows) ->
    fst (processPlugins hook data w)
    = fst (processPlugins hook data (set_plugins (l1 ++ l2) w))
    /\ In (Emit "plugin-error" (PluginError (plugin_id plugin) hook))
          (effects (snd (processPlugins hook data w))).
Proof.
  intros hook plugin hookFn l1 l2 data w Hp Hh Hf.
  unfold processPlugins. rewrite Hp. cbn [plugins set_plugins]. split.
  - apply (run_hooks_skip hook plugin hookFn l2 Hh).
    intros d. now rewrite Hf.
  - now apply (run_hooks_error hook plugin hookFn l2 Hh Hf).
Qed.

(** X17.  The logger plugin is transparent: whatever the hook and the
    data, and wherever the logger stands among the plugins, the pipeline
    yields the patch that it yields without the logger. *)
Theorem logger_is_transparent :
  forall (hook : Hook) (l1 l2 : list Plugin) (data : option Patch) (w : Watcher),
    plugins w = l1 ++ pluginLogger :: l2 ->
    fst (processPlugins hook data w)
    = fst (processPlugins hook data (set_plugins (l1 ++ l2) w)).
Proof.
  intros hook l1 l2 data w Hp.
  unfold processPlugins. rewrite Hp. cbn [plugins set_plugins].
  destruct hook.
  - apply (run_hooks_skip OnSend pluginLogger _ l2 eq_refl). now intros [p|].
  - apply (run_hooks_skip OnReceive pluginLogger _ l2 eq_refl). now intros [p|].
  - apply (run_hooks_skip OnApply pluginLogger _ l2 eq_refl). now intros [p|].
Qed.

Lemma throwing_plugin_is_passed_over_witness :
  fst (processPlugins OnSend (Some scenarioB_local) (use (create "tab-A") failing_plugin))
  = Some scenarioB_local
  /\ In (Emit "plugin-error" (PluginError "failing" OnSend))
        (effects (snd (processPlugins OnSend (Some scenarioB_local)
                                      (use (create "tab-A") failing_plugin)))).
Proof.
  apply (throwing_plugin_is_passed_over OnSend failing_plugin (fun _ => HookThrows) [] []
           (Some scenarioB_local) (use (create "tab-A") failing_plugin));
    reflexivity.
Defined.

Lemma logger_is_transparent_witness :
  fst (processPlugins OnReceive None
         (use (use (create "tab-A") pluginEncrypt_disabled) pluginLogger))
  = fst (processPlugins OnReceive None (use (create "tab-A") pluginEncrypt_disabled)).
Proof.
  apply (logger_is_transparent OnReceive [pluginEncrypt_disabled] [] None
           (use (use (create "tab-A") pluginEncrypt_disabled) pluginLogger)).
  reflexivity.
Defined.

(** *** A plugin that vetoes *)

Lemma run_hooks_encrypt_disabled l :
  forall d w, fst (run_hooks OnSend (l ++ [pluginEncrypt_disabled]) d w) = None.
Proof.
  induction l as [|q l IH]; intros d w; simpl; [reflexivity|].
  destruct (onSend q) as [g|]; [|apply IH].
  destruct (g d); apply IH.
Qed.

Section Library.

Variable compare : JValue -> JValue -> Outcome (list Operation).
Variable applyPatch : JValue -> list Operation -> FastJsonPatch.ApplyResult.

(** X18.  The encryption plugin configured with [enabled: false] does
    not let patches through in the clear: registered last, it makes
    [update] change the watched object and count a version while no
    patch is posted or queued. *)
Theorem disabled_encryption_blocks_updates :
  forall (w : Watcher) (uuid : string) (now : Z) (ops : list Operation)
         (l : list Plugin) (doc : JValue),
    plugins w = l ++ [pluginEncrypt_disabled] ->
    isWatching w = true ->
    FastJsonPatch.newDocument (applyPatch (state w) ops) = Returns doc ->
    state (update applyPatch w uuid now ops) = FastJsonPatch.live (applyPatch (state w) ops)
    /\ instance_version (update applyPatch w uuid now ops) = instance_version w + 1
    /\ offlineQueue (update applyPatch w uuid now ops) = offlineQueue w
    /\ exists effs,
         effects (update applyPatch w uuid now ops) = effects w ++ effs
         /\ Forall (fun e => emitted_patch e = None) effs.
Proof.
  intros w uuid now ops l doc Hp Hw Hd. unfold update. rewrite Hw, Hd. cbn [negb].
  unfold processPlugins. cbn [plugins set_version set_state]. rewrite Hp.
  match goal with
  | |- context [run_hooks OnSend _ ?d ?w2] =>
      pose proof (run_hooks_encrypt_disabled l d w2) as Hn;
      destruct (run_hooks_logs OnSend (l ++ [pluginEncrypt_disabled]) d w2)
        as [effs [E F]];
      destruct (run_hooks OnSend (l ++ [pluginEncrypt_disabled]) d w2) as [pp w3]
  end.
  simpl in Hn, E. subst pp w3. simpl.
  repeat split.
  exists (effs ++ [Emit "update" (StateUpdated (stamped w uuid now ops) ops)]).
  split; [now rewrite app_assoc|].
  apply List.Forall_app. split; [exact F | repeat constructor].
Qed.

(** X19.  [sync] runs no plugin hook: the patch that it makes goes to
    the transport or to the queue as it is, whatever plugins are
    registered. *)
Theorem sync_runs_no_hook :
  forall (w : Watcher) (uuid : string) (now : Z),
    exists effs,
      effects (sync compare w uuid now) = effects w ++ effs
      /\ Forall (fun e => is_hook_call e = false) effs.
Proof.
  intros w uuid now. unfold sync.
  destruct (negb (isWatching w)); [exists []; split; [now rewrite app_nil_r | constructor]|].
  destruct (DiffEngine.generatePatch compare (diffEngine w) (state w) (paths (config w)))
    as [engine [diffResult|]];
    [|exists []; split; [now rewrite app_nil_r | constructor]].
  destruct (hasChanges diffResult);
    [|exists []; split; [simpl; now rewrite app_nil_r | constructor]].
  match goal with
  | |- context [broadcastPatch ?w1 ?p now] =>
      destruct (broadcastPatch_emits w1 p now) as [e [E [He _]]]; rewrite E
  end.
  exists [e]. split; [reflexivity|].
  constructor; [|constructor]. now destruct e.
Qed.

(** *** What arrives is not passed on *)











End Library.

End WatcherMore.

Lemma disabled_encryption_blocks_updates_witness :
  Watcher.state (Watcher.update FastJsonPatch.applyPatch
           (Watcher.use tab_A Plugins.pluginEncrypt_disabled) "local-1" 200 (set_x 1))
  = JObj [("x", JNum 1)]
  /\ OfflineQueue.getAll
       (Watcher.offlineQueue
          (Watcher.update FastJsonPatch.applyPatch
             (Watcher.use tab_A Plugins.pluginEncrypt_disabled) "local-1" 200 (set_x 1)))
     = [].
Proof.
  pose proof (disabled_encryption_blocks_updates FastJsonPatch.applyPatch
                (Watcher.use tab_A Plugins.pluginEncrypt_disabled) "local-1" 200 (set_x 1)
                [] (JObj [("x", JNum 1)]) eq_refl eq_refl eq_refl) as H.
  destruct H as [Hs [_ [Hq _]]]. split.
  - rewrite Hs. reflexivity.
  - rewrite Hq. reflexivity.
Defined.

(** *** The queue of the watcher *)

Section WatcherQueue.

Import OfflineQueue.
Import Broadcaster.
Import Watcher.

Lemma broadcastPatch_cases w p now :
  broadcastPatch w p now
  = if isConnected w && broadcaster_connected w
    then log [Posted (patch_message w p now)] w
    else log [Enqueued p] (set_offlineQueue (enqueue (offlineQueue w) p) w).
Proof.
  unfold broadcastPatch, send, patch_message. cbn [_isConnected msg_source msg_timestamp
                                                  msg_type msg_data Broadcaster.sourceId].
  destruct (isConnected w); [|reflexivity].
  destruct (broadcaster_connected w); [|reflexivity].
  cbn [negb andb].
  destruct (String.eqb (sourceId w) EmptyString); destruct (Z.eqb now 0); reflexivity.
Qed.

Lemma send_all_watcher now patches :
  forall ok ko q1 w1,
    let r := send_all Watcher (send_patch now) patches ok ko (q1, w1) in
    fst (fst r) = ok ++ patches
    /\ snd (fst r) = ko
    /\ fst (snd r) = requeued w1 patches q1
    /\ forall qf, set_offlineQueue qf (snd (snd r))
                  = set_offlineQueue qf (log (map (handed_over w1 now) patches) w1).
Proof.
  induction patches as [|p rest IH]; intros ok ko q1 w1; cbn zeta.
  - simpl. unfold requeued. rewrite app_nil_r.
    repeat split; [now destruct (_ && _)|].
    intros qf. now rewrite log_nil.
  - cbn [send_all send_patch fst snd].
    rewrite broadcastPatch_cases. cbn [isConnected broadcaster_connected set_offlineQueue].
    unfold requeued, handed_over.
    destruct (isConnected w1 && broadcaster_connected w1) eqn:O.
    + specialize (IH (ok ++ [p]) ko q1
                     (log [Posted (patch_message (set_offlineQueue q1 w1) p now)]
                          (set_offlineQueue q1 w1))).
      cbn zeta in IH. cbn [offlineQueue log set_offlineQueue].
      cbn [offlineQueue log set_offlineQueue] in IH.
      destruct IH as [H1 [H2 [H3 H4]]].
      unfold requeued, handed_over in *.
      cbn [isConnected broadcaster_connected log set_offlineQueue] in *.
      rewrite O in *.
      repeat split.
      * rewrite H1. now rewrite <- app_assoc.
      * exact H2.
      * exact H3.
      * intros qf. rewrite H4. unfold log, set_offlineQueue. simpl.
        now rewrite <- app_assoc.
    + specialize (IH (ok ++ [p]) ko (enqueue q1 p)
                     (log [Enqueued p]
                          (set_offlineQueue (enqueue q1 p) (set_offlineQueue q1 w1)))).
      cbn zeta in IH. cbn [offlineQueue log set_offlineQueue].
      cbn [offlineQueue log set_offlineQueue] in IH.
      destruct IH as [H1 [H2 [H3 H4]]].
      unfold requeued, handed_over in *.
      cbn [isConnected broadcaster_connected log set_offlineQueue] in *.
      rewrite O in *.
      repeat split.
      * rewrite H1. now rewrite <- app_assoc.
      * exact H2.
      * exact H3.
      * intros qf. rewrite H4. unfold log, set_offlineQueue. simpl.
        now rewrite <- app_assoc.
Qed.

Lemma enqueue_all_adapter patches :
  forall q, storageAdapter q = None -> storageAdapter (fold_left enqueue patches q) = None.
Proof.
  induction patches as [|p rest IH]; intros q A; [exact A|].
  simpl. apply IH. unfold enqueue. now rewrite A.
Qed.

Lemma enqueue_all_ids patches :
  forall q, storageAdapter q = None ->
            incl (map id (db (fold_left enqueue patches q)))
                 (map id (db q) ++ map id patches).
Proof.
  induction patches as [|p rest IH]; intros q A; simpl.
  - rewrite app_nil_r. intros x Hx. exact Hx.
  - intros x Hx. apply IH in Hx; [|unfold enqueue; now rewrite A].
    unfold enqueue in Hx. rewrite A in Hx. cbn [db] in Hx.
    rewrite put_ids in Hx.
    apply in_app_or in Hx. apply in_or_app.
    destruct Hx as [Hx | Hx]; [|right; now right].
    destruct (includes (map id (db q)) (id p)); [now left|].
    apply in_app_or in Hx. destruct Hx as [Hx | [<- | []]]; [now left|].
    right. now left.
Qed.

Lemma delete_all_known l ok :
  incl (map id l) (map id ok) ->
  fold_left (fun l p => delete (id p) l) ok l = [].
Proof.
  intros Hincl. rewrite delete_all_filter.
  induction l as [|x r IH]; [reflexivity|].
  simpl. assert (Hx : includes (map id ok) (id x) = true).
  { apply includes_In, Hincl. now left. }
  rewrite Hx. simpl. apply IH. intros y Hy. apply Hincl. now right.
Qed.

(** [flushQueue] on a database queue on which no flush is running:
    every queued patch is handed over, oldest first, and the queue is
    empty afterwards. *)
Lemma flushQueue_run w now :
  storageAdapter (offlineQueue w) = None ->
  flushInProgress (offlineQueue w) = false ->
  flushQueue w now
  = set_offlineQueue (mkQueue None [] false)
      (log (map (handed_over w now) (sort_by_timestamp (getAll (offlineQueue w)))) w).
Proof.
  intros A F.
  change (flushQueue w now)
    with (match flush Watcher (send_patch now) (offlineQueue w) w with
          | (q, w', l) =>
              set_offlineQueue q
                (if warned l then log [Warned "Flush already in progress"] w' else w')
          end).
  unfold flush. rewrite F.
  change (getAll (set_flag true (offlineQueue w))) with (getAll (offlineQueue w)).
  unfold getAll. rewrite A.
  destruct (db (offlineQueue w)) as [|p0 rest0] eqn:D.
  - cbn [warned]. simpl. rewrite log_nil. unfold set_flag. now rewrite A, D.
  - pose proof (sort_by_timestamp_perm (p0 :: rest0)) as Hperm.
    pose proof (send_all_watcher now (sort_by_timestamp (p0 :: rest0)) [] []
                                 (set_flag true (offlineQueue w)) w) as H.
    cbn zeta in H.
    destruct (send_all Watcher (send_patch now) (sort_by_timestamp (p0 :: rest0)) [] []
                       (set_flag true (offlineQueue w), w)) as [[ok ko] [q1 w']].
    cbn [fst snd] in H. destruct H as [Hok [Hko [Hq Hw]]].
    cbn [app] in Hok. subst ok ko.
    assert (Hq1 : storageAdapter q1 = None).
    { rewrite Hq. unfold requeued. destruct (_ && _).
      - exact A.
      - apply enqueue_all_adapter. exact A. }
    assert (Hids : incl (map id (db q1)) (map id (sort_by_timestamp (p0 :: rest0)))).
    { rewrite Hq. unfold requeued. destruct (_ && _).
      - cbn [set_flag db]. rewrite D. intros x Hx.
        apply in_map_iff in Hx. destruct Hx as [y [<- Hy]].
        apply in_map. now apply (Permutation_in _ Hperm).
      - intros x Hx. apply enqueue_all_ids in Hx; [|exact A].
        cbn [set_flag db] in Hx. rewrite D in Hx.
        apply in_app_or in Hx. destruct Hx as [Hx | Hx]; [|exact Hx].
        apply in_map_iff in Hx. destruct Hx as [y [<- Hy]].
        apply in_map. now apply (Permutation_in _ Hperm). }
    assert (Hrem : set_flag false (remove q1 (sort_by_timestamp (p0 :: rest0)))
                   = mkQueue None [] false).
    { unfold remove, set_flag. rewrite Hq1. cbn [storageAdapter db].
      now rewrite (delete_all_known (db q1) _ Hids). }
    cbn [warned].
    destruct (sort_by_timestamp (p0 :: rest0)) as [|s0 srest] eqn:S.
    { apply Permutation_sym, Permutation_nil in Hperm. discriminate. }
    rewrite Hrem. apply Hw.
Qed.

(** X21.  When the transport has connected, the queued patches are
    posted, oldest first, after the [connect] event, and the queue is
    empty. *)
Theorem connecting_replays_the_queue :
  forall (w : Watcher) (now : Z),
    storageAdapter (offlineQueue w) = None ->
    flushInProgress (offlineQueue w) = false ->
    broadcaster_connected w = true ->
    effects (connected w now)
    = effects w ++ Emit "connect" NoPayload
                :: map (fun p => Posted (patch_message w p now))
                       (sort_by_timestamp (getAll (offlineQueue w)))
    /\ StronglySorted older (sort_by_timestamp (getAll (offlineQueue w)))
    /\ getAll (offlineQueue (connected w now)) = []
    /\ isConnected (connected w now) = true.
Proof.
  intros w now A F B. unfold connected.
  rewrite flushQueue_run; [|exact A | exact F].
  cbn [effects offlineQueue set_offlineQueue log emit set_connection isConnected getAll
       storageAdapter db].
  split; [|split; [apply sort_by_timestamp_sorted | split; reflexivity]].
  rewrite <- app_assoc. cbn [app]. do 2 f_equal.
  apply map_ext. intros p. unfold handed_over, patch_message.
  cbn [isConnected broadcaster_connected sourceId]. now rewrite B.
Qed.

(** X22.  [flushQueue] on an instance that is not connected, as after
    [unwatch], loses the queue: [broadcastPatch] puts each patch back in
    the queue and resolves, [flush] takes the send for successful and
    removes the patch.  Nothing is posted, and the queue is empty
    afterwards. *)
Theorem flushing_while_offline_loses_the_queue :
  forall (w : Watcher) (now : Z),
    storageAdapter (offlineQueue w) = None ->
    flushInProgress (offlineQueue w) = false ->
    isConnected w = false ->
    effects (flushQueue w now)
    = effects w ++ map Enqueued (sort_by_timestamp (getAll (offlineQueue w)))
    /\ getAll (offlineQueue (flushQueue w now)) = [].
Proof.
  intros w now A F C.
  rewrite flushQueue_run; [|exact A | exact F].
  cbn [effects offlineQueue set_offlineQueue log getAll storageAdapter db].
  split; [|reflexivity].
  f_equal. apply map_ext. intros p. unfold handed_over. now rewrite C.
Qed.

End WatcherQueue.

Lemma connecting_replays_the_queue_witness :
  map emitted_patch
      (skipn (length (Watcher.effects
                        (Watcher.update FastJsonPatch.applyPatch tab_A "local-1" 200 (set_x 1))))
             (Watcher.effects
                (Watcher.connected
                   (Watcher.update FastJsonPatch.applyPatch tab_A "local-1" 200 (set_x 1))
                   250)))
  = [None; Some pending_local].
Proof.
  rewrite (proj1 (connecting_replays_the_queue
                    (Watcher.update FastJsonPatch.applyPatch tab_A "local-1" 200 (set_x 1))
                    250 eq_refl eq_refl eq_refl)).
  vm_compute. reflexivity.
Defined.

Lemma flushing_while_offline_loses_the_queue_witness :
  OfflineQueue.getAll
    (Watcher.offlineQueue
       (Watcher.unwatch
          (Watcher.update FastJsonPatch.applyPatch tab_A "local-1" 200 (set_x 1))))
  = [pending_local]
  /\ OfflineQueue.getAll
       (Watcher.offlineQueue
          (Watcher.flushQueue
             (Watcher.unwatch
                (Watcher.update FastJsonPatch.applyPatch tab_A "local-1" 200 (set_x 1)))
             250))
     = [].
Proof.
  split; [vm_compute; reflexivity|].
  exact (proj2 (flushing_while_offline_loses_the_queue
                  (Watcher.unwatch
                     (Watcher.update FastJsonPatch.applyPatch tab_A "local-1" 200 (set_x 1)))
                  250 eq_refl eq_refl eq_refl)).
Defined.

(** *** An update made before the connection *)

Section WatcherOffline.

Import OfflineQueue.
Import Broadcaster.
Import Watcher.

Variable applyPatch : JValue -> list Operation -> FastJsonPatch.ApplyResult.

Lemma put_has p l : In p (put p l).
Proof.
  induction l as [|x r IH]; simpl; [now left|].
  destruct (String.eqb (id x) (id p)); [now left | now right].
Qed.

(** [update] on an instance that watches and is not connected. *)
Lemma update_offline w uuid now ops doc sentPatch :
  isWatching w = true ->
  isConnected w = false ->
  FastJsonPatch.newDocument (applyPatch (state w) ops) = Returns doc ->
  fst (processPlugins OnSend (Some (stamped w uuid now ops)) w) = Some sentPatch ->
  exists effs,
    update applyPatch w uuid now ops
    = log (effs ++ [Enqueued sentPatch;
                    Emit "update" (StateUpdated (stamped w uuid now ops) ops)])
          (set_offlineQueue (enqueue (offlineQueue w) sentPatch)
             (set_version (instance_version w + 1)
                (set_state (FastJsonPatch.live (applyPatch (state w) ops)) w)))
    /\ Forall (fun e => emitted_patch e = None) effs.
Proof.
  intros Hw Hc Hd Hp. unfold update. rewrite Hw, Hd. cbn [negb].
  unfold processPlugins in *. cbn [plugins set_version set_state].
  change (mkPatch uuid now (sourceId w) (instance_id w) ops (instance_version w + 1)
                  (Some {["applied" := JBool true]}))
    with (stamped w uuid now ops).
  match goal with
  | |- context [run_hooks OnSend (plugins w) ?d ?w2] =>
      pose proof (run_hooks_result OnSend (plugins w) d w2 w) as Hr;
      destruct (run_hooks_logs OnSend (plugins w) d w2) as [effs [E F]];
      destruct (run_hooks OnSend (plugins w) d w2) as [pp w3]
  end.
  simpl in Hr, E. rewrite Hp in Hr. subst pp w3.
  exists effs. split; [|exact F].
  rewrite broadcastPatch_cases. cbn [isConnected log set_version set_state].
  rewrite Hc. cbn [andb].
  unfold emit, log, set_offlineQueue, set_version, set_state. simpl.
  now rewrite <- !app_assoc.
Qed.

Lemma connected_run w now :
  storageAdapter (offlineQueue w) = None ->
  flushInProgress (offlineQueue w) = false ->
  broadcaster_connected w = true ->
  connected w now
  = set_offlineQueue (mkQueue None [] false)
      (log (Emit "connect" NoPayload
            :: map (fun p => Posted (patch_message w p now))
                   (sort_by_timestamp (getAll (offlineQueue w))))
           (set_connection true true (S (broadcaster_handlers w)) w)).
Proof.
  intros A F B. unfold connected.
  rewrite flushQueue_run; [|exact A | exact F].
  rewrite B. unfold emit. rewrite log_log. reflexivity.
Qed.

(** X23.  An update that is made while the instance watches and has
    not connected yet is not lost: the patch that the send hooks let
    through is queued, and it is posted when the connection completes,
    after which the queue is empty. *)
Theorem offline_update_is_delivered_on_connect :
  forall (w : Watcher) (uuid : string) (now later : Z) (ops : list Operation)
         (doc : JValue) (sentPatch : Patch),
    isWatching w = true ->
    isConnected w = false ->
    broadcaster_connected w = true ->
    storageAdapter (offlineQueue w) = None ->
    flushInProgress (offlineQueue w) = false ->
    FastJsonPatch.newDocument (applyPatch (state w) ops) = Returns doc ->
    fst (processPlugins OnSend (Some (stamped w uuid now ops)) w) = Some sentPatch ->
    In sentPatch (getAll (offlineQueue (update applyPatch w uuid now ops)))
    /\ In (Posted (patch_message w sentPatch later))
          (effects (connected (update applyPatch w uuid now ops) later))
    /\ getAll (offlineQueue (connected (update applyPatch w uuid now ops) later)) = [].
Proof.
  intros w uuid now later ops doc sentPatch Hw Hc Hb A F Hd Hp.
  destruct (update_offline w uuid now ops doc sentPatch Hw Hc Hd Hp) as [effs [E _]].
  assert (Hq : offlineQueue (update applyPatch w uuid now ops)
               = enqueue (offlineQueue w) sentPatch) by now rewrite E.
  assert (Hin : In sentPatch (getAll (offlineQueue (update applyPatch w uuid now ops)))).
  { rewrite Hq. unfold getAll, enqueue. rewrite A. cbn [storageAdapter db].
    apply put_has. }
  split; [exact Hin|].
  rewrite connected_run.
  - split; [|reflexivity].
    cbn [effects set_offlineQueue log]. apply in_or_app. right. right.
    apply in_map_iff. exists sentPatch. split.
    + unfold patch_message. now rewrite E.
    + apply (Permutation_in _ (sort_by_timestamp_perm _)). exact Hin.
  - rewrite Hq. unfold enqueue. now rewrite A.
  - rewrite Hq, flushInProgress_enqueue. exact F.
  - now rewrite E.
Qed.

End WatcherOffline.

Lemma offline_update_is_delivered_on_connect_witness :
  In pending_local
     (OfflineQueue.getAll
        (Watcher.offlineQueue
           (Watcher.update FastJsonPatch.applyPatch tab_A "local-1" 200 (set_x 1))))
  /\ In (Watcher.Posted (patch_message tab_A pending_local 250))
        (Watcher.effects
           (Watcher.connected
              (Watcher.update FastJsonPatch.applyPatch tab_A "local-1" 200 (set_x 1)) 250))
  /\ OfflineQueue.getAll
       (Watcher.offlineQueue
          (Watcher.connected
             (Watcher.update FastJsonPatch.applyPatch tab_A "local-1" 200 (set_x 1)) 250))
     = [].
Proof.
  apply (offline_update_is_delivered_on_connect FastJsonPatch.applyPatch tab_A
           "local-1" 200 250 (set_x 1) (JObj [("x", JNum 1)]) pending_local);
    reflexivity.
Defined.

(** *** The plugins of an instance *)

Section WatcherPlugins.

Import Watcher.

Lemma existsb_plugin_In pid l :
  existsb (fun p => String.eqb (plugin_id p) pid) l = true <-> In pid (map plugin_id l).
Proof.
  rewrite existsb_exists, in_map_iff. split.
  - intros [p [Hin E]]. apply String.eqb_eq in E. now exists p.
  - intros [p [E Hin]]. exists p. split; [exact Hin | now apply String.eqb_eq].
Qed.

Lemma use_distinct w plugin :
  List.NoDup (map plugin_id (plugins w)) ->
  List.NoDup (map plugin_id (plugins (use w plugin))).
Proof.
  intros N. unfold use.
  destruct (existsb _ (plugins w)) eqn:E; [exact N|].
  cbn [plugins emit log set_plugins]. rewrite map_app.
  apply List.NoDup_app; [exact N | repeat constructor; intros [] |].
  intros pid Hin [<- | []].
  apply existsb_plugin_In in Hin. congruence.
Qed.

Lemma filter_distinct pid l :
  List.NoDup (map plugin_id l) ->
  List.NoDup (map plugin_id
                  (List.filter (fun p => negb (String.eqb (plugin_id p) pid)) l)).
Proof.
  induction l as [|p r IH]; intros N; [constructor|].
  simpl in N. inversion N as [|? ? Hnot N']; subst.
  simpl. destruct (negb (String.eqb (plugin_id p) pid)); [|now apply IH].
  simpl. constructor; [|now apply IH].
  intros Hin. apply Hnot. apply in_map_iff in Hin. destruct Hin as [q [E Hq]].
  apply filter_In in Hq. rewrite <- E. apply in_map. apply Hq.
Qed.

Lemma uses_distinct l :
  forall w, List.NoDup (map plugin_id (plugins w)) ->
            List.NoDup (map plugin_id (plugins (fold_left use l w))).
Proof.
  induction l as [|p r IH]; intros w N; [exact N|].
  simpl. apply IH. now apply use_distinct.
Qed.

(** X24.  No two registered plugins have the same id: [use],
    [removePlugin] and [watch], which registers the plugins of its
    configuration, keep it so, and a plugin whose id is taken is not
    registered. *)
Theorem registered_plugins_have_distinct_ids :
  forall (w : Watcher) (plugin : Plugin) (pluginId : string)
         (st : JValue) (cfg : StateMirrorConfig),
    List.NoDup (map plugin_id (plugins w)) ->
    List.NoDup (map plugin_id (plugins (use w plugin)))
    /\ List.NoDup (map plugin_id (plugins (removePlugin w pluginId)))
    /\ List.NoDup (map plugin_id (plugins (watch w st cfg)))
    /\ (In (plugin_id plugin) (map plugin_id (plugins w)) ->
        plugins (use w plugin) = plugins w).
Proof.
  intros w plugin pluginId st cfg N.
  split; [now apply use_distinct|].
  split; [now apply filter_distinct|].
  split.
  - unfold watch. cbn [plugins emit log set_isWatching set_connection].
    apply uses_distinct. exact N.
  - intros Hin. unfold use. apply existsb_plugin_In in Hin. now rewrite Hin.
Qed.

Lemma filter_absent pid l :
  ~ In pid (map plugin_id l) ->
  List.filter (fun p => negb (String.eqb (plugin_id p) pid)) l = l.
Proof.
  induction l as [|p r IH]; intros H; [reflexivity|].
  simpl. destruct (String.eqb_spec (plugin_id p) pid) as [E | E].
  - exfalso. apply H. now left.
  - simpl. f_equal. apply IH. intros Hin. apply H. now right.
Qed.

(** X25.  [removePlugin] undoes [use]: removing a plugin that was
    registered under a new id leaves the plugins that were there, in
    their order; and after [removePlugin(id)] no plugin has that id, so
    that no hook of it is called again. *)
Theorem removePlugin_undoes_use :
  forall (w : Watcher) (plugin : Plugin) (hook : Hook) (data : option Patch),
    ~ In (plugin_id plugin) (map plugin_id (plugins w)) ->
    plugins (removePlugin (use w plugin) (plugin_id plugin)) = plugins w
    /\ ~ In (plugin_id plugin)
            (map plugin_id (plugins (removePlugin (use w plugin) (plugin_id plugin))))
    /\ processPlugins hook data (removePlugin (use w plugin) (plugin_id plugin))
       = processPlugins hook data
           (emit "plugin-loaded" (PluginLoaded (plugin_id plugin)) w).
Proof.
  intros w plugin hook data H.
  assert (E : existsb (fun p => String.eqb (plugin_id p) (plugin_id plugin)) (plugins w)
              = false).
  { apply not_true_iff_false. intros Hex. apply H. now apply existsb_plugin_In. }
  assert (P : plugins (removePlugin (use w plugin) (plugin_id plugin)) = plugins w).
  { unfold removePlugin, use. rewrite E.
    cbn [plugins emit log set_plugins]. rewrite List.filter_app. simpl.
    rewrite String.eqb_refl. simpl. rewrite app_nil_r. now apply filter_absent. }
  split; [exact P|]. split; [now rewrite P|].
  unfold processPlugins. rewrite P. cbn [plugins emit log].
  unfold removePlugin, use. rewrite E.
  cbn [plugins emit log set_plugins]. rewrite List.filter_app. simpl.
  rewrite String.eqb_refl. simpl. rewrite app_nil_r, (filter_absent _ _ H).
  unfold set_plugins, log. simpl. now destruct w.
Qed.

End WatcherPlugins.

Lemma registered_plugins_have_distinct_ids_witness :
  map Watcher.plugin_id
      (Watcher.plugins
         (Watcher.watch (Watcher.create "tab-A") JNull
            (Watcher.mkConfig "doc" None None
               [Plugins.pluginLogger; Plugins.pluginEncrypt_disabled; Plugins.pluginLogger])))
  = ["logger"; "encrypt"]
  /\ List.NoDup
       (map Watcher.plugin_id
            (Watcher.plugins
               (Watcher.watch (Watcher.create "tab-A") JNull
                  (Watcher.mkConfig "doc" None None
                     [Plugins.pluginLogger; Plugins.pluginEncrypt_disabled;
                      Plugins.pluginLogger])))).
Proof.
  split; [reflexivity|].
  refine (proj1 (proj2 (proj2 (registered_plugins_have_distinct_ids
                                 (Watcher.create "tab-A") Plugins.pluginLogger "logger"
                                 JNull _ _)))).
  constructor.
Defined.

Lemma removePlugin_undoes_use_witness :
  Watcher.plugins
    (Watcher.removePlugin (Watcher.use (Watcher.use tab_A Plugins.pluginLogger)
                                       Plugins.pluginEncrypt_disabled) "encrypt")
  = [Plugins.pluginLogger].
Proof.
  refine (proj1 (removePlugin_undoes_use (Watcher.use tab_A Plugins.pluginLogger)
                   Plugins.pluginEncrypt_disabled Watcher.OnSend None _)).
  simpl. intuition discriminate.
Defined.

(** ** The event handlers *)

Section EventsMore.

Import Events.

Lemma splice_first_last h l : ~ In h l -> splice_first h (l ++ [h]) = l.
Proof.
  induction l as [|x r IH]; intros H; simpl.
  - now rewrite Pos.eqb_refl.
  - destruct (Pos.eqb_spec x h) as [E | E].
    + exfalso. apply H. now left.
    + f_equal. apply IH. intros Hin. apply H. now right.
Qed.

(** X26.  [off] undoes [on]: after a handler that was not registered
    for an event is registered and removed again, [emit] calls for every
    event the handlers it called before, in their order; and
    registering a handler for one event changes nothing for another. *)
Theorem off_undoes_on :
  forall (m : EventHandlers) (event other : string) (handler : positive),
    ~ In handler (emit m event) ->
    emit (on m event handler) event = emit m event ++ [handler]
    /\ emit (off (on m event handler) event handler) other = emit m other
    /\ (other <> event -> emit (on m event handler) other = emit m other).
Proof.
  intros m event other handler H.
  assert (Hon : (on m event handler) !! event = Some (emit m event ++ [handler])).
  { unfold on, emit, EventHandlers in *.
    destruct (m !! event); now rewrite lookup_insert_eq. }
  assert (Hother : other <> event -> (on m event handler) !! other = m !! other).
  { intros E. unfold on, EventHandlers in *.
    destruct (m !! event); rewrite lookup_insert_ne by congruence; reflexivity. }
  split; [unfold emit at 1; now rewrite Hon|].
  split.
  - unfold off. rewrite Hon. unfold emit at 1.
    destruct (String.eqb_spec other event) as [-> | E].
    + unfold EventHandlers in *. rewrite lookup_insert_eq. now apply splice_first_last.
    + unfold EventHandlers in *. rewrite lookup_insert_ne by congruence.
      rewrite (Hother E). reflexivity.
  - intros E. unfold emit. now rewrite (Hother E).
Qed.

Lemma off_undoes_on_witness :
  emit (off (on {[ "update" := [1%positive] ]} "update" 2%positive) "update" 2%positive)
       "update"
  = [1%positive].
Proof.
  refine (proj1 (proj2 (off_undoes_on {[ "update" := [1%positive] ]} "update" "update"
                          2%positive _))).
  vm_compute. intuition discriminate.
Defined.

End EventsMore.

(** ** Throttling and debouncing *)

Section ThrottleMore.

Import Throttle.

Variable Args : Type.

(** X27.  A throttled function made with [leading] false never calls
    [func]: [lastCall] starts at 0 and is moved only by a call on the
    leading edge or by the timer, so that a call at a time not below
    [delay] finds [now - lastCall >= delay], takes the branch of the
    leading edge and, that edge being off, does nothing; no timer is
    ever set. *)
Theorem throttle_without_leading_edge_never_calls :
  forall (delay : Z) (trailing : bool) (events : list (Event Args)),
    Forall (called_from delay) events ->
    calls (fold_left (throttle_event Args delay false trailing) events (throttle Args)) = []
    /\ timeoutId (fold_left (throttle_event Args delay false trailing) events (throttle Args))
       = None.
Proof.
  intros delay trailing events H.
  assert (G : forall s,
             lastCall s = 0 -> timeoutId s = None -> calls s = [] ->
             calls (fold_left (throttle_event Args delay false trailing) events s) = []
             /\ timeoutId (fold_left (throttle_event Args delay false trailing) events s)
                = None).
  { induction H as [|e rest He Hrest IH]; intros s L T C; [now split|].
    simpl. destruct e as [now args | now]; simpl.
    - unfold throttled. rewrite L. simpl in He.
      replace (now - 0 >=? delay) with true by (symmetry; apply Z.geb_le; lia).
      now apply IH.
    - rewrite T. simpl. now apply IH. }
  now apply G.
Qed.

Lemma throttle_burst delay t0 a0 :
  forall (burst : list (Z * Args)) s,
    Forall (fun c => fst c - t0 < delay) burst ->
    lastCall s = t0 -> calls s = [a0] ->
    let s' := fold_left (throttle_event Args delay true true) (map call_of burst) s in
    lastCall s' = t0 /\ calls s' = [a0]
    /\ (burst <> [] ->
        timeoutId s' = Some (t0 + delay)
        /\ lastArgs s' = Some (List.last (map snd burst) a0)).
Proof.
  induction burst as [|[t a] rest IH]; intros s H L C; cbn zeta.
  - split; [exact L|]. split; [exact C|]. intros N. now destruct N.
  - inversion H as [|? ? Ht Hrest]; subst. simpl in Ht.
    cbn [map fold_left call_of throttle_event fst snd].
    assert (E : throttled Args delay true true t a s
                = mkThrottled Args (lastCall s) (Some (lastCall s + delay)) (Some a) [a0]).
    { unfold throttled.
      replace (t - lastCall s >=? delay) with false
        by (symmetry; rewrite Z.geb_leb; apply Z.leb_gt; lia).
      rewrite C. do 2 f_equal. lia. }
    rewrite E.
    specialize (IH (mkThrottled Args (lastCall s) (Some (lastCall s + delay)) (Some a) [a0])
                   Hrest eq_refl eq_refl).
    cbn zeta in IH. destruct IH as [IL [IC IT]].
    split; [exact IL|]. split; [exact IC|]. intros _.
    destruct rest as [|c rest'].
    + simpl. split; reflexivity.
    + destruct (IT ltac:(discriminate)) as [T1 T2]. split; [exact T1|].
      rewrite T2. reflexivity.
Qed.

(** X28.  Throttling with both edges: the first call, made when the
    window is open, is passed on at once; of the calls that follow
    within [delay] of it none is passed on when it is made, and when
    the timer comes due [func] is called once more, with the arguments
    of the last of them. *)
Theorem throttle_passes_first_and_last_of_a_burst :
  forall (delay t0 : Z) (a0 : Args) (burst : list (Z * Args)) (t : Z) (a : Args)
         (later : Z),
    delay <= t0 ->
    Forall (fun c => fst c - t0 < delay) (burst ++ [(t, a)]) ->
    t0 + delay <= later ->
    calls (fold_left (throttle_event Args delay true true)
                     (Call t0 a0 :: map call_of (burst ++ [(t, a)]) ++ [Timeout later])
                     (throttle Args))
    = [a0; a].
Proof.
  intros delay t0 a0 burst t a later Hd Hb Hl.
  cbn [fold_left throttle_event]. rewrite fold_left_app.
  assert (E : throttled Args delay true true t0 a0 (throttle Args)
              = mkThrottled Args t0 None (Some a0) [a0]).
  { unfold throttled, throttle. cbn [lastCall timeoutId calls app].
    replace (t0 - 0 >=? delay) with true by (symmetry; apply Z.geb_le; lia).
    reflexivity. }
  rewrite E.
  pose proof (throttle_burst delay t0 a0 (burst ++ [(t, a)])
                (mkThrottled Args t0 None (Some a0) [a0]) Hb eq_refl eq_refl) as H.
  cbn zeta in H. destruct H as [HL [HC HT]].
  destruct HT as [HT HA]; [now destruct burst|].
  cbn [fold_left throttle_event]. rewrite HT.
  cbn [due]. replace (Z.leb (t0 + delay) later) with true by (symmetry; apply Z.leb_le; lia).
  unfold throttled_timeout. rewrite HA, HC.
  rewrite List.map_app. cbn [map snd]. rewrite List.last_last. reflexivity.
Qed.

Lemma debounce_burst_state delay :
  forall (burst : list (Z * Args)) s,
    hasCalled s = false ->
    let s' := fold_left (debounce_event Args delay false true) (map call_of burst) s in
    d_calls s' = d_calls s /\ hasCalled s' = false.
Proof.
  induction burst as [|[t a] rest IH]; intros s H; cbn zeta; [now split|].
  cbn [map fold_left call_of debounce_event fst snd].
  specialize (IH (debounced Args delay false true t a s) H). cbn zeta in IH.
  destruct IH as [I1 I2]. split; [|exact I2]. rewrite I1. reflexivity.
Qed.

(** X29.  Debouncing with the default edges: however many calls are
    made before the timer of the last one comes due, [func] is called
    once, when it comes due, with the arguments of the last call. *)
Theorem debounce_passes_last_of_a_burst :
  forall (delay : Z) (burst : list (Z * Args)) (t : Z) (a : Args) (later : Z),
    t + delay <= later ->
    d_calls (fold_left (debounce_event Args delay false true)
                       (map call_of burst ++ [Call t a; Timeout later])
                       (debounce Args))
    = [a].
Proof.
  intros delay burst t a later Hl. rewrite fold_left_app.
  pose proof (debounce_burst_state delay burst (debounce Args) eq_refl) as H.
  cbn zeta in H. destruct H as [HC HH].
  cbn [fold_left debounce_event debounced d_timeoutId due].
  replace (Z.leb (t + delay) later) with true by (symmetry; apply Z.leb_le; lia).
  unfold debounced_timeout, debounced. cbn [d_lastArgs d_calls hasCalled andb].
  rewrite HC. reflexivity.
Qed.

(** X30.  Debouncing on the leading edge only: [hasCalled] is reset by
    the timer, and without the trailing edge no timer is set, so that
    [func] is called for the first call and for no call after it. *)
Theorem debounce_on_leading_edge_calls_once :
  forall (delay t0 : Z) (a0 : Args) (events : list (Event Args)),
    d_calls (fold_left (debounce_event Args delay true false)
                       (Call t0 a0 :: events) (debounce Args))
    = [a0].
Proof.
  intros delay t0 a0 events. cbn [fold_left debounce_event].
  assert (G : forall s,
             hasCalled s = true -> d_timeoutId s = None -> d_calls s = [a0] ->
             d_calls (fold_left (debounce_event Args delay true false) events s) = [a0]).
  { induction events as [|e rest IH]; intros s H T C; [exact C|].
    simpl. destruct e as [now args | now]; simpl.
    - apply IH; unfold debounced; simpl; rewrite ?H; simpl; auto.
    - rewrite T. simpl. now apply IH. }
  apply G; reflexivity.
Qed.

End ThrottleMore.

Lemma throttle_without_leading_edge_never_calls_witness :
  Throttle.calls
    (fold_left (Throttle.throttle_event string 1000 false true)
               [Throttle.Call 1700000000000 "a"; Throttle.Call 1700000000500 "b";
                Throttle.Timeout 1700000001000; Throttle.Call 1700000002000 "c"]
               (Throttle.throttle string))
  = [].
Proof.
  refine (proj1 (throttle_without_leading_edge_never_calls string 1000 true _ _)).
  repeat constructor; simpl; lia.
Defined.

Lemma throttle_passes_first_and_last_of_a_burst_witness :
  Throttle.calls
    (fold_left (Throttle.throttle_event string 1000 true true)
               [Throttle.Call 5000 "a"; Throttle.Call 5100 "b"; Throttle.Call 5900 "c";
                Throttle.Timeout 6000]
               (Throttle.throttle string))
  = ["a"; "c"].
Proof.
  apply (throttle_passes_first_and_last_of_a_burst string 1000 5000 "a" [(5100, "b")]
           5900 "c" 6000).
  - lia.
  - repeat constructor; simpl; lia.
  - lia.
Defined.

Lemma debounce_passes_last_of_a_burst_witness :
  Throttle.d_calls
    (fold_left (Throttle.debounce_event string 100 false true)
               [Throttle.Call 10 "a"; Throttle.Call 50 "b"; Throttle.Call 90 "c";
                Throttle.Timeout 190]
               (Throttle.debounce string))
  = ["c"].
Proof.
  apply (debounce_passes_last_of_a_burst string 100 [(10, "a"); (50, "b")] 90 "c" 190).
  lia.
Defined.
